(** * NeuroGraph: ingestion pipeline, trust engine and graph merge

    A shallow embedding of the Python sources
    - [src/ingestion/bibliographer.py] (trust scoring),
    - [src/ingestion/pipeline.py] (page assembly, extraction, graph upsert),
    - [src/ingestion/converters.py] (image extraction filter),
    - [src/ui/pages/1_Validator.py] (review commit),
    - [src/graph/db_connector.py] (the Neo4j connector),
    followed by the properties established about them.

    Conventions.
    - Python [str] is [string]; the text handled is ASCII, so [upper] and
      [toUpper] act on the letters a-z and leave every other character
      alone. Python and Cypher also map cased letters outside ASCII: where
      a statement depends on what the case mapping does to arbitrary text,
      it carries the premise [is_ascii].
    - Python and Neo4j floats are exact rationals ([Q]): the only arithmetic
      performed on them is [(w + t) / 2], comparison and [max].
    - A Python [dict] is an association list in insertion order.
    - Exceptions are the [Raise] branch of [result]; calls to the outside
      world (HTTP lookups, language models) are answered by oracles and
      recorded in a trace of [event]s. *)

From Stdlib Require Import String Ascii List ZArith QArith Qminmax Lia Bool.
From Stdlib Require Import DecimalString Lqa.
Import ListNotations.

Open Scope string_scope.
Open Scope list_scope.

(** ** Python strings *)

Definition dq : string := String (ascii_of_nat 34) EmptyString.

Definition is_lower (c : ascii) : bool :=
  let n := nat_of_ascii c in (97 <=? n)%nat && (n <=? 122)%nat.

Definition upper_char (c : ascii) : ascii :=
  if is_lower c then ascii_of_nat (nat_of_ascii c - 32) else c.

Definition lower_char (c : ascii) : ascii :=
  let n := nat_of_ascii c in
  if (65 <=? n)%nat && (n <=? 90)%nat then ascii_of_nat (n + 32) else c.

Fixpoint map_string (f : ascii -> ascii) (s : string) : string :=
  match s with
  | EmptyString => EmptyString
  | String c r => String (f c) (map_string f r)
  end.

(** [str.upper()] and [str.lower()] on ASCII text: the letters a-z, or
    A-Z, are mapped and every other character is left alone. On text
    with letters outside ASCII the Python functions map those too (an
    accented letter to its capital, the Kelvin sign to k), which these do
    not follow. *)
Definition upper (s : string) : string := map_string upper_char s.
Definition lower (s : string) : string := map_string lower_char s.

(** [s.replace(" ", "_")]: both patterns are one character long. *)
Definition replace_char (a b : ascii) (s : string) : string :=
  map_string (fun c => if Ascii.eqb c a then b else c) s.

(** [str.isspace()] on the code points below 256. *)
Definition isspace (c : ascii) : bool :=
  let n := nat_of_ascii c in
  ((9 <=? n)%nat && (n <=? 13)%nat) || ((28 <=? n)%nat && (n <=? 32)%nat)
  || (n =? 133)%nat || (n =? 160)%nat.

Fixpoint lstrip (s : string) : string :=
  match s with
  | EmptyString => EmptyString
  | String c r => if isspace c then lstrip r else s
  end.

Fixpoint rstrip (s : string) : string :=
  match s with
  | EmptyString => EmptyString
  | String c r =>
      match rstrip r with
      | EmptyString => if isspace c then EmptyString else String c EmptyString
      | r' => String c r'
      end
  end.

(** [str.strip()]. *)
Definition strip (s : string) : string := rstrip (lstrip s).

(** [s[:n]]. *)
Definition take (n : nat) (s : string) : string := substring 0 n s.

(** [sep.join(parts)]. *)
Fixpoint join (sep : string) (parts : list string) : string :=
  match parts with
  | [] => ""
  | [p] => p
  | p :: ps => p ++ sep ++ join sep ps
  end.

Fixpoint contains_char (a : ascii) (s : string) : bool :=
  match s with
  | EmptyString => false
  | String c r => Ascii.eqb c a || contains_char a r
  end.

(** ** Exceptions *)

Inductive exn : Type :=
| TypeError
| ValueError
| OverflowError
| AttributeError
| KeyError
| ModelError
| DriverError.

Inductive result (A : Type) : Type :=
| Ok (a : A)
| Raise (e : exn).
Arguments Ok {A} a.
Arguments Raise {A} e.

(** ** Python values, as [json.loads] produces them *)

#[local] Set Warnings "-register-all".

Inductive pyval : Type :=
| PNone
| PBool (b : bool)
| PInt (z : Z)
| PFloat (q : Q)
| PStr (s : string)
| PList (l : list pyval)
| PDict (d : list (string * pyval)).

(** Truthiness, as [bool(v)]. *)
Definition truthy (v : pyval) : bool :=
  match v with
  | PNone => false
  | PBool b => b
  | PInt z => negb (z =? 0)%Z
  | PFloat q => negb (Qeq_bool q 0)
  | PStr s => negb (s =? "")
  | PList l => match l with [] => false | _ => true end
  | PDict d => match d with [] => false | _ => true end
  end.

(** [d.get(k)]: the value bound to [k], or [None]. *)
Fixpoint dict_get (k : string) (d : list (string * pyval)) : option pyval :=
  match d with
  | [] => None
  | (k', v) :: r => if k' =? k then Some v else dict_get k r
  end.

Definition get (k : string) (d : list (string * pyval)) : pyval :=
  match dict_get k d with Some v => v | None => PNone end.

Definition get_default (k : string) (dflt : pyval) (d : list (string * pyval)) : pyval :=
  match dict_get k d with Some v => v | None => dflt end.

(** [a or b]. *)
Definition py_or (a b : pyval) : pyval := if truthy a then a else b.

(** [str(z)] for an [int]. *)
Definition str_of_int (z : Z) : string := NilZero.string_of_int (Z.to_int z).

Definition hex_digit (n : nat) : ascii :=
  if (n <? 10)%nat then ascii_of_nat (48 + n) else ascii_of_nat (87 + n).

Definition backslash : ascii := ascii_of_nat 92.
Definition squote : ascii := ascii_of_nat 39.
Definition dquote : ascii := ascii_of_nat 34.

(** One character of [repr(s)], with [q] the chosen quote. *)
Definition repr_char (q c : ascii) : string :=
  let n := nat_of_ascii c in
  if Ascii.eqb c backslash then String backslash (String backslash "")
  else if Ascii.eqb c q then String backslash (String q "")
  else if (n =? 10)%nat then String backslash "n"
  else if (n =? 13)%nat then String backslash "r"
  else if (n =? 9)%nat then String backslash "t"
  else if (n <? 32)%nat || (n =? 127)%nat
          || ((128 <=? n)%nat && (n <=? 160)%nat) || (n =? 173)%nat
       then String backslash
              (String "x" (String (hex_digit (n / 16)) (String (hex_digit (n mod 16)) "")))
  else String c "".

Fixpoint repr_chars (q : ascii) (s : string) : string :=
  match s with
  | EmptyString => EmptyString
  | String c r => repr_char q c ++ repr_chars q r
  end.

(** [repr(s)] for a [str]: single quotes unless the text has a single quote
    and no double quote. *)
Definition repr_str (s : string) : string :=
  let q := if contains_char squote s && negb (contains_char dquote s)
           then dquote else squote in
  String q (repr_chars q s ++ String q "").

Section PythonText.

(** [repr] of a [float] is the shortest decimal that reads back to the same
    binary64 value; it is taken from the interpreter. *)
Variable float_repr : Q -> string.

(** [repr(v)]. *)
Fixpoint py_repr (v : pyval) : string :=
  match v with
  | PNone => "None"
  | PBool true => "True"
  | PBool false => "False"
  | PInt z => str_of_int z
  | PFloat q => float_repr q
  | PStr s => repr_str s
  | PList l =>
      ("[" ++ (fix items (l : list pyval) : string :=
                 match l with
                 | [] => ""
                 | [x] => py_repr x
                 | x :: xs => (py_repr x ++ ", " ++ items xs)%string
                 end) l ++ "]")%string
  | PDict d =>
      ("{" ++ (fix items (d : list (string * pyval)) : string :=
                 match d with
                 | [] => ""
                 | [(k, x)] => (repr_str k ++ ": " ++ py_repr x)%string
                 | (k, x) :: r =>
                     (repr_str k ++ ": " ++ py_repr x ++ ", " ++ items r)%string
                 end) d ++ "}")%string
  end.

(** [str(v)]. *)
Definition py_str (v : pyval) : string :=
  match v with
  | PStr s => s
  | _ => py_repr v
  end.

End PythonText.

(** ** The property graph held by Neo4j

    A node or relationship is identified by its position in the store:
    identities are handed out in creation order and nothing is ever
    deleted. A property that was never set is [None] (Cypher's [null]). *)

Inductive label : Type := Document | Concept.

Definition label_eqb (a b : label) : bool :=
  match a, b with
  | Document, Document | Concept, Concept => true
  | _, _ => false
  end.

Record node : Type := mkNode {
  node_label : label;
  name : string;
  trust_score : option Q;
  ingested_at : option nat
}.

(** A [RELATION] relationship with its properties. *)
Record relation : Type := mkRelation {
  start_node : nat;
  end_node : nat;
  rtype : string;
  weight : option Q;
  sources : option (list string);
  status : option string;
  validated_at : option nat
}.

Record graph : Type := mkGraph {
  nodes : list node;
  rels : list relation
}.

Definition empty_graph : graph := mkGraph [] [].

(** The connector of [db_connector.py]: whether the driver can reach the
    server, the stored graph, and the server clock read by [datetime()]. *)
Record Neo4jConnector : Type := mkConnector {
  driver_up : bool;
  db : graph;
  clock : nat
}.

(** ** Calls to the outside world *)

(** An embedded raster image, as [extract_image] describes it. *)
Record image : Type := mkImage {
  xref : nat;
  width : Z;
  height : Z;
  image_bytes : string
}.

Inductive event : Type :=
| CitationLookup (doi : string)
| OpenAlexLookup (title : string)
| ClassifierCall (prompt : string)
| ExtractionCall (prompt : string)
| VisionCall (instruction : string) (img : image).

(** What a run can observe and change: the calls made so far and the
    process-wide connector [graph_db]. *)
Record world : Type := mkWorld {
  trace : list event;
  graph_db : Neo4jConnector
}.

(** A computation that may raise and that acts on the world. *)
Definition M (A : Type) : Type := world -> result A * world.

Definition ret {A} (a : A) : M A := fun w => (Ok a, w).

Definition raise {A} (e : exn) : M A := fun w => (Raise e, w).

Definition bind {A B} (m : M A) (k : A -> M B) : M B :=
  fun w =>
    match m w with
    | (Ok a, w') => k a w'
    | (Raise e, w') => (Raise e, w')
    end.

(** [try: m except Exception: h]. *)
Definition try_except {A} (m : M A) (h : M A) : M A :=
  fun w =>
    match m w with
    | (Ok a, w') => (Ok a, w')
    | (Raise _, w') => h w'
    end.

Definition emit (e : event) : M unit :=
  fun w => (Ok tt, mkWorld (trace w ++ [e]) (graph_db w)).

Definition lift {A} (r : result A) : M A := fun w => (r, w).

Notation "x <- m ;; k" := (bind m (fun x => k))
  (at level 61, m at next level, right associativity).
Notation "' pat <- m ;; k" := (bind m (fun x => match x with pat => k end))
  (at level 61, pat pattern, m at next level, right associativity).
Notation "m ;;; k" := (bind m (fun _ => k))
  (at level 61, right associativity).

(** ** bibliographer.py *)

Open Scope Q_scope.

Definition DOC_TYPE_PROMPT (sample : string) : string :=
  ("Analizza il seguente testo (prime pagine del documento) e rispondi in JSON.
Classifica il documento in una delle categorie: LAB_NOTE, TEXTBOOK, LECTURE_SLIDES, IMAGE_CAPTION, EXPERIMENTAL_STUDY, REVIEW_ARTICLE, POPULAR_SCIENCE, OTHER.
Restituisci solo JSON: {" ++ dq ++ "doc_type" ++ dq ++ ": " ++ dq ++ "..." ++ dq
   ++ ", " ++ dq ++ "confidence" ++ dq ++ ": 0.0-1.0, " ++ dq ++ "rationale" ++ dq
   ++ ": " ++ dq ++ "breve motivo" ++ dq ++ "}.
Testo:
" ++ sample ++ "
")%string.

Definition DOC_TYPE_TRUST : list (string * Q) :=
  [ ("LAB_NOTE"%string, 1.0);
    ("TEXTBOOK"%string, 0.90);
    ("LECTURE_SLIDES"%string, 0.70);
    ("IMAGE_CAPTION"%string, 0.60);
    ("EXPERIMENTAL_STUDY"%string, 0.90);
    ("REVIEW_ARTICLE"%string, 0.85);
    ("POPULAR_SCIENCE"%string, 0.60) ].

Fixpoint table_get {V} (k : string) (t : list (string * V)) : option V :=
  match t with
  | [] => None
  | (k', v) :: r => if (k' =? k)%string then Some v else table_get k r
  end.

Definition _trust_from_doc_type (doc_type : string) : Q :=
  match table_get (upper doc_type) DOC_TYPE_TRUST with
  | Some t => t
  | None => 0.5
  end.

(** [x > n] for a JSON value [x] and an integer literal [n]. *)
Definition py_gt (x : pyval) (n : Z) : result bool :=
  match x with
  | PInt z => Ok (n <? z)%Z
  | PBool b => Ok (n <? (if b then 1 else 0))%Z
  | PFloat q => Ok (negb (Qle_bool q (inject_Z n)))
  | _ => Raise TypeError
  end.

(** [max(a, b)]: the first argument unless the second is strictly larger. *)
Definition py_max (a b : Q) : Q := if Qle_bool b a then a else b.

Section Externals.

(** The citation count Semantic Scholar reports for a DOI; [None] when the
    request fails, [requests] is missing or the field is absent. *)
Variable semantic_scholar : string -> option Z.

(** The first OpenAlex search result for a title; [None] when the request
    fails, the status is not 200 or there is no result. *)
Variable openalex : string -> option pyval.

(** [float(s)] for a [str]; [None] when it raises [ValueError]. *)
Variable float_of_string : string -> option Q.

(** [repr] of a float. *)
Variable float_repr : Q -> string.

(** A model answers a prompt with the parsed JSON content of its response
    ([json.loads] of the content, which is first dumped when it is not a
    [str]); [None] when [invoke] or [json.loads] raises. *)
Definition model : Type := string -> option pyval.

Definition fetch_citation_count (doi : string) : M (option Z) :=
  emit (CitationLookup doi) ;;;
  ret (semantic_scholar doi).

(** [float(v)]. *)
Definition py_float (v : pyval) : result Q :=
  match v with
  | PBool b => Ok (if b then 1 else 0)
  | PInt z =>
      if (Z.abs z <? 2 ^ 1024 - 2 ^ 970)%Z then Ok (inject_Z z) else Raise OverflowError
  | PFloat q => Ok q
  | PStr s => match float_of_string s with Some q => Ok q | None => Raise ValueError end
  | _ => Raise TypeError
  end.

(** [data.get(k, dflt)] on an arbitrary value: only a dict has [get]. *)
Definition attr_get (data : pyval) (k : string) (dflt : pyval) : result pyval :=
  match data with
  | PDict d => Ok (get_default k dflt d)
  | _ => Raise AttributeError
  end.

Definition _classify_document_type (text : string) (classifier : option model)
    (max_chars : nat) : M (string * Q * string) :=
  match classifier with
  | None => ret ("OTHER"%string, 0.0, "classifier missing"%string)
  | Some invoke =>
      let prompt := DOC_TYPE_PROMPT (take max_chars text) in
      try_except
        (emit (ClassifierCall prompt) ;;;
         data <- lift (match invoke prompt with
                       | Some d => Ok d
                       | None => Raise ModelError
                       end) ;;
         dt1 <- lift (attr_get data "doc_type" PNone) ;;
         dt <- (if truthy dt1 then ret dt1
                else dt2 <- lift (attr_get data "type" PNone) ;;
                     ret (py_or dt2 (PStr "OTHER"))) ;;
         let doc_type := upper (py_str float_repr dt) in
         c <- lift (attr_get data "confidence" (PFloat 0.0)) ;;
         confidence <- lift (py_float c) ;;
         r <- lift (attr_get data "rationale" (PStr "")) ;;
         ret (doc_type, confidence, py_str float_repr r))
        (ret ("OTHER"%string, 0.0, "classification failed"%string))
  end.

Definition truthy_str (s : string) : bool := negb (s =? "")%string.

Definition calculate_trust_score (text : string) (doi : option string)
    (classifier : option model) : M (Q * list (string * pyval)) :=
  let base_score := 0.5 in
  let structure :=
    '(doc_type, confidence, rationale) <- _classify_document_type text classifier (Z.to_nat 12000) ;;
    let trust := if truthy_str doc_type then _trust_from_doc_type doc_type else base_score in
    ret (trust, [ ("source"%string, PStr "structure");
                  ("doc_type"%string, PStr doc_type);
                  ("confidence"%string, PFloat confidence);
                  ("rationale"%string, PStr rationale) ]) in
  match doi with
  | Some d =>
      if truthy_str d then
        citations <- fetch_citation_count d ;;
        match citations with
        | Some c =>
            let details := [ ("source"%string, PStr "citations");
                             ("doi"%string, PStr d);
                             ("citations"%string, PInt c) ] in
            if (50 <? c)%Z then ret (0.95, details)
            else if (0 <? c)%Z then ret (0.85, details)
            else ret (0.80, details)
        | None => structure
        end
      else structure
  | None => structure
  end.

Definition _query_openalex (title : string) : M (option pyval) :=
  emit (OpenAlexLookup title) ;;;
  ret (openalex title).

Definition str_in (s : string) (l : list string) : bool :=
  existsb (fun x => (x =? s)%string) l.

(** [Bibliographer.get_trust_score]. *)
Definition get_trust_score (title : string) (doc_type_detected : string) : M Q :=
  let base_score := 0.5 in
  let heuristic :=
    if str_in (upper doc_type_detected) ["TEXTBOOK"%string] then ret 0.90
    else if str_in (upper doc_type_detected)
              ["PAPER"%string; "EXPERIMENTAL_STUDY"%string; "REVIEW_ARTICLE"%string]
         then ret 0.70
    else ret base_score in
  if str_in (lower doc_type_detected) ["note"%string; "lab_note"%string; "labnote"%string]
  then ret 1.0
  else
    alex_data <- _query_openalex title ;;
    match alex_data with
    | Some data =>
        if truthy data then
          citations <- lift (attr_get data "cited_by_count" (PInt 0)) ;;
          is_retracted <- lift (attr_get data "is_retracted" (PBool false)) ;;
          if truthy is_retracted then ret 0.1
          else
            b100 <- lift (py_gt citations 100) ;;
            if b100 : bool then ret 0.95
            else
              b10 <- lift (py_gt citations 10) ;;
              if b10 : bool then ret 0.85 else ret 0.75
        else heuristic
    | None => heuristic
    end.

(** The trust computed at the start of [IngestionPipeline.process_document]:
    [text_sample] is the text of the leading pages, [doi] what [find_doi]
    found in it, [stem] the file name without its suffix. *)
Definition document_trust (text_sample : string) (doi : option string)
    (stem : string) (extraction_model : model) : M Q :=
  '(trust_score, trust_meta) <- calculate_trust_score text_sample doi (Some extraction_model) ;;
  let doc_type_detected := py_or (get "doc_type" trust_meta) (PStr "Paper") in
  dt <- lift (match doc_type_detected with
              | PStr s => Ok s
              | _ => Raise AttributeError
              end) ;;
  biblio_score <- get_trust_score stem dt ;;
  ret (py_max trust_score biblio_score).


(** [find_doi]: the first match of the pattern "10." followed by 4 to 9
    digits, a slash, and one or more characters other than whitespace,
    quotes, [>] and [)]; trailing [.,;)] are then removed. *)

Definition is_digit (c : ascii) : bool :=
  let n := nat_of_ascii c in (48 <=? n)%nat && (n <=? 57)%nat.

Definition doi_body_char (c : ascii) : bool :=
  negb (isspace c || Ascii.eqb c dquote || Ascii.eqb c squote
        || Ascii.eqb c ">" || Ascii.eqb c ")").

Fixpoint take_while (f : ascii -> bool) (s : string) : string :=
  match s with
  | EmptyString => EmptyString
  | String c r => if f c then String c (take_while f r) else EmptyString
  end.

Fixpoint drop_while (f : ascii -> bool) (s : string) : string :=
  match s with
  | EmptyString => EmptyString
  | String c r => if f c then drop_while f r else s
  end.

(** The pattern anchored at the head of [s]. The digit run must be the
    whole run (4 to 9 digits) because a slash has to follow it. *)
Definition match_doi_here (s : string) : option string :=
  match s with
  | String "1" (String "0" (String "." r)) =>
      let ds := take_while is_digit r in
      let n := String.length ds in
      if (4 <=? n)%nat && (n <=? 9)%nat then
        match drop_while is_digit r with
        | String "/" r2 =>
            let body := take_while doi_body_char r2 in
            if (body =? "")%string then None
            else Some ("10." ++ ds ++ "/" ++ body)%string
        | _ => None
        end
      else None
  | _ => None
  end.

Fixpoint re_search_doi (s : string) : option string :=
  match match_doi_here s with
  | Some m => Some m
  | None =>
      match s with
      | EmptyString => None
      | String _ r => re_search_doi r
      end
  end.

Fixpoint rstrip_chars (f : ascii -> bool) (s : string) : string :=
  match s with
  | EmptyString => EmptyString
  | String c r =>
      match rstrip_chars f r with
      | EmptyString => if f c then EmptyString else String c EmptyString
      | r' => String c r'
      end
  end.

Definition find_doi (text : string) : option string :=
  match re_search_doi text with
  | None => None
  | Some m =>
      Some (rstrip_chars (fun c => Ascii.eqb c "." || Ascii.eqb c ","
                                   || Ascii.eqb c ";" || Ascii.eqb c ")") m)
  end.

(** ** The Cypher statements the application sends

    A statement is evaluated clause by clause over a table of rows; a
    writing clause handles its input rows one after the other, each seeing
    what the previous ones wrote. *)

Definition indexed {A} (l : list A) : list (nat * A) :=
  combine (seq 0 (length l)) l.

Fixpoint update_nth {A} (i : nat) (f : A -> A) (l : list A) : list A :=
  match l, i with
  | [], _ => []
  | x :: r, O => f x :: r
  | x :: r, S j => x :: update_nth j f r
  end.

(** [MATCH (n:lbl {name: nm})]: the identities of the matching nodes. *)
Definition match_nodes (lbl : label) (nm : string) (g : graph) : list nat :=
  map fst (filter (fun p => label_eqb (node_label (snd p)) lbl
                            && (name (snd p) =? nm)%string)
                  (indexed (nodes g))).

Definition add_node (n : node) (g : graph) : graph :=
  mkGraph (nodes g ++ [n]) (rels g).

Definition add_relation (r : relation) (g : graph) : graph :=
  mkGraph (nodes g) (rels g ++ [r]).

Definition set_node (i : nat) (f : node -> node) (g : graph) : graph :=
  mkGraph (update_nth i f (nodes g)) (rels g).

Definition set_relation (i : nat) (f : relation -> relation) (g : graph) : graph :=
  mkGraph (nodes g) (update_nth i f (rels g)).

(** [MERGE (n:lbl {name: nm})]: bind every match, or create one node. *)
Definition merge_node (lbl : label) (nm : string) (g : graph) : graph * list nat :=
  match match_nodes lbl nm g with
  | [] => (add_node (mkNode lbl nm None None) g, [length (nodes g)])
  | ids => (g, ids)
  end.

(** A writing clause run over its input rows. *)
Fixpoint for_each_row {R S} (step : R -> graph -> graph * list S)
    (rows : list R) (g : graph) : graph * list S :=
  match rows with
  | [] => (g, [])
  | r :: rs =>
      let (g1, out) := step r g in
      let (g2, outs) := for_each_row step rs g1 in
      (g2, out ++ outs)
  end.

(** [MATCH (s)-[r:RELATION {type: ty}]->(o)] for bound [s] and [o]. *)
Definition match_relations (s o : nat) (ty : string) (g : graph) : list nat :=
  map fst (filter (fun p => (start_node (snd p) =? s)%nat
                            && (end_node (snd p) =? o)%nat
                            && (rtype (snd p) =? ty)%string)
                  (indexed (rels g))).

(** [a + b] and [a / 2] on numbers that may be [null]. *)
Definition null_avg (a b : option Q) : option Q :=
  match a, b with
  | Some x, Some y => Some ((x + y) / 2)
  | _, _ => None
  end.

(** [l + [x]] on a list that may be [null]. *)
Definition null_append (l : option (list string)) (x : string) : option (list string) :=
  match l with
  | Some xs => Some (xs ++ [x])
  | None => None
  end.

Definition doc_trust (doc : nat) (g : graph) : option Q :=
  match nth_error (nodes g) doc with
  | Some d => trust_score d
  | None => None
  end.

Definition node_name (i : nat) (g : graph) : string :=
  match nth_error (nodes g) i with
  | Some d => name d
  | None => ""
  end.

(** [ON MATCH SET r.weight = (r.weight + doc.trust_score) / 2,
                  r.sources = r.sources + [doc.name]]. *)
Definition on_match_set (doc : nat) (g : graph) (r : relation) : relation :=
  mkRelation (start_node r) (end_node r) (rtype r)
             (null_avg (weight r) (doc_trust doc g))
             (null_append (sources r) (node_name doc g))
             (status r) (validated_at r).

(** [MERGE (s)-[r:RELATION {type: ty}]->(o)] with its [ON CREATE] and
    [ON MATCH] parts, for one row [(doc, s, o)]. *)
Definition merge_relation (ty : string) (row : nat * nat * nat) (g : graph)
    : graph * list nat :=
  let '(doc, s, o) := row in
  match match_relations s o ty g with
  | [] =>
      (add_relation
         (mkRelation s o ty (doc_trust doc g) (Some [node_name doc g]) None None) g,
       [length (rels g)])
  | ids =>
      (fold_left (fun g' r => set_relation r (on_match_set doc g') g') ids g, ids)
  end.

(** The statement of [_save_to_graph]. *)
Definition upsert_triple (source subj pred obj : string) (g : graph) : graph :=
  let docs := match_nodes Document source g in
  let (g1, rows1) :=
    for_each_row (fun doc g => let (g', ss) := merge_node Concept subj g in
                               (g', map (fun s => (doc, s)) ss)) docs g in
  let (g2, rows2) :=
    for_each_row (fun (r : nat * nat) g =>
                    let (g', os) := merge_node Concept obj g in
                    (g', map (fun o => (fst r, snd r, o)) os)) rows1 g1 in
  fst (for_each_row (merge_relation pred) rows2 g2).

(** The statement of [_create_document_node]:
    [MERGE (d:Document {name: $name})
     SET d.trust_score = $trust, d.ingested_at = datetime()]. *)
Definition merge_document (nm : string) (trust : Q) (now : nat) (g : graph) : graph :=
  let (g1, ds) := merge_node Document nm g in
  fold_left (fun g' d =>
               set_node d (fun n => mkNode (node_label n) (name n) (Some trust) (Some now)) g')
            ds g1.

(** A row handed to the review commit. *)
Record commit_row : Type := mkCommitRow {
  rel_id : nat;
  subject : string;
  predicate : string;
  object : string
}.

Definition VALIDATED : string := "VALIDATED".
Definition PROVISIONAL : string := "PROVISIONAL".

(** The [SET] clause of [commit_triples] for one row whose [MATCH] found
    the relationship [r] with identity [row.rel_id]. *)
Definition commit_set (row : commit_row) (now : nat) (r : relation) (g : graph) : graph :=
  let g1 := set_node (start_node r)
              (fun n => mkNode (node_label n) (subject row) (trust_score n) (ingested_at n)) g in
  let g2 := set_relation (rel_id row)
              (fun r => mkRelation (start_node r) (end_node r) (upper (predicate row))
                                   (weight r) (sources r) (Some VALIDATED) (Some now)) g1 in
  set_node (end_node r)
    (fun n => mkNode (node_label n) (object row) (trust_score n) (ingested_at n)) g2.

(** The statement of [commit_triples]; the second component is
    [count( * )]. Every relationship has both its end points, so the
    pattern [(s)-[r:RELATION]->(o)] matches whenever [r] exists. *)
Fixpoint commit_rows (rows : list commit_row) (now : nat) (g : graph) : graph * nat :=
  match rows with
  | [] => (g, O)
  | row :: rest =>
      match nth_error (rels g) (rel_id row) with
      | Some r =>
          let (g', n) := commit_rows rest now (commit_set row now r g) in (g', S n)
      | None => commit_rows rest now g
      end
  end.

(** [coalesce(r.status, 'PROVISIONAL')]. *)
Definition coalesce_status (r : relation) : string :=
  match status r with
  | Some s => s
  | None => PROVISIONAL
  end.

(** A record returned by [fetch_provisional_triples]. *)
Record triple_record : Type := mkTripleRecord {
  rec_rel_id : nat;
  rec_subject : string;
  rec_predicate : string;
  rec_object : string;
  rec_status : string;
  rec_weight : option Q;
  rec_sources : option (list string)
}.

(** The statement of [fetch_provisional_triples]. *)
Definition provisional_rows (limit : nat) (g : graph) : list triple_record :=
  firstn limit
    (rev (map (fun p => mkTripleRecord (fst p)
                          (node_name (start_node (snd p)) g) (rtype (snd p))
                          (node_name (end_node (snd p)) g)
                          (coalesce_status (snd p)) (weight (snd p)) (sources (snd p)))
              (filter (fun p => (coalesce_status (snd p) =? PROVISIONAL)%string)
                      (indexed (rels g))))).

Inductive statement : Type :=
| MergeDocument (nm : string) (trust : Q)
| UpsertTriple (source subj pred obj : string)
| CommitRows (rows : list commit_row)
| FetchProvisional (limit : nat).

Inductive records : Type :=
| NoRecords
| Updated (n : nat)
| Triples (l : list triple_record).

Definition run (q : statement) (now : nat) (g : graph) : graph * records :=
  match q with
  | MergeDocument nm trust => (merge_document nm trust now g, NoRecords)
  | UpsertTriple source subj pred obj => (upsert_triple source subj pred obj g, NoRecords)
  | CommitRows rows => let (g', n) := commit_rows rows now g in (g', Updated n)
  | FetchProvisional limit => (g, Triples (provisional_rows limit g))
  end.

(** [Neo4jConnector.query]: any driver failure is logged and re-raised. *)
Definition query (q : statement) : M records :=
  fun w =>
    let c := graph_db w in
    if driver_up c then
      let (g', rs) := run q (clock c) (db c) in
      (Ok rs, mkWorld (trace w) (mkConnector (driver_up c) g' (clock c)))
    else (Raise DriverError, w).

(** ** pipeline.py *)

Record page : Type := mkPage {
  get_text : string;
  get_images : list image
}.

(** An opened document: [path.name], [path.stem] and the pages. *)
Record document : Type := mkDocument {
  doc_name : string;
  doc_stem : string;
  doc_pages : list page
}.

Definition nl : string := String (ascii_of_nat 10) EmptyString.

Definition MAX_CONTENT_CHARS : nat := Z.to_nat 15000.

(** The prompt store loaded from [prompts.json]. *)
Variable prompts : list (string * string).

(** [template.format(text=t)]; raises when the template has a field other
    than [text] or a stray brace. *)
Variable str_format : string -> string -> result string.

(** The vision model: the content of its answer to an instruction and an
    image, [None] when [invoke] raises. *)
Variable vision_model : string -> image -> option string.

(** The extraction model, configured for JSON output. *)
Variable extraction_model : model.

(** [PromptManager.get]. *)
Definition prompts_get (nm : string) : M string :=
  match table_get nm prompts with
  | Some p => ret p
  | None => raise KeyError
  end.

(** [PromptManager.format] with the keyword [text]. *)
Definition prompts_format (nm text : string) : M string :=
  prompt <- prompts_get nm ;;
  lift (str_format prompt text).

Definition _get_text_sample (doc : document) (max_pages : nat) : M string :=
  ret (join (nl ++ nl) (map get_text (firstn (Nat.min (length (doc_pages doc)) max_pages)
                                             (doc_pages doc)))).

(** The loop of [_analyze_page_images] from image number [img_index] on. *)
Fixpoint analyze_images (imgs : list image) (img_index : nat)
    (descriptions : list string) : M (list string) :=
  match imgs with
  | [] => ret descriptions
  | img :: rest =>
      instruction <- prompts_get "visual_analyst" ;;
      descriptions' <-
        try_except
          (emit (VisionCall instruction img) ;;;
           content <- lift (match vision_model instruction img with
                            | Some c => Ok c
                            | None => Raise ModelError
                            end) ;;
           ret (descriptions
                ++ [("[Figura " ++ str_of_int (Z.of_nat img_index + 1) ++ "]: "
                     ++ content)%string]))
          (ret descriptions) ;;
      analyze_images rest (S img_index) descriptions'
  end.

Definition _analyze_page_images (pg : page) : M string :=
  descriptions <- analyze_images (get_images pg) 0 [] ;;
  ret (join nl descriptions).

(** [[t for t in l if isinstance(t, dict)]]. *)
Definition only_dicts (l : list pyval) : list (list (string * pyval)) :=
  flat_map (fun t => match t with PDict d => [d] | _ => [] end) l.

(** [t.get(a) or t.get(b) or t.get(c)]. *)
Definition role (a b c : string) (t : list (string * pyval)) : pyval :=
  py_or (py_or (get a t) (get b t)) (get c t).

Definition subject_of := role "subject" "s" "subj".
Definition predicate_of := role "predicate" "p" "pred".
Definition object_of := role "object" "o" "obj".

(** The loop building [normalized]. *)
Fixpoint normalize (triples : list (list (string * pyval)))
    : list (list (string * string)) :=
  match triples with
  | [] => []
  | t :: rest =>
      let subj := subject_of t in
      let pred := predicate_of t in
      let obj := object_of t in
      if truthy subj && truthy pred && truthy obj then
        [ ("subject"%string, py_str float_repr subj);
          ("predicate"%string, py_str float_repr pred);
          ("object"%string, py_str float_repr obj) ] :: normalize rest
      else normalize rest
  end.

(** The candidates found in the parsed answer. *)
Definition candidates (data : pyval) : list (list (string * pyval)) :=
  match data with
  | PDict d =>
      match get "triples" d with
      | PList l => only_dicts l
      | _ => []
      end
  | PList l => only_dicts l
  | _ => []
  end.

Definition _extract_knowledge (content : string) : M (list (list (string * string))) :=
  if (String.length (strip content) <? 50)%nat then ret []
  else
    prompt <- prompts_format "graph_extractor" (take MAX_CONTENT_CHARS content) ;;
    try_except
      (emit (ExtractionCall prompt) ;;;
       data <- lift (match extraction_model prompt with
                     | Some d => Ok d
                     | None => Raise ModelError
                     end) ;;
       ret (normalize (candidates data)))
      (ret []).

Definition _create_document_node (filename : string) (trust : Q) : M unit :=
  query (MergeDocument filename trust) ;;;
  ret tt.

(** [k in triple] and [triple[k]]. *)
Definition has_key (k : string) (t : list (string * string)) : bool :=
  existsb (fun p => (fst p =? k)%string) t.

Definition getitem (k : string) (t : list (string * string)) : M string :=
  match table_get k t with
  | Some v => ret v
  | None => raise KeyError
  end.

(** [predicate.upper().replace(" ", "_")]. *)
Definition normalize_predicate (p : string) : string :=
  replace_char " " "_" (upper p).

(** [IngestionPipeline._save_to_graph]. The dicts hold texts, as those its
    only caller passes on from [_extract_knowledge] do: with another
    value under [predicate] the call of [upper], made before the [try],
    would raise. *)
Fixpoint _save_to_graph (triples : list (list (string * string)))
    (source_file : string) : M unit :=
  match triples with
  | [] => ret tt
  | triple :: rest =>
      (if forallb (fun k => has_key k triple)
            ["subject"%string; "predicate"%string; "object"%string]
       then
         subj <- getitem "subject" triple ;;
         pred <- getitem "predicate" triple ;;
         obj <- getitem "object" triple ;;
         try_except
           (query (UpsertTriple source_file subj (normalize_predicate pred) obj) ;;;
            ret tt)
           (ret tt)
       else ret tt) ;;;
      _save_to_graph rest source_file
  end.

Fixpoint process_pages (pages : list page) (source_file : string) : M unit :=
  match pages with
  | [] => ret tt
  | pg :: rest =>
      let text_content := get_text pg in
      image_descriptions <- _analyze_page_images pg ;;
      let full_page_content :=
        ("TESTO:" ++ nl ++ text_content ++ nl ++ nl ++ "DESCRIZIONE FIGURE:" ++ nl
         ++ image_descriptions)%string in
      knowledge <- _extract_knowledge full_page_content ;;
      (match knowledge with
       | [] => ret tt
       | _ => _save_to_graph knowledge source_file
       end) ;;;
      process_pages rest source_file
  end.

(** [IngestionPipeline.process_document], from the opened document on. The
    [trust_score] argument of the source is overwritten before any use. *)
Definition process_document (doc : document) : M unit :=
  text_sample <- _get_text_sample doc 3 ;;
  let doi := find_doi text_sample in
  trust_score <- document_trust text_sample doi (doc_stem doc) extraction_model ;;
  _create_document_node (doc_name doc) trust_score ;;;
  process_pages (doc_pages doc) (doc_name doc).

(** ** converters.py *)

(** The images [extract_images_from_pdf] saves, each with its page and
    image number (both counted from 1). *)
Definition extract_images_from_pdf (doc : list page) (min_size : Z * Z)
    : list (nat * nat * image) :=
  let (min_w, min_h) := min_size in
  flat_map (fun pp =>
              flat_map (fun ip =>
                          if (width (snd ip) <? min_w)%Z || (height (snd ip) <? min_h)%Z
                          then []
                          else [(S (fst pp), S (fst ip), snd ip)])
                       (indexed (get_images (snd pp))))
           (indexed doc).

Definition default_min_size : Z * Z := (500, 500)%Z.

(** ** 1_Validator.py *)

Definition PAGE_LIMIT : nat := 200.

Definition fetch_provisional_triples (limit : nat) : M (list triple_record) :=
  res <- query (FetchProvisional limit) ;;
  match res with
  | Triples l => ret l
  | _ => ret []
  end.

Definition commit_triples (rows : list commit_row) : M nat :=
  match rows with
  | [] => ret O
  | _ =>
      res <- query (CommitRows rows) ;;
      match res with
      | Updated n => ret n
      | _ => ret O
      end
  end.

End Externals.

(** ** The specification's wording of the text-path citation table *)

(** The citation buckets as the specification words them for the
    identifier path: above 100, above 10, above 0; [None] stands for
    falling through to the structural classification. *)
Definition spec_citation_bucket (c : Z) : option Q :=
  if (100 <? c)%Z then Some 0.95
  else if (10 <? c)%Z then Some 0.85
  else if (0 <? c)%Z then Some 0.75
  else None.

(** The world once the citation lookup for [d] has been made. *)
Definition after_lookup (d : string) (w : world) : world :=
  mkWorld (trace w ++ [CitationLookup d]) (graph_db w).

(** ** Predicates used in the statements *)

(** A dict with exactly the keys subject, predicate and object, in that
    order, each bound to a non-empty text. *)
Definition well_formed_triple (t : list (string * string)) : Prop :=
  exists s p o,
    t = [("subject"%string, s); ("predicate"%string, p); ("object"%string, o)]
    /\ s <> ""%string /\ p <> ""%string /\ o <> ""%string.

(** No alias of a role is bound to a truthy value. *)
Definition role_missing (a b c : string) (t : list (string * pyval)) : Prop :=
  truthy (get a t) = false /\ truthy (get b t) = false /\ truthy (get c t) = false.

(** The node [i] of [g] has label [lbl] and name [nm]. *)
Definition is_named (lbl : label) (nm : string) (g : graph) (i : nat) : bool :=
  match nth_error (nodes g) i with
  | Some n => label_eqb (node_label n) lbl && (name n =? nm)%string
  | None => false
  end.

(** The identities of the edges with triple key [(subj, ty, obj)]: from a
    Concept named [subj] to a Concept named [obj], with type [ty]. *)
Definition edge_ids (subj ty obj : string) (g : graph) : list nat :=
  map fst (filter (fun p => is_named Concept subj g (start_node (snd p))
                            && is_named Concept obj g (end_node (snd p))
                            && (rtype (snd p) =? ty)%string)
                  (indexed (rels g))).

(** Every relationship has its two end points in the store. *)
Definition endpoints_exist (g : graph) : Prop :=
  Forall (fun r => (start_node r < length (nodes g))%nat
                   /\ (end_node r < length (nodes g))%nat) (rels g).

(** The relationship the [ON CREATE] part writes for the row [(d, s, o)]. *)
Definition created_edge (ty : string) (d : nat) (g : graph) (s o : nat) : relation :=
  mkRelation s o ty (doc_trust d g) (Some [node_name d g]) None None.

(** The state of the store while the relationship [MERGE] of the upsert
    statement runs over its rows, [g0] being the store when it started
    and [done] the pairs of end points handled so far: the nodes are
    those of [g0]; a relationship of [g0] has been through [ON MATCH] once
    if it has type [ty] and links a pair handled, and is as it was
    otherwise; the relationships added were created for pairs handled;
    and every pair handled has a relationship of type [ty]. *)
Definition merge_progress (ty : string) (d : nat) (g0 : graph)
    (done : list (nat * nat)) (g : graph) : Prop :=
  nodes g = nodes g0
  /\ (forall i r, nth_error (rels g0) i = Some r ->
        (rtype r = ty /\ In (start_node r, end_node r) done ->
         nth_error (rels g) i = Some (on_match_set d g0 r))
        /\ (~ (rtype r = ty /\ In (start_node r, end_node r) done) ->
            nth_error (rels g) i = Some r))
  /\ (forall i r, (length (rels g0) <= i)%nat -> nth_error (rels g) i = Some r ->
        exists s o, In (s, o) done /\ r = created_edge ty d g0 s o)
  /\ (forall s o, In (s, o) done ->
        exists i r, nth_error (rels g) i = Some r
                    /\ start_node r = s /\ end_node r = o /\ rtype r = ty).

(** The edge [i] exists and satisfies [P]. *)
Definition rel_sat (P : relation -> Prop) (g : graph) (i : nat) : Prop :=
  exists r, nth_error (rels g) i = Some r /\ P r.

(** The edge [i] is in status VALIDATED. *)
Definition validated (g : graph) (i : nat) : Prop :=
  rel_sat (fun r => status r = Some VALIDATED) g i.

(** The edge [i] is VALIDATED and stamped with the time [now]. *)
Definition stamped (now : nat) (g : graph) (i : nat) : Prop :=
  rel_sat (fun r => status r = Some VALIDATED /\ validated_at r = Some now) g i.

Definition in_unit (q : Q) : Prop := 0 <= q /\ q <= 1.

(** Every Document carries a trust score in [0,1] and every edge a weight
    in [0,1]. *)
Definition unit_graph (g : graph) : Prop :=
  Forall (fun n => node_label n = Document ->
                   exists t, trust_score n = Some t /\ in_unit t) (nodes g)
  /\ Forall (fun r => exists x, weight r = Some x /\ in_unit x) (rels g).

(** The node [d] of [g] is a Document. *)
Definition doc_row (d : nat) (g : graph) : Prop :=
  exists n, nth_error (nodes g) d = Some n /\ node_label n = Document.

(** What can happen to the world between two observations: a call of one
    of the functions that write to the graph, or a change of connectivity
    and time. *)
Inductive operation : Type :=
| CreateDocument (filename : string) (trust : Q)
| SaveToGraph (triples : list (list (string * string))) (source_file : string)
| Commit (rows : list commit_row)
| Environment (up : bool) (now : nat).

Definition perform (w : world) (o : operation) : world :=
  match o with
  | CreateDocument filename trust => snd (_create_document_node filename trust w)
  | SaveToGraph triples source_file => snd (_save_to_graph triples source_file w)
  | Commit rows => snd (commit_triples rows w)
  | Environment up now => mkWorld (trace w) (mkConnector up (db (graph_db w)) now)
  end.

(** The trust handed to a document creation lies in [0,1]. *)
Definition trust_in_unit (o : operation) : Prop :=
  match o with
  | CreateDocument _ trust => in_unit trust
  | _ => True
  end.

(** ** Sample inputs *)

Definition w0 : world := mkWorld [] (mkConnector true empty_graph 0).

Definition no_float (s : string) : option Q := None.
Definition plain_repr (q : Q) : string := "0.5".

(** A classifier that labels every text [LAB_NOTE]. *)
Definition lab_note_classifier : model :=
  fun _ => Some (PDict [("doc_type"%string, PStr "LAB_NOTE");
                        ("confidence"%string, PFloat 0.9)]).

(** A classifier that labels every text [OTHER]. *)
Definition other_classifier : model :=
  fun _ => Some (PDict [("doc_type"%string, PStr "OTHER")]).

(** An OpenAlex record of a retracted work cited 500 times. *)
Definition retracted_work : pyval :=
  PDict [("cited_by_count"%string, PInt 500); ("is_retracted"%string, PBool true)].

Definition sample_doi : string := "10.1234/abc".

(** A one-page document without identifier. *)
Definition retracted_document : document :=
  mkDocument "paper.pdf" "paper" [mkPage "some text" []].

Definition sample_prompts : list (string * string) :=
  [("visual_analyst"%string, "Describe this figure."%string);
   ("graph_extractor"%string, "Extract the triples of: {text}"%string)].

Definition sample_format (template text : string) : result string :=
  Ok (template ++ text)%string.

Definition tiny_image : image := mkImage 7 10 10 "icon".

Definition tiny_page : page := mkPage "Some text" [tiny_image].

Definition sample_vision (instruction : string) (img : image) : option string :=
  Some "a tiny icon"%string.

(** An answer of the extraction model with a complete candidate, one using
    the short aliases, one whose subject is empty and one without object. *)
Definition sample_answer : pyval :=
  PDict [("triples"%string,
          PList [PDict [("subject"%string, PStr "A"); ("predicate"%string, PStr "causes");
                        ("object"%string, PStr "B")];
                 PDict [("s"%string, PStr "C"); ("p"%string, PInt 7);
                        ("o"%string, PList [PInt 1])];
                 PDict [("subject"%string, PStr ""); ("predicate"%string, PStr "is a");
                        ("object"%string, PStr "D")];
                 PDict [("subject"%string, PStr "E"); ("predicate"%string, PStr "has")]])].

Definition sample_extractor : model := fun _ => Some sample_answer.

Definition long_content : string :=
  "Dopamine neurons in the ventral tegmental area project to the nucleus accumbens.".

Definition sample_triple : list (string * string) :=
  [("subject"%string, "A"%string); ("predicate"%string, "causes"%string);
   ("object"%string, "B"%string)].

(** A graph holding the Document doc1.pdf with trust 0.8 and nothing else. *)
Definition doc_graph : graph :=
  mkGraph [mkNode Document "doc1.pdf" (Some 0.8) (Some O)] [].

Definition w_doc : world := mkWorld [] (mkConnector true doc_graph 0).

(** The scenario of two documents asserting the same triple. *)
Definition two_documents : list operation :=
  [ CreateDocument "doc1.pdf" 0.8;
    SaveToGraph [sample_triple] "doc1.pdf";
    CreateDocument "doc2.pdf" 0.6;
    SaveToGraph [sample_triple] "doc2.pdf" ].

Definition w_two : world := fold_left perform two_documents w0.

Definition sample_commit : commit_row := mkCommitRow 0 "A" "causes" "B".

(** A second triple with the same predicate and object. *)
Definition second_triple : list (string * string) :=
  [("subject"%string, "C"%string); ("predicate"%string, "causes"%string);
   ("object"%string, "B"%string)].

(** A review that renames the Concept C to A: two Concepts then bear the
    name A and two relationships the key (A, CAUSES, B); a second
    document is then registered. *)
Definition renamed_concept : list operation :=
  [ CreateDocument "doc1.pdf" 0.8;
    SaveToGraph [sample_triple; second_triple] "doc1.pdf";
    Commit [mkCommitRow 1 "A" "causes" "B"];
    CreateDocument "doc2.pdf" 0.6 ].

Definition w_renamed : world := fold_left perform renamed_concept w0.

(** ** 2_Explorer.py *)

Definition color_for_labels (labels : list string) : string :=
  let labels_upper := map upper labels in
  if str_in "ANATOMIA" labels_upper || str_in "ANATOMY" labels_upper then "#ff7f0e"
  else if str_in "MOLECOLA" labels_upper || str_in "MOLECULE" labels_upper then "#1f77b4"
  else if str_in "PATOLOGIA" labels_upper || str_in "PATHOLOGY" labels_upper then "#d62728"
  else "#7f7f7f".

(** A row of [semantic_search]: names and relationship type are texts or
    [null]; the label lists are lists or [null]. *)
Record search_row : Type := mkSearchRow {
  row_source : option string;
  row_source_labels : option (list string);
  row_target : option string;
  row_target_labels : option (list string);
  row_rel_type : option string
}.

(** [Node(id, label, color)] and [Edge(source, target, label)]. *)
Record vis_node : Type := mkVisNode {
  vis_id : string;
  vis_label : string;
  vis_color : string
}.

Record vis_edge : Type := mkVisEdge {
  edge_source : string;
  edge_target : string;
  edge_label : string
}.

(** Truthiness of a text that may be [null], and the text itself. *)
Definition truthy_opt (o : option string) : bool :=
  match o with
  | Some s => negb (s =? "")%string
  | None => false
  end.

Definition text_of (o : option string) : string :=
  match o with
  | Some s => s
  | None => ""%string
  end.

(** [key in nodes], for the dict of nodes kept in insertion order. *)
Definition has_node (key : string) (nodes : list vis_node) : bool :=
  existsb (fun n => (vis_id n =? key)%string) nodes.

(** [if name and name not in nodes: nodes[name] = Node(...)]; iterating
    over a [null] label list raises. *)
Definition add_vis_node (name : option string) (labels : option (list string))
    (nodes : list vis_node) : result (list vis_node) :=
  if truthy_opt name && negb (has_node (text_of name) nodes) then
    match labels with
    | Some ls => Ok (nodes ++ [mkVisNode (text_of name) (text_of name) (color_for_labels ls)])
    | None => Raise TypeError
    end
  else Ok nodes.

(** The loop of [build_graph]. *)
Fixpoint build_loop (rows : list search_row) (nodes : list vis_node)
    (edges : list vis_edge) : result (list vis_node * list vis_edge) :=
  match rows with
  | [] => Ok (nodes, edges)
  | row :: rest =>
      match add_vis_node (row_source row) (row_source_labels row) nodes with
      | Raise e => Raise e
      | Ok nodes1 =>
          match add_vis_node (row_target row) (row_target_labels row) nodes1 with
          | Raise e => Raise e
          | Ok nodes2 =>
              let edges' :=
                if truthy_opt (row_source row) && truthy_opt (row_target row)
                   && truthy_opt (row_rel_type row)
                then edges ++ [mkVisEdge (text_of (row_source row)) (text_of (row_target row))
                                 (text_of (row_rel_type row))]
                else edges in
              build_loop rest nodes2 edges'
          end
      end
  end.

Definition build_graph (rows : list search_row) : result (list vis_node * list vis_edge) :=
  build_loop rows [] [].

(** The row has a source, a target and a relationship type. *)
Definition full_row (row : search_row) : bool :=
  truthy_opt (row_source row) && truthy_opt (row_target row)
  && truthy_opt (row_rel_type row).

(** What [build_graph] keeps true of its dict of nodes: distinct,
    non-empty keys, each node labelled by its key. *)
Definition nodes_ok (nodes : list vis_node) : Prop :=
  NoDup (map vis_id nodes)
  /\ Forall (fun n => vis_id n <> ""%string /\ vis_label n = vis_id n) nodes.

Definition sample_rows : list search_row :=
  [ mkSearchRow (Some "A"%string) (Some ["Concept"%string; "Anatomy"%string])
      (Some "B"%string) (Some ["Concept"%string]) (Some "CAUSES"%string);
    mkSearchRow (Some "A"%string) (Some ["Concept"%string])
      None None None ].

(** ** Further predicates and sample inputs *)

(** The computation leaves the connector, and so the graph, alone. *)
Definition keeps_graph {A} (m : M A) : Prop :=
  forall w, graph_db (snd (m w)) = graph_db w.

(** An OpenAlex record of a work cited 250 times. *)
Definition cited_work : pyval :=
  PDict [("cited_by_count"%string, PInt 250); ("is_retracted"%string, PBool false)].

(** An OpenAlex record whose citation count is [null]. *)
Definition uncounted_work : pyval :=
  PDict [("cited_by_count"%string, PNone)].

(** A model whose answer is a JSON array. *)
Definition array_classifier : model := fun _ => Some (PList []).

(** Every character of [s] satisfies [f]. *)
Fixpoint string_all (f : ascii -> bool) (s : string) : bool :=
  match s with
  | EmptyString => true
  | String c r => f c && string_all f r
  end.

(** The text is ASCII. On such text [upper] and [lower] are [str.upper],
    [str.lower] and Cypher's [toUpper], which map further letters outside
    ASCII. *)
Definition is_ascii (s : string) : bool :=
  string_all (fun c => (nat_of_ascii c <? 128)%nat) s.

(** The characters [find_doi] removes from the end of a match. *)
Definition doi_trailing (c : ascii) : bool :=
  Ascii.eqb c "." || Ascii.eqb c "," || Ascii.eqb c ";" || Ascii.eqb c ")".

(** [g'] holds the nodes of [g], unchanged and at the same positions,
    followed by Concept nodes without trust score; and at least as many
    relationships. *)
Definition grows (g g' : graph) : Prop :=
  (exists extra,
      nodes g' = nodes g ++ extra
      /\ Forall (fun n => node_label n = Concept /\ trust_score n = None) extra)
  /\ (length (rels g) <= length (rels g'))%nat.

(** The triple dict lacks one of the three keys. *)
Definition incomplete (t : list (string * string)) : Prop :=
  has_key "subject" t && has_key "predicate" t && has_key "object" t = false.

(** The node [i] of [g] is a Concept. *)
Definition is_concept (g : graph) (i : nat) : Prop :=
  exists n, nth_error (nodes g) i = Some n /\ node_label n = Concept.

(** Every relationship links two Concept nodes of the store. *)
Definition concept_edges (g : graph) : Prop :=
  Forall (fun r => is_concept g (start_node r) /\ is_concept g (end_node r)) (rels g).

(** No two Document nodes bear the same name. *)
Definition documents_unique (g : graph) : Prop :=
  forall nm, (length (match_nodes Document nm g) <= 1)%nat.

Definition model_invariant (g : graph) : Prop :=
  concept_edges g /\ documents_unique g.

Definition w_down : world := mkWorld [] (mkConnector false doc_graph 0).

Definition incomplete_triple : list (string * string) :=
  [("subject"%string, "E"%string); ("predicate"%string, "has"%string)].

(** The computation keeps the property [I] of the stored graph. *)
Definition preserves (I : graph -> Prop) {A} (m : M A) : Prop :=
  forall w, I (db (graph_db w)) -> I (db (graph_db (snd (m w)))).

(** The text sample [process_document] takes from the leading pages. *)
Definition text_sample_of (doc : document) : string :=
  join (nl ++ nl)
       (map get_text (firstn (Nat.min (length (doc_pages doc)) 3) (doc_pages doc))).

(** The lines [_analyze_page_images] produces for the images from number
    [i] on: one per image whose vision call succeeds, numbered by the
    position of the image. *)
Fixpoint figure_lines (vision_model : string -> image -> option string)
    (instruction : string) (imgs : list image) (i : nat) : list string :=
  match imgs with
  | [] => []
  | img :: rest =>
      match vision_model instruction img with
      | Some c => [("[Figura " ++ str_of_int (Z.of_nat i + 1) ++ "]: " ++ c)%string]
      | None => []
      end ++ figure_lines vision_model instruction rest (S i)
  end.

(** The image is at least as wide and as high as the minimum. *)
Definition large_enough (min_size : Z * Z) (img : image) : bool :=
  negb ((width img <? fst min_size)%Z || (height img <? snd min_size)%Z).

Definition blind_vision (instruction : string) (img : image) : option string := None.

Definition big_image : image := mkImage 9 500 500 "figure".

Definition silent_model : model := fun _ => None.

(** The character is neither a space nor a lower-case letter. *)
Definition canonical_char (c : ascii) : bool :=
  negb (Ascii.eqb c " ") && negb (is_lower c).

Definition spaced_commit : commit_row := mkCommitRow 0 "A" "is a" "B".

(** * Properties *)

Ltac unfold_M :=
  unfold bind, ret, lift, emit, raise, try_except in *.

(** ** Strings *)

Lemma length_lstrip (s : string) : (String.length (lstrip s) <= String.length s)%nat.
Proof.
  induction s as [|c r IH]; simpl; [lia|].
  destruct (isspace c); simpl; lia.
Qed.

Lemma length_rstrip (s : string) : (String.length (rstrip s) <= String.length s)%nat.
Proof.
  induction s as [|c r IH]; simpl; [lia|].
  destruct (rstrip r) eqn:E; simpl in *.
  - destruct (isspace c); simpl; lia.
  - lia.
Qed.

Lemma length_strip (s : string) : (String.length (strip s) <= String.length s)%nat.
Proof.
  unfold strip.
  pose proof (length_rstrip (lstrip s)); pose proof (length_lstrip s); lia.
Qed.

Lemma append_nonempty_l (a b : string) : a <> "" -> (a ++ b)%string <> "".
Proof. destruct a; simpl; congruence. Qed.

Lemma str_of_int_nonempty (z : Z) : str_of_int z <> "".
Proof.
  unfold str_of_int.
  destruct (Z.to_int z) as [d|d]; simpl.
  - destruct d; simpl; congruence.
  - congruence.
Qed.

Lemma string_eqb_empty (s : string) : (s =? "")%string = false <-> s <> "".
Proof.
  split; intro H.
  - intro E; subst; discriminate.
  - destruct s; [congruence | reflexivity].
Qed.

(** [str(v)] of a truthy value is never the empty text. *)
Lemma py_str_truthy_nonempty (float_repr : Q -> string) (v : pyval) :
  (forall q, float_repr q <> "") ->
  truthy v = true -> py_str float_repr v <> "".
Proof.
  intros Hf Ht.
  destruct v as [|b|z|q|s|l|d]; simpl in *; try discriminate.
  - destruct b; [congruence | discriminate].
  - apply str_of_int_nonempty.
  - apply Hf.
  - apply string_eqb_empty. now apply negb_true_iff.
Qed.

(** ** Trust engine *)

Section TrustProperties.

Variable semantic_scholar : string -> option Z.
Variable openalex : string -> option pyval.
Variable float_of_string : string -> option Q.
Variable float_repr : Q -> string.

Local Abbreviation calculate :=
  (calculate_trust_score semantic_scholar float_of_string float_repr).
Local Abbreviation classify := (_classify_document_type float_of_string float_repr).

(** A failed citation lookup leaves the text path where it would be
    without an identifier, the lookup having been made. *)
Lemma calculate_trust_score_lookup_failed
    (text d : string) (classifier : option model) (w : world) :
  truthy_str d = true ->
  semantic_scholar d = None ->
  calculate text (Some d) classifier w
  = calculate text None classifier (after_lookup d w).
Proof.
  intros Hd Hn. unfold calculate_trust_score, fetch_citation_count.
  rewrite Hd. unfold_M. simpl. rewrite Hn. reflexivity.
Qed.

(** C3, as the code has it: with an identifier and a citation count the
    text path answers 0.95 above 50 citations, 0.85 from 1 to 50 and 0.80
    for a count of zero or less, consulting nothing but the citation
    lookup; only a failed lookup falls through to the structural
    classification. *)
Theorem calculate_trust_score_citation_buckets
    (text d : string) (classifier : option model) (w : world) :
  truthy_str d = true ->
  (forall c, semantic_scholar d = Some c ->
     exists t details,
       calculate text (Some d) classifier w = (Ok (t, details), after_lookup d w)
       /\ ((50 < c)%Z -> t = 0.95)
       /\ ((0 < c <= 50)%Z -> t = 0.85)
       /\ ((c <= 0)%Z -> t = 0.80))
  /\ (semantic_scholar d = None ->
      calculate text (Some d) classifier w
      = calculate text None classifier (after_lookup d w)).
Proof.
  intros Hd. split.
  - intros c Hc. unfold calculate_trust_score, fetch_citation_count.
    rewrite Hd. unfold_M. simpl. rewrite Hc.
    destruct (50 <? c)%Z eqn:E50; [|destruct (0 <? c)%Z eqn:E0];
      eexists; eexists; (split; [reflexivity|]);
      repeat split; intros; try reflexivity; lia.
  - intros Hn. now apply calculate_trust_score_lookup_failed.
Qed.

(** Without an identifier, a classification as [LAB_NOTE] gives 1.0. *)
Lemma calculate_trust_score_lab_note
    (text : string) (classifier : option model) (w w' : world) (c : Q) (r : string) :
  classify text classifier (Z.to_nat 12000) w = (Ok ("LAB_NOTE"%string, c, r), w') ->
  exists details, calculate text None classifier w = (Ok (1.0, details), w').
Proof.
  intros H. unfold calculate_trust_score.
  unfold bind at 1. rewrite H. eexists. reflexivity.
Qed.

(** The override of [get_trust_score]: a detected type among note,
    lab_note and labnote (in any letter case) answers 1.0 at once, and
    the title lookup is not made. *)
Lemma get_trust_score_override (title dt : string) (w : world) :
  str_in (lower dt) ["note"%string; "lab_note"%string; "labnote"%string] = true ->
  get_trust_score openalex title dt w = (Ok 1.0, w).
Proof.
  intros H. unfold get_trust_score. rewrite H. reflexivity.
Qed.

(** C4, as the code has it: the title path answers exactly 1.0 for a
    detected lab-note type without consulting the title lookup, whatever
    that lookup would report; the text path answers 1.0 for a text
    classified [LAB_NOTE] when no identifier is given, and with an
    identifier whose lookup fails. It has no override ahead of the
    citation signal. *)
Theorem lab_note_override
    (title dt text d : string) (classifier : option model) (w w1 : world)
    (c : Q) (r : string) :
  str_in (lower dt) ["note"%string; "lab_note"%string; "labnote"%string] = true ->
  classify text classifier (Z.to_nat 12000) w = (Ok ("LAB_NOTE"%string, c, r), w1) ->
  get_trust_score openalex title dt w = (Ok 1.0, w)
  /\ (exists details, calculate text None classifier w = (Ok (1.0, details), w1))
  /\ (truthy_str d = true -> semantic_scholar d = None ->
      forall w2 c2 r2,
        classify text classifier (Z.to_nat 12000) (after_lookup d w)
        = (Ok ("LAB_NOTE"%string, c2, r2), w2) ->
        exists details, calculate text (Some d) classifier w = (Ok (1.0, details), w2)).
Proof.
  intros Hdt Hcl. split; [|split].
  - now apply get_trust_score_override.
  - eapply calculate_trust_score_lab_note; eauto.
  - intros Hd Hn w2 c2 r2 Hcl2.
    rewrite (calculate_trust_score_lookup_failed text d classifier w Hd Hn).
    eapply calculate_trust_score_lab_note; eauto.
Qed.

(** A retracted OpenAlex record makes the title path answer 0.1, whatever
    the citation count. *)
Lemma get_trust_score_retracted (title dt : string) (d : list (string * pyval)) (w : world) :
  str_in (lower dt) ["note"%string; "lab_note"%string; "labnote"%string] = false ->
  openalex title = Some (PDict d) ->
  truthy (get_default "is_retracted" (PBool false) d) = true ->
  get_trust_score openalex title dt w
  = (Ok 0.1, mkWorld (trace w ++ [OpenAlexLookup title]) (graph_db w)).
Proof.
  intros Hdt Ho Hr. unfold get_trust_score, _query_openalex. rewrite Hdt.
  unfold_M. simpl. rewrite Ho.
  assert (Hd : truthy (PDict d) = true).
  { destruct d; [discriminate Hr | reflexivity]. }
  rewrite Hd. simpl. rewrite Hr. reflexivity.
Qed.

Lemma _trust_from_doc_type_bounds (dt : string) :
  0.5 <= _trust_from_doc_type dt /\ _trust_from_doc_type dt <= 1.
Proof.
  unfold _trust_from_doc_type, DOC_TYPE_TRUST. simpl.
  repeat match goal with
         | |- context [if ?b then _ else _] => destruct b
         end; split; unfold Qle; simpl; lia.
Qed.

(** The text path never answers less than 0.5. *)
Lemma calculate_trust_score_bounds
    (text : string) (doi : option string) (classifier : option model)
    (w w' : world) (t : Q) (details : list (string * pyval)) :
  calculate text doi classifier w = (Ok (t, details), w') ->
  0.5 <= t /\ t <= 1.
Proof.
  assert (Hs : forall w w' t details,
             calculate text None classifier w = (Ok (t, details), w') ->
             0.5 <= t /\ t <= 1).
  { clear. intros w w' t details. unfold calculate_trust_score. unfold bind at 1.
    destruct (classify text classifier (Z.to_nat 12000) w) as [[[[dt c] r]|e] w1];
      [|discriminate].
    unfold ret. intros H. inversion H; subst.
    destruct (truthy_str dt).
    - apply _trust_from_doc_type_bounds.
    - split; unfold Qle; simpl; lia. }
  destruct doi as [d|]; [|apply Hs].
  destruct (truthy_str d) eqn:Hd.
  - destruct (semantic_scholar d) as [c|] eqn:Hc.
    + unfold calculate_trust_score, fetch_citation_count. rewrite Hd.
      unfold_M. simpl. rewrite Hc.
      destruct (50 <? c)%Z; [|destruct (0 <? c)%Z]; intros H; inversion H; subst;
        split; unfold Qle; simpl; lia.
    + rewrite (calculate_trust_score_lookup_failed text d classifier w Hd Hc).
      apply Hs.
  - intros H. apply (Hs w w' t details).
    unfold calculate_trust_score in *. rewrite Hd in H. exact H.
Qed.

Lemma py_max_ge_l (a b : Q) : a <= py_max a b.
Proof.
  unfold py_max. destruct (Qle_bool b a) eqn:E.
  - apply Qle_refl.
  - apply Qlt_le_weak. apply Qnot_le_lt. intro H.
    apply Qle_bool_iff in H. congruence.
Qed.

(** The trust the pipeline stores is never below 0.5: the 0.1 of a
    retracted work cannot survive the [max] with the text path. *)
Lemma document_trust_at_least_half
    (text : string) (doi : option string) (stem : string) (m : model)
    (w w' : world) (t : Q) :
  document_trust semantic_scholar openalex float_of_string float_repr
    text doi stem m w = (Ok t, w') ->
  0.5 <= t.
Proof.
  unfold document_trust. unfold bind at 1.
  destruct (calculate text doi (Some m) w) as [[[t1 meta]|e] w1] eqn:E1; [|discriminate].
  apply calculate_trust_score_bounds in E1.
  unfold bind at 1.
  destruct (lift _ w1) as [[dt|e] w2]; [|discriminate].
  unfold bind at 1.
  destruct (get_trust_score openalex stem dt w2) as [[b|e] w3]; [|discriminate].
  unfold ret. intros H. inversion H; subst.
  eapply Qle_trans; [apply E1 | apply py_max_ge_l].
Qed.

End TrustProperties.

(** C3, the table of the specification fails on the code: 5 citations
    give 0.85 where the specification says 0.75, and a count of 0 gives
    0.80 from the citation branch instead of falling through. *)
Lemma citation_buckets_counterexample :
  (exists details,
     calculate_trust_score (fun _ => Some 5%Z) no_float plain_repr
       "text" (Some sample_doi) None w0
     = (Ok (0.85, details), after_lookup sample_doi w0))
  /\ spec_citation_bucket 5 = Some 0.75
  /\ ~ 0.85 == 0.75
  /\ (exists details,
        calculate_trust_score (fun _ => Some 0%Z) no_float plain_repr
          "text" (Some sample_doi) None w0
        = (Ok (0.80, details), after_lookup sample_doi w0))
  /\ spec_citation_bucket 0 = None.
Proof.
  repeat split.
  - eexists. reflexivity.
  - intro H. discriminate H.
  - eexists. reflexivity.
Qed.

Lemma citation_buckets_witness :
  exists t details,
    calculate_trust_score (fun _ => Some 60%Z) no_float plain_repr
      "text" (Some sample_doi) None w0
    = (Ok (t, details), after_lookup sample_doi w0)
    /\ t = 0.95.
Proof.
  destruct (calculate_trust_score_citation_buckets
              (fun _ => Some 60%Z) no_float plain_repr
              "text" sample_doi None w0 eq_refl) as [H _].
  destruct (H 60%Z eq_refl) as (t & details & E & H50 & _).
  exists t, details. split; [exact E | apply H50; lia].
Defined.

(** C4, the override is not ahead of the citation signal: a text the
    classifier labels [LAB_NOTE], carrying an identifier with 5
    citations, gets 0.85 from the text path and from the pipeline. *)
Lemma lab_note_override_counterexample :
  (exists c r w',
     _classify_document_type no_float plain_repr "lab notes" (Some lab_note_classifier)
       (Z.to_nat 12000) w0
     = (Ok ("LAB_NOTE"%string, c, r), w'))
  /\ (exists details,
        calculate_trust_score (fun _ => Some 5%Z) no_float plain_repr
          "lab notes" (Some sample_doi) (Some lab_note_classifier) w0
        = (Ok (0.85, details), after_lookup sample_doi w0))
  /\ (exists w',
        document_trust (fun _ => Some 5%Z) (fun _ => None) no_float plain_repr
          "lab notes" (Some sample_doi) "notes" lab_note_classifier w0
        = (Ok 0.85, w'))
  /\ ~ 0.85 == 1.0.
Proof.
  repeat split.
  - eexists; eexists; eexists. vm_compute. reflexivity.
  - eexists. vm_compute. reflexivity.
  - eexists. vm_compute. reflexivity.
  - intro H. discriminate H.
Qed.

Lemma lab_note_override_witness :
  get_trust_score (fun _ => Some retracted_work) "notes" "LAB_NOTE" w0 = (Ok 1.0, w0)
  /\ exists details w1,
       calculate_trust_score (fun _ => None) no_float plain_repr
         "lab notes" None (Some lab_note_classifier) w0
       = (Ok (1.0, details), w1).
Proof.
  destruct (lab_note_override (fun _ => None) (fun _ => Some retracted_work)
              no_float plain_repr "notes" "LAB_NOTE" "lab notes" sample_doi
              (Some lab_note_classifier) w0
              (mkWorld [ClassifierCall (DOC_TYPE_PROMPT "lab notes")] (graph_db w0))
              0.9 "" eq_refl eq_refl) as (H1 & (details & H2) & _).
  split; [exact H1 | exists details; eexists; exact H2].
Defined.

(** C2, at a failing input: the title lookup reports a retracted work
    cited 500 times; the title path answers 0.1, yet the trust the
    pipeline computes, and stores on the Document node, is the 0.5 of the
    text path. *)
Theorem retraction_not_forced_in_pipeline :
  (exists w', get_trust_score (fun _ => Some retracted_work) "paper" "OTHER" w0
              = (Ok 0.1, w'))
  /\ (exists w', document_trust (fun _ => None) (fun _ => Some retracted_work)
                   no_float plain_repr "some text" None "paper" other_classifier w0
                 = (Ok 0.5, w'))
  /\ nodes (db (graph_db (snd (process_document
                                 (fun _ => None) (fun _ => Some retracted_work)
                                 no_float plain_repr sample_prompts sample_format
                                 sample_vision other_classifier
                                 retracted_document w0))))
     = [mkNode Document "paper.pdf" (Some 0.5) (Some O)]
  /\ ~ 0.5 == 0.1.
Proof.
  split; [|split; [|split]].
  - eexists. vm_compute. reflexivity.
  - eexists. vm_compute. reflexivity.
  - vm_compute. reflexivity.
  - intro H. discriminate H.
Qed.

(** ** Knowledge extraction *)

Section ExtractionProperties.

Variable float_repr : Q -> string.
Variable prompts : list (string * string).
Variable str_format : string -> string -> result string.
Variable extraction_model : model.

Local Abbreviation extract :=
  (_extract_knowledge float_repr prompts str_format extraction_model).

(** C8: content shorter than 50 characters yields the empty list and
    leaves the world as it was, so the extraction model is not invoked. *)
Theorem extract_knowledge_short_circuit (content : string) (w : world) :
  (String.length content < 50)%nat ->
  extract content w = (Ok [], w).
Proof.
  intros H. unfold _extract_knowledge.
  pose proof (length_strip content) as Hs.
  destruct (Nat.ltb_spec (String.length (strip content)) 50); [reflexivity | lia].
Qed.

(** Past the short-circuit the model is invoked exactly once. *)
Lemma extract_knowledge_invokes (content prompt : string) (w : world) (template : string) :
  (50 <= String.length (strip content))%nat ->
  table_get "graph_extractor" prompts = Some template ->
  str_format template (take MAX_CONTENT_CHARS content) = Ok prompt ->
  exists ts, extract content w
             = (Ok ts, mkWorld (trace w ++ [ExtractionCall prompt]) (graph_db w)).
Proof.
  intros Hlen Hp Hf. unfold _extract_knowledge.
  destruct (Nat.ltb_spec (String.length (strip content)) 50); [lia|].
  unfold prompts_format, prompts_get. rewrite Hp. unfold_M. rewrite Hf. simpl.
  destruct (extraction_model prompt); eexists; reflexivity.
Qed.

Lemma role_falsy (a b c : string) (t : list (string * pyval)) :
  role_missing a b c t -> truthy (role a b c t) = false.
Proof.
  intros (Ha & Hb & Hc). unfold role, py_or. rewrite Ha, Hb. exact Hc.
Qed.

Lemma normalize_well_formed (l : list (list (string * pyval))) :
  (forall q, float_repr q <> ""%string) ->
  Forall well_formed_triple (normalize float_repr l).
Proof.
  intros Hf. induction l as [|t rest IH]; simpl; [constructor|].
  destruct (truthy (subject_of t)) eqn:Es; simpl; [|exact IH].
  destruct (truthy (predicate_of t)) eqn:Ep; simpl; [|exact IH].
  destruct (truthy (object_of t)) eqn:Eo; simpl; [|exact IH].
  constructor; [|exact IH].
  eexists; eexists; eexists. split; [reflexivity|].
  repeat split; apply py_str_truthy_nonempty; assumption.
Qed.

Lemma normalize_app (l1 l2 : list (list (string * pyval))) :
  normalize float_repr (l1 ++ l2) = normalize float_repr l1 ++ normalize float_repr l2.
Proof.
  induction l1 as [|t rest IH]; simpl; [reflexivity|].
  destruct (truthy (subject_of t) && truthy (predicate_of t) && truthy (object_of t));
    simpl; now rewrite IH.
Qed.

(** C10: every triple returned by the extraction is a dict with exactly
    the keys subject, predicate and object, each bound to a non-empty
    text; a candidate with a role for which no alias carries a truthy
    value adds nothing to the result. *)
Theorem extract_knowledge_triples :
  (forall q, float_repr q <> ""%string) ->
  (forall content w ts w',
      extract content w = (Ok ts, w') -> Forall well_formed_triple ts)
  /\ (forall pre t post,
         role_missing "subject" "s" "subj" t
         \/ role_missing "predicate" "p" "pred" t
         \/ role_missing "object" "o" "obj" t ->
         normalize float_repr (pre ++ t :: post) = normalize float_repr (pre ++ post)).
Proof.
  intros Hf. split.
  - intros content w ts w'. unfold _extract_knowledge.
    destruct (String.length (strip content) <? 50)%nat.
    + unfold ret. intros H. inversion H. constructor.
    + unfold bind at 1.
      destruct (prompts_format prompts str_format "graph_extractor"
                  (take MAX_CONTENT_CHARS content) w) as [[prompt|e] w1]; [|discriminate].
      unfold_M. simpl.
      destruct (extraction_model prompt) as [data|]; intros H; inversion H; subst.
      * now apply normalize_well_formed.
      * constructor.
  - intros pre t post H.
    rewrite !normalize_app. f_equal. simpl.
    assert (E : truthy (subject_of t) && truthy (predicate_of t) && truthy (object_of t)
                = false).
    { destruct H as [H|[H|H]]; apply role_falsy in H.
      - unfold subject_of. rewrite H. reflexivity.
      - unfold predicate_of. rewrite H. apply andb_false_iff. left.
        apply andb_false_r.
      - unfold object_of. rewrite H. apply andb_false_r. }
    rewrite E. reflexivity.
Qed.

End ExtractionProperties.

Lemma extract_knowledge_short_circuit_witness :
  _extract_knowledge plain_repr sample_prompts sample_format sample_extractor
    "TESTO: Fig. 1" w0 = (Ok [], w0).
Proof.
  apply (extract_knowledge_short_circuit plain_repr sample_prompts sample_format
           sample_extractor "TESTO: Fig. 1" w0).
  simpl. lia.
Defined.

(** On the sample answer the two complete candidates are returned and the
    two incomplete ones are dropped. *)
Example extract_knowledge_sample :
  fst (_extract_knowledge plain_repr sample_prompts sample_format sample_extractor
         long_content w0)
  = Ok [ [("subject"%string, "A"%string); ("predicate"%string, "causes"%string);
          ("object"%string, "B"%string)];
         [("subject"%string, "C"%string); ("predicate"%string, "7"%string);
          ("object"%string, "[1]"%string)] ].
Proof. vm_compute. reflexivity. Qed.

Lemma extract_knowledge_triples_witness :
  Forall well_formed_triple
    [ [("subject"%string, "A"%string); ("predicate"%string, "causes"%string);
       ("object"%string, "B"%string)];
      [("subject"%string, "C"%string); ("predicate"%string, "7"%string);
       ("object"%string, "[1]"%string)] ].
Proof.
  assert (Hf : forall q, plain_repr q <> ""%string) by (intros q; discriminate).
  destruct (extract_knowledge_triples plain_repr sample_prompts sample_format
              sample_extractor Hf) as [H _].
  apply (H long_content w0 _
           (mkWorld [ExtractionCall ("Extract the triples of: {text}" ++ long_content)%string]
                    (graph_db w0))).
  vm_compute. reflexivity.
Defined.

(** ** Page images *)

Section ImageProperties.

Variable prompts : list (string * string).
Variable vision_model : string -> image -> option string.

Lemma analyze_images_trace (instruction : string) (imgs : list image) :
  table_get "visual_analyst" prompts = Some instruction ->
  forall (i : nat) (ds : list string) (w : world),
  exists ds',
    analyze_images prompts vision_model imgs i ds w
    = (Ok ds', mkWorld (trace w ++ map (VisionCall instruction) imgs) (graph_db w)).
Proof.
  intros Hp. induction imgs as [|img rest IH]; intros i ds w; simpl.
  - exists ds. unfold ret. rewrite app_nil_r. destruct w; reflexivity.
  - unfold prompts_get. rewrite Hp. unfold_M. simpl.
    destruct (vision_model instruction img) as [c|];
      match goal with
      | |- context [analyze_images _ _ rest ?j ?d ?w'] =>
          destruct (IH j d w') as [ds' E]
      end;
      exists ds'; rewrite E; simpl; now rewrite <- app_assoc.
Qed.

Lemma extract_images_from_pdf_sizes (doc : list page) (min_w min_h : Z)
    (p i : nat) (img : image) :
  In (p, i, img) (extract_images_from_pdf doc (min_w, min_h)) ->
  (min_w <= width img)%Z /\ (min_h <= height img)%Z.
Proof.
  unfold extract_images_from_pdf. intros H.
  apply in_flat_map in H. destruct H as [pp [_ H]].
  apply in_flat_map in H. destruct H as [ip [_ H]].
  destruct (width (snd ip) <? min_w)%Z eqn:Ew; [destruct H|].
  destruct (height (snd ip) <? min_h)%Z eqn:Eh; [destruct H|].
  simpl in H. destruct H as [H|[]]. inversion H; subst.
  apply Z.ltb_ge in Ew. apply Z.ltb_ge in Eh. split; assumption.
Qed.

(** C5, as the code has it: the page assembly sends every embedded image
    of the page to the vision model, in page order and whatever its pixel
    size; the size threshold is applied by [extract_images_from_pdf]
    alone, which saves only images at least as wide and as high as the
    minimum. *)
Theorem analyze_page_images_sends_every_image
    (instruction : string) (pg : page) (w : world) :
  table_get "visual_analyst" prompts = Some instruction ->
  (exists text,
     _analyze_page_images prompts vision_model pg w
     = (Ok text,
        mkWorld (trace w ++ map (VisionCall instruction) (get_images pg)) (graph_db w)))
  /\ (forall doc min_w min_h p i img,
         In (p, i, img) (extract_images_from_pdf doc (min_w, min_h)) ->
         (min_w <= width img)%Z /\ (min_h <= height img)%Z).
Proof.
  intros Hp. split.
  - unfold _analyze_page_images.
    destruct (analyze_images_trace instruction (get_images pg) Hp 0 [] w) as [ds E].
    exists (join nl ds). unfold_M. rewrite E. reflexivity.
  - intros. eapply extract_images_from_pdf_sizes; eauto.
Qed.

End ImageProperties.

(** C5, the threshold is not applied during page assembly: a 10 by 10
    image is sent to the vision model and its description is part of the
    page content. *)
Lemma analyze_page_images_counterexample :
  (width tiny_image < fst default_min_size)%Z
  /\ (height tiny_image < snd default_min_size)%Z
  /\ _analyze_page_images sample_prompts sample_vision tiny_page w0
     = (Ok "[Figura 1]: a tiny icon"%string,
        mkWorld [VisionCall "Describe this figure." tiny_image] (graph_db w0))
  /\ extract_images_from_pdf [tiny_page] default_min_size = [].
Proof.
  repeat split.
Qed.

Lemma analyze_page_images_witness :
  exists text,
    _analyze_page_images sample_prompts sample_vision tiny_page w0
    = (Ok text, mkWorld [VisionCall "Describe this figure." tiny_image] (graph_db w0)).
Proof.
  destruct (analyze_page_images_sends_every_image sample_prompts sample_vision
              "Describe this figure." tiny_page w0 eq_refl) as [H _].
  exact H.
Defined.

(** ** Lists with positions *)

Lemma combine_seq_app {A} (l : list A) (x : A) (a : nat) :
  combine (seq a (length (l ++ [x]))) (l ++ [x])
  = combine (seq a (length l)) l ++ [((a + length l)%nat, x)].
Proof.
  revert a. induction l as [|y r IH]; intros a; simpl.
  - now rewrite Nat.add_0_r.
  - rewrite IH. now rewrite Nat.add_succ_r.
Qed.

Lemma indexed_app {A} (l : list A) (x : A) :
  indexed (l ++ [x]) = indexed l ++ [(length l, x)].
Proof. unfold indexed. now rewrite combine_seq_app. Qed.

Lemma In_combine_seq {A} (l : list A) (a i : nat) (x : A) :
  In (i, x) (combine (seq a (length l)) l)
  <-> (a <= i)%nat /\ nth_error l (i - a) = Some x.
Proof.
  revert a. induction l as [|y r IH]; intros a; simpl.
  - split; [tauto|]. intros [_ H]. destruct (i - a)%nat; discriminate.
  - rewrite IH. split.
    + intros [H|[H1 H2]].
      * inversion H; subst. rewrite Nat.sub_diag. split; [lia | reflexivity].
      * split; [lia|]. replace (i - a)%nat with (S (i - S a)) by lia. exact H2.
    + intros [H1 H2]. destruct (Nat.eq_dec a i) as [->|Hne].
      * left. rewrite Nat.sub_diag in H2. simpl in H2. congruence.
      * right. split; [lia|].
        replace (i - a)%nat with (S (i - S a)) in H2 by lia. exact H2.
Qed.

Lemma In_indexed {A} (l : list A) (i : nat) (x : A) :
  In (i, x) (indexed l) <-> nth_error l i = Some x.
Proof.
  unfold indexed. rewrite In_combine_seq. rewrite Nat.sub_0_r.
  split; [tauto | intros; split; [lia | assumption]].
Qed.

Lemma filter_indexed_ext {A} (P Q : nat * A -> bool) (l : list A) :
  (forall i x, nth_error l i = Some x -> P (i, x) = Q (i, x)) ->
  filter P (indexed l) = filter Q (indexed l).
Proof.
  intros H. apply filter_ext_in. intros [i x] Hin.
  apply H. now apply In_indexed.
Qed.

Lemma length_update_nth {A} (i : nat) (f : A -> A) (l : list A) :
  length (update_nth i f l) = length l.
Proof.
  revert i. induction l as [|x r IH]; intros [|i]; simpl; auto.
Qed.

Lemma nth_error_update_nth {A} (i j : nat) (f : A -> A) (l : list A) :
  nth_error (update_nth i f l) j
  = if (j =? i)%nat then option_map f (nth_error l j) else nth_error l j.
Proof.
  revert i j. induction l as [|x r IH]; intros [|i] [|j]; simpl; auto;
    repeat match goal with
           | |- context [if ?b then _ else _] => destruct b
           end; reflexivity.
Qed.

Lemma update_nth_app_last {A} (f : A -> A) (l : list A) (x : A) :
  update_nth (length l) f (l ++ [x]) = l ++ [f x].
Proof. induction l as [|y r IH]; simpl; [reflexivity | now rewrite IH]. Qed.

Lemma Forall_update_nth {A} (P : A -> Prop) (i : nat) (f : A -> A) (l : list A) :
  (forall x, P x -> P (f x)) -> Forall P l -> Forall P (update_nth i f l).
Proof.
  intros Hf. revert i. induction l as [|x r IH]; intros i H; destruct i; simpl;
    inversion H; subst; constructor; auto.
Qed.

Lemma filter_combine_update_nth {A} (P : A -> bool) (f : A -> A) (l : list A) (i a : nat) :
  (forall x, P (f x) = P x) ->
  map fst (filter (fun p => P (snd p)) (combine (seq a (length (update_nth i f l)))
                                                (update_nth i f l)))
  = map fst (filter (fun p => P (snd p)) (combine (seq a (length l)) l)).
Proof.
  intros Hf. revert i a. induction l as [|x r IH]; intros i a; destruct i; simpl.
  - reflexivity.
  - reflexivity.
  - rewrite Hf. destruct (P x); reflexivity.
  - destruct (P x); simpl; rewrite IH; reflexivity.
Qed.

(** ** The graph store *)

Lemma for_each_row_inv {R S} (step : R -> graph -> graph * list S)
    (I : graph -> Prop) (PR : R -> graph -> Prop) (PS : S -> graph -> Prop) :
  (forall r g, I g -> PR r g ->
               I (fst (step r g)) /\ Forall (fun s => PS s (fst (step r g))) (snd (step r g))) ->
  (forall r r' g, I g -> PR r g -> PR r' g -> PR r' (fst (step r g))) ->
  (forall r s g, I g -> PR r g -> PS s g -> PS s (fst (step r g))) ->
  forall rows g,
    I g -> Forall (fun r => PR r g) rows ->
    I (fst (for_each_row step rows g))
    /\ Forall (fun s => PS s (fst (for_each_row step rows g)))
              (snd (for_each_row step rows g)).
Proof.
  intros Hstep Hrows Houts rows.
  assert (Gen : forall g (acc : list S),
             I g -> Forall (fun r => PR r g) rows -> Forall (fun s => PS s g) acc ->
             I (fst (for_each_row step rows g))
             /\ Forall (fun s => PS s (fst (for_each_row step rows g)))
                       (acc ++ snd (for_each_row step rows g))).
  { induction rows as [|r rs IH]; intros g acc Hi Hr Ha; simpl.
    - rewrite app_nil_r. auto.
    - inversion Hr as [|? ? Hr1 Hr2]; subst.
      destruct (Hstep r g Hi Hr1) as [Hi1 Ho1].
      destruct (step r g) as [g1 out] eqn:Es. simpl in *.
      assert (Hrs : Forall (fun r' => PR r' g1) rs).
      { rewrite Forall_forall in *. intros r' Hin.
        specialize (Hrows r r' g Hi Hr1 (Hr2 r' Hin)). now rewrite Es in Hrows. }
      assert (Hacc : Forall (fun s => PS s g1) (acc ++ out)).
      { apply Forall_app. split; [|exact Ho1].
        rewrite Forall_forall in *. intros s Hin.
        specialize (Houts r s g Hi Hr1 (Ha s Hin)). now rewrite Es in Houts. }
      destruct (IH g1 (acc ++ out) Hi1 Hrs Hacc) as [Hi2 Ho2].
      destruct (for_each_row step rs g1) as [g2 outs]. simpl in *.
      split; [exact Hi2|]. now rewrite app_assoc. }
  intros g Hi Hr. apply (Gen g [] Hi Hr). constructor.
Qed.

Lemma for_each_row_preserves {R S} (step : R -> graph -> graph * list S)
    (I : graph -> Prop) :
  (forall r g, I g -> I (fst (step r g))) ->
  forall rows g, I g -> I (fst (for_each_row step rows g)).
Proof.
  intros H rows g Hi.
  apply (for_each_row_inv step I (fun _ _ => True) (fun _ _ => True)); auto.
  - intros r g0 Hi0 _. split; [auto|]. apply Forall_forall. auto.
  - apply Forall_forall. auto.
Qed.

Lemma fold_left_preserves {A} (I : graph -> Prop) (f : graph -> A -> graph) :
  (forall g a, I g -> I (f g a)) ->
  forall l g, I g -> I (fold_left f l g).
Proof.
  intros H l. induction l as [|a r IH]; intros g Hi; simpl; auto.
Qed.

Lemma upsert_triple_no_document (source subj pred obj : string) (g : graph) :
  match_nodes Document source g = [] ->
  upsert_triple source subj pred obj g = g.
Proof.
  intros H. unfold upsert_triple. rewrite H. reflexivity.
Qed.

Lemma has_key_table_get (k : string) (t : list (string * string)) :
  has_key k t = true -> exists v, table_get k t = Some v.
Proof.
  unfold has_key. induction t as [|[k' v] r IH]; simpl; [discriminate|].
  destruct (k' =? k)%string; simpl; eauto.
Qed.

(** One round of the loop of [_save_to_graph] never raises; it either
    leaves the world alone or runs the upsert statement. *)
Lemma save_to_graph_cons (triple : list (string * string))
    (rest : list (list (string * string))) (source : string) (w : world) :
  exists w1,
    _save_to_graph (triple :: rest) source w = _save_to_graph rest source w1
    /\ (w1 = w
        \/ exists subj pred obj,
             table_get "subject" triple = Some subj
             /\ table_get "predicate" triple = Some pred
             /\ table_get "object" triple = Some obj
             /\ driver_up (graph_db w) = true
             /\ w1 = mkWorld (trace w)
                       (mkConnector true
                          (upsert_triple source subj (normalize_predicate pred) obj
                             (db (graph_db w)))
                          (clock (graph_db w)))).
Proof.
  simpl. destruct (has_key "subject" triple) eqn:Hs; simpl;
    [|exists w; split; [reflexivity | now left]].
  destruct (has_key "predicate" triple) eqn:Hp; simpl;
    [|exists w; split; [reflexivity | now left]].
  destruct (has_key "object" triple) eqn:Ho; simpl;
    [|exists w; split; [reflexivity | now left]].
  destruct (has_key_table_get _ _ Hs) as [subj Es].
  destruct (has_key_table_get _ _ Hp) as [pred Ep].
  destruct (has_key_table_get _ _ Ho) as [obj Eo].
  unfold getitem. rewrite Es, Ep, Eo. unfold_M. unfold query. simpl.
  destruct (driver_up (graph_db w)) eqn:Hup.
  - eexists. split; [reflexivity|]. right. exists subj, pred, obj. auto.
  - exists w. split; [reflexivity | now left].
Qed.

(** C9: when no Document node bears the source name, the save step
    creates nothing, leaves the world (and so the graph) as it was, and
    returns normally. *)
Theorem save_to_graph_without_document
    (triples : list (list (string * string))) (source : string) (w : world) :
  match_nodes Document source (db (graph_db w)) = [] ->
  _save_to_graph triples source w = (Ok tt, w).
Proof.
  intros H. induction triples as [|triple rest IH]; [reflexivity|].
  destruct (save_to_graph_cons triple rest source w) as [w1 [E Hw1]].
  rewrite E. destruct Hw1 as [->|(subj & pred & obj & _ & _ & _ & Hup & ->)].
  - exact IH.
  - rewrite upsert_triple_no_document by exact H.
    rewrite <- Hup. destruct w as [tr [up g c]]. simpl in *. exact IH.
Qed.

(** ** Review commit *)

Lemma rel_sat_same_rels (P : relation -> Prop) (g g' : graph) (i : nat) :
  rels g' = rels g -> rel_sat P g i -> rel_sat P g' i.
Proof. unfold rel_sat. intros ->. auto. Qed.

Lemma rel_sat_add_relation (P : relation -> Prop) (g : graph) (r : relation) (i : nat) :
  rel_sat P g i -> rel_sat P (add_relation r g) i.
Proof.
  intros [x [Hx Hp]]. exists x. split; [|exact Hp]. simpl.
  rewrite nth_error_app1; [exact Hx|]. apply nth_error_Some. congruence.
Qed.

Lemma rel_sat_set_relation (P : relation -> Prop) (g : graph) (f : relation -> relation)
    (i j : nat) :
  (forall r, P r -> P (f r)) ->
  rel_sat P g i -> rel_sat P (set_relation j f g) i.
Proof.
  intros Hf [x [Hx Hp]]. unfold rel_sat. simpl. rewrite nth_error_update_nth.
  destruct (i =? j)%nat; rewrite Hx; simpl; eauto.
Qed.

Lemma rel_sat_merge_node (P : relation -> Prop) (lbl : label) (nm : string)
    (g : graph) (i : nat) :
  rel_sat P g i -> rel_sat P (fst (merge_node lbl nm g)) i.
Proof.
  intros H. unfold merge_node. destruct (match_nodes lbl nm g); simpl; auto.
Qed.

Lemma rel_sat_merge_relation (P : relation -> Prop) (ty : string)
    (row : nat * nat * nat) (g : graph) (i : nat) :
  (forall doc g r, P r -> P (on_match_set doc g r)) ->
  rel_sat P g i -> rel_sat P (fst (merge_relation ty row g)) i.
Proof.
  intros Hf H. destruct row as [[doc s] o]. unfold merge_relation.
  destruct (match_relations s o ty g) as [|j js] eqn:E.
  - simpl. now apply rel_sat_add_relation.
  - remember (j :: js) as ids eqn:Hids. clear Hids E. simpl.
    apply (fold_left_preserves (fun g' => rel_sat P g' i)); [|exact H].
    intros g' a Hg'. apply rel_sat_set_relation; auto.
Qed.

Lemma rel_sat_upsert_triple (P : relation -> Prop) (source subj pred obj : string)
    (g : graph) (i : nat) :
  (forall doc g r, P r -> P (on_match_set doc g r)) ->
  rel_sat P g i -> rel_sat P (upsert_triple source subj pred obj g) i.
Proof.
  intros Hf H. unfold upsert_triple.
  match goal with
  | |- context [for_each_row ?st ?rows g] =>
      pose proof (for_each_row_preserves st (fun g' => rel_sat P g' i)) as H1;
      specialize (H1 (fun r g0 Hg0 =>
                        ltac:(simpl; pose proof (rel_sat_merge_node P Concept subj g0 i Hg0);
                              destruct (merge_node Concept subj g0); assumption)) rows g H);
      destruct (for_each_row st rows g) as [g1 rows1]
  end.
  simpl in H1.
  match goal with
  | |- context [for_each_row ?st ?rows g1] =>
      pose proof (for_each_row_preserves st (fun g' => rel_sat P g' i)) as H2;
      specialize (H2 (fun r g0 Hg0 =>
                        ltac:(simpl; pose proof (rel_sat_merge_node P Concept obj g0 i Hg0);
                              destruct (merge_node Concept obj g0); assumption)) rows g1 H1);
      destruct (for_each_row st rows g1) as [g2 rows2]
  end.
  simpl in H2.
  apply (for_each_row_preserves (merge_relation pred) (fun g' => rel_sat P g' i)); [|exact H2].
  intros r g0 Hg0. now apply rel_sat_merge_relation.
Qed.

Lemma rels_merge_document (nm : string) (trust : Q) (now : nat) (g : graph) :
  rels (merge_document nm trust now g) = rels g.
Proof.
  unfold merge_document.
  destruct (merge_node Document nm g) as [g1 ds] eqn:E.
  assert (H1 : rels g1 = rels g).
  { unfold merge_node in E. destruct (match_nodes Document nm g); inversion E; reflexivity. }
  rewrite <- H1.
  apply (fold_left_preserves (fun g' => rels g' = rels g1)); [|reflexivity].
  intros g' a Hg'. exact Hg'.
Qed.

Lemma rel_sat_commit_set (P : relation -> Prop) (row : commit_row) (now : nat)
    (r : relation) (g : graph) (i : nat) :
  (forall x, P x -> P (mkRelation (start_node x) (end_node x) (upper (predicate row))
                                  (weight x) (sources x) (Some VALIDATED) (Some now))) ->
  rel_sat P g i -> rel_sat P (commit_set row now r g) i.
Proof.
  intros Hf H. unfold commit_set.
  eapply rel_sat_same_rels; [reflexivity|].
  apply rel_sat_set_relation; [exact Hf|].
  eapply rel_sat_same_rels; [reflexivity | exact H].
Qed.

Lemma rel_sat_commit_rows (P : relation -> Prop) (rows : list commit_row) (now : nat)
    (g : graph) (i : nat) :
  (forall row x, P x -> P (mkRelation (start_node x) (end_node x) (upper (predicate row))
                                      (weight x) (sources x) (Some VALIDATED) (Some now))) ->
  rel_sat P g i -> rel_sat P (fst (commit_rows rows now g)) i.
Proof.
  intros Hf. revert g. induction rows as [|row rest IH]; intros g H; simpl; [exact H|].
  destruct (nth_error (rels g) (rel_id row)) as [r|]; [|now apply IH].
  specialize (IH (commit_set row now r g) (rel_sat_commit_set P row now r g i (Hf row) H)).
  destruct (commit_rows rest now (commit_set row now r g)). exact IH.
Qed.

Lemma length_rels_commit_set (row : commit_row) (now : nat) (r : relation) (g : graph) :
  length (rels (commit_set row now r g)) = length (rels g).
Proof. unfold commit_set. simpl. apply length_update_nth. Qed.

Lemma commit_rows_stamps (rows : list commit_row) (row : commit_row) (now : nat) (g : graph) :
  In row rows ->
  (rel_id row < length (rels g))%nat ->
  stamped now (fst (commit_rows rows now g)) (rel_id row).
Proof.
  revert g. induction rows as [|row0 rest IH]; intros g Hin Hlt; [destruct Hin|].
  simpl. destruct (nth_error (rels g) (rel_id row0)) as [r|] eqn:E.
  - assert (Hst : stamped now (fst (commit_rows rest now (commit_set row0 now r g)))
                             (rel_id row)).
    { destruct Hin as [->|Hin].
      - apply rel_sat_commit_rows; [intros; simpl; auto|].
        unfold rel_sat, commit_set. simpl. rewrite nth_error_update_nth.
        rewrite Nat.eqb_refl, E. simpl. eexists. split; [reflexivity|]. simpl. auto.
      - apply IH; [exact Hin|]. now rewrite length_rels_commit_set. }
    destruct (commit_rows rest now (commit_set row0 now r g)). exact Hst.
  - destruct Hin as [->|Hin].
    + apply nth_error_None in E. lia.
    + now apply IH.
Qed.

Lemma stamped_validated (now : nat) (g : graph) (i : nat) :
  stamped now g i -> validated g i.
Proof. intros [r [H1 [H2 _]]]. exists r. auto. Qed.

(** No statement the application sends takes an edge out of VALIDATED. *)
Lemma run_keeps_validated (q : statement) (now : nat) (g : graph) (i : nat) :
  validated g i -> validated (fst (run q now g)) i.
Proof.
  intros H. destruct q as [nm trust|source subj pred obj|rows|limit]; simpl.
  - eapply rel_sat_same_rels; [apply rels_merge_document | exact H].
  - apply rel_sat_upsert_triple; [|exact H]. intros doc g0 r Hr. exact Hr.
  - pose proof (rel_sat_commit_rows (fun r => status r = Some VALIDATED) rows now g i
                  (fun _ _ _ => eq_refl) H) as Hc.
    destruct (commit_rows rows now g). exact Hc.
  - exact H.
Qed.

Lemma query_keeps_validated (q : statement) (w w' : world) (res : result records) (i : nat) :
  query q w = (res, w') ->
  validated (db (graph_db w)) i -> validated (db (graph_db w')) i.
Proof.
  unfold query. intros E H. destruct (driver_up (graph_db w)).
  - pose proof (run_keeps_validated q (clock (graph_db w)) (db (graph_db w)) i H) as Hr.
    destruct (run q (clock (graph_db w)) (db (graph_db w))) as [g' rs].
    inversion E; subst. exact Hr.
  - inversion E; subst. exact H.
Qed.

Lemma commit_triples_run (rows : list commit_row) (row : commit_row) (w : world) :
  driver_up (graph_db w) = true ->
  In row rows ->
  exists n,
    commit_triples rows w
    = (Ok n, mkWorld (trace w)
               (mkConnector true
                  (fst (commit_rows rows (clock (graph_db w)) (db (graph_db w))))
                  (clock (graph_db w)))).
Proof.
  intros Hup Hin. unfold commit_triples.
  destruct rows as [|r0 rest]; [destruct Hin|].
  unfold_M. unfold query. rewrite Hup. unfold run.
  destruct (commit_rows (r0 :: rest) (clock (graph_db w)) (db (graph_db w))) as [g' n].
  exists n. reflexivity.
Qed.

(** C7: committing rows that name an existing edge returns normally and
    leaves that edge VALIDATED with [validated_at] set to the time of the
    commit; committing the same rows again returns normally and the edge
    is still VALIDATED; and no statement sent to the store takes an edge
    out of VALIDATED. *)
Theorem commit_triples_validates (rows : list commit_row) (row : commit_row) (w : world) :
  driver_up (graph_db w) = true ->
  In row rows ->
  (rel_id row < length (rels (db (graph_db w))))%nat ->
  exists n w1,
    commit_triples rows w = (Ok n, w1)
    /\ stamped (clock (graph_db w)) (db (graph_db w1)) (rel_id row)
    /\ (exists n2 w2,
           commit_triples rows w1 = (Ok n2, w2)
           /\ validated (db (graph_db w2)) (rel_id row))
    /\ (forall q i wa wb res,
           validated (db (graph_db wa)) i ->
           query q wa = (res, wb) ->
           validated (db (graph_db wb)) i).
Proof.
  intros Hup Hin Hlt.
  destruct (commit_triples_run rows row w Hup Hin) as [n E].
  eexists n, _. split; [exact E|].
  pose proof (commit_rows_stamps rows row (clock (graph_db w)) (db (graph_db w)) Hin Hlt)
    as Hst.
  split; [exact Hst|]. split.
  - match goal with
    | |- context [commit_triples rows ?w1] =>
        destruct (commit_triples_run rows row w1 eq_refl Hin) as [n2 E2]
    end.
    eexists n2, _. split; [exact E2|]. simpl.
    apply rel_sat_commit_rows; [intros; reflexivity|].
    eapply stamped_validated. exact Hst.
  - intros q i wa wb res Hv Hq. eapply query_keeps_validated; eauto.
Qed.

(** ** Edge weights stay in the unit interval *)

Lemma in_unit_avg (x t : Q) : in_unit x -> in_unit t -> in_unit ((x + t) / 2).
Proof.
  unfold in_unit. intros [H1 H2] [H3 H4]. split.
  - apply Qle_shift_div_l; lra.
  - apply Qle_shift_div_r; lra.
Qed.

Lemma In_match_nodes (lbl : label) (nm : string) (g : graph) (i : nat) :
  In i (match_nodes lbl nm g) <-> is_named lbl nm g i = true.
Proof.
  unfold match_nodes, is_named. rewrite in_map_iff. split.
  - intros [[j n] [E H]]. simpl in E. subst j.
    apply filter_In in H. destruct H as [H1 H2].
    apply In_indexed in H1. rewrite H1. exact H2.
  - destruct (nth_error (nodes g) i) as [n|] eqn:E; [|discriminate].
    intros H. exists (i, n). split; [reflexivity|].
    apply filter_In. split; [now apply In_indexed | exact H].
Qed.

Lemma is_named_doc_row (nm : string) (g : graph) (d : nat) :
  is_named Document nm g d = true -> doc_row d g.
Proof.
  unfold is_named, doc_row. destruct (nth_error (nodes g) d) as [n|]; [|discriminate].
  intros H. apply andb_true_iff in H. destruct H as [H _].
  exists n. split; [reflexivity|]. destruct (node_label n); [reflexivity | discriminate].
Qed.

Lemma doc_row_same_nodes (d : nat) (g g' : graph) :
  nodes g' = nodes g -> doc_row d g -> doc_row d g'.
Proof. unfold doc_row. intros ->. auto. Qed.

Lemma doc_row_add_node (d : nat) (n : node) (g : graph) :
  doc_row d g -> doc_row d (add_node n g).
Proof.
  intros [x [Hx Hl]]. exists x. split; [|exact Hl]. simpl.
  rewrite nth_error_app1; [exact Hx|]. apply nth_error_Some. congruence.
Qed.

Lemma doc_row_merge_node (d : nat) (lbl : label) (nm : string) (g : graph) :
  doc_row d g -> doc_row d (fst (merge_node lbl nm g)).
Proof.
  intros H. unfold merge_node. destruct (match_nodes lbl nm g); simpl; auto.
  now apply doc_row_add_node.
Qed.

Lemma doc_row_trust (d : nat) (g : graph) :
  unit_graph g -> doc_row d g -> exists t, doc_trust d g = Some t /\ in_unit t.
Proof.
  intros [Hn _] [n [E Hl]]. unfold doc_trust. rewrite E.
  rewrite Forall_forall in Hn. apply Hn; [|exact Hl].
  eapply nth_error_In; eauto.
Qed.

Lemma unit_graph_merge_concept (nm : string) (g : graph) :
  unit_graph g -> unit_graph (fst (merge_node Concept nm g)).
Proof.
  intros [Hn Hr]. unfold merge_node. destruct (match_nodes Concept nm g); simpl.
  - split; [|exact Hr]. simpl. apply Forall_app. split; [exact Hn|].
    constructor; [|constructor]. simpl. discriminate.
  - split; assumption.
Qed.

Lemma nodes_merge_relation (ty : string) (row : nat * nat * nat) (g : graph) :
  nodes (fst (merge_relation ty row g)) = nodes g.
Proof.
  destruct row as [[doc s] o]. unfold merge_relation.
  destruct (match_relations s o ty g) as [|j js]; [reflexivity|].
  remember (j :: js) as ids eqn:Hids. clear Hids. simpl.
  apply (fold_left_preserves (fun g' => nodes g' = nodes g)); [|reflexivity].
  intros g' a Hg'. exact Hg'.
Qed.

Lemma unit_graph_merge_relation (ty : string) (doc s o : nat) (g : graph) :
  unit_graph g -> doc_row doc g ->
  unit_graph (fst (merge_relation ty (doc, s, o) g)).
Proof.
  intros Hu Hd. unfold merge_relation.
  destruct (match_relations s o ty g) as [|j js].
  - simpl. destruct (doc_row_trust doc g Hu Hd) as [t [Et Ht]].
    destruct Hu as [Hn Hr]. split; [exact Hn|]. simpl.
    apply Forall_app. split; [exact Hr|]. constructor; [|constructor].
    simpl. exists t. auto.
  - remember (j :: js) as ids eqn:Hids. clear Hids. simpl.
    apply (fold_left_preserves (fun g' => unit_graph g' /\ doc_row doc g'));
      [|split; assumption].
    intros g' a [Hu' Hd']. split; [|exact Hd'].
    destruct (doc_row_trust doc g' Hu' Hd') as [t [Et Ht]].
    destruct Hu' as [Hn Hr]. split; [exact Hn|]. simpl.
    apply Forall_update_nth; [|exact Hr].
    intros r [x [Ex Hx]]. simpl. rewrite Ex, Et. simpl.
    eexists. split; [reflexivity|]. now apply in_unit_avg.
Qed.

Lemma unit_graph_upsert_triple (source subj pred obj : string) (g : graph) :
  unit_graph g -> unit_graph (upsert_triple source subj pred obj g).
Proof.
  intros Hu. unfold upsert_triple.
  assert (Hdocs : Forall (fun d => doc_row d g) (match_nodes Document source g)).
  { apply Forall_forall. intros d Hd. apply In_match_nodes in Hd.
    eapply is_named_doc_row; eauto. }
  match goal with
  | |- context [for_each_row ?st ?rows g] =>
      pose proof (for_each_row_inv st unit_graph (fun d g' => doc_row d g')
                    (fun (p : nat * nat) g' => doc_row (fst p) g')) as H1;
      destruct (for_each_row st rows g) as [g1 rows1] eqn:E1
  end.
  simpl in H1. destruct (H1) with (rows := match_nodes Document source g) (g := g)
    as [Hu1 Hrows1]; auto.
  { intros d g0 Hg0 Hd0.
    pose proof (unit_graph_merge_concept subj g0 Hg0) as Hm.
    pose proof (doc_row_merge_node d Concept subj g0 Hd0) as Hm'.
    destruct (merge_node Concept subj g0) as [g' ss]. simpl in *.
    split; [exact Hm|]. apply Forall_forall. intros p Hp.
    apply in_map_iff in Hp. destruct Hp as [x [<- _]]. exact Hm'. }
  { intros d d' g0 Hg0 _ Hd'.
    pose proof (doc_row_merge_node d' Concept subj g0 Hd') as Hm'.
    destruct (merge_node Concept subj g0). exact Hm'. }
  { intros d p g0 Hg0 _ Hp.
    pose proof (doc_row_merge_node (fst p) Concept subj g0 Hp) as Hm'.
    destruct (merge_node Concept subj g0). exact Hm'. }
  rewrite E1 in Hu1, Hrows1. simpl in Hu1, Hrows1. clear H1.
  match goal with
  | |- context [for_each_row ?st ?rows g1] =>
      pose proof (for_each_row_inv st unit_graph
                    (fun (p : nat * nat) g' => doc_row (fst p) g')
                    (fun (p : nat * nat * nat) g' => doc_row (fst (fst p)) g')) as H2;
      destruct (for_each_row st rows g1) as [g2 rows2] eqn:E2
  end.
  simpl in H2. destruct (H2) with (rows := rows1) (g := g1) as [Hu2 Hrows2]; auto.
  { intros p g0 Hg0 Hd0.
    pose proof (unit_graph_merge_concept obj g0 Hg0) as Hm.
    pose proof (doc_row_merge_node (fst p) Concept obj g0 Hd0) as Hm'.
    destruct (merge_node Concept obj g0) as [g' ss]. simpl in *.
    split; [exact Hm|]. apply Forall_forall. intros q Hq.
    apply in_map_iff in Hq. destruct Hq as [x [<- _]]. exact Hm'. }
  { intros p p' g0 Hg0 _ Hd'.
    pose proof (doc_row_merge_node (fst p') Concept obj g0 Hd') as Hm'.
    destruct (merge_node Concept obj g0). exact Hm'. }
  { intros p q g0 Hg0 _ Hq.
    pose proof (doc_row_merge_node (fst (fst q)) Concept obj g0 Hq) as Hm'.
    destruct (merge_node Concept obj g0). exact Hm'. }
  rewrite E2 in Hu2, Hrows2. simpl in Hu2, Hrows2. clear H2.
  apply (for_each_row_inv (merge_relation pred) unit_graph
           (fun (p : nat * nat * nat) g' => doc_row (fst (fst p)) g')
           (fun (_ : nat) _ => True)); auto.
  - intros [[d s] o] g0 Hg0 Hd0. split.
    + now apply unit_graph_merge_relation.
    + apply Forall_forall. auto.
  - intros p p' g0 _ _ Hd'.
    eapply doc_row_same_nodes; [apply nodes_merge_relation | exact Hd'].
Qed.

Lemma unit_graph_merge_document (nm : string) (trust : Q) (now : nat) (g : graph) :
  in_unit trust -> unit_graph g -> unit_graph (merge_document nm trust now g).
Proof.
  intros Ht [Hn Hr]. unfold merge_document, merge_node.
  destruct (match_nodes Document nm g) as [|j js].
  - simpl. unfold set_node, add_node. simpl. rewrite update_nth_app_last.
    split; [|exact Hr]. simpl. apply Forall_app. split; [exact Hn|].
    constructor; [|constructor]. simpl. intros _. exists trust. auto.
  - apply (fold_left_preserves unit_graph); [|split; assumption].
    intros g' a [Hn' Hr']. split; [|exact Hr']. simpl.
    apply Forall_update_nth; [|exact Hn'].
    intros n _. simpl. intros _. exists trust. auto.
Qed.

Lemma unit_graph_commit_rows (rows : list commit_row) (now : nat) (g : graph) :
  unit_graph g -> unit_graph (fst (commit_rows rows now g)).
Proof.
  revert g. induction rows as [|row rest IH]; intros g Hu; simpl; [exact Hu|].
  destruct (nth_error (rels g) (rel_id row)) as [r|]; [|now apply IH].
  assert (Hc : unit_graph (commit_set row now r g)).
  { destruct Hu as [Hn Hr]. unfold commit_set. split; simpl.
    - apply Forall_update_nth; [auto|]. apply Forall_update_nth; auto.
    - apply Forall_update_nth; auto. }
  specialize (IH _ Hc). destruct (commit_rows rest now (commit_set row now r g)). exact IH.
Qed.

Lemma unit_graph_run (q : statement) (now : nat) (g : graph) :
  match q with MergeDocument _ trust => in_unit trust | _ => True end ->
  unit_graph g -> unit_graph (fst (run q now g)).
Proof.
  intros Hq Hu. destruct q as [nm trust|source subj pred obj|rows|limit]; simpl.
  - now apply unit_graph_merge_document.
  - now apply unit_graph_upsert_triple.
  - pose proof (unit_graph_commit_rows rows now g Hu) as Hc.
    destruct (commit_rows rows now g). exact Hc.
  - exact Hu.
Qed.

Lemma unit_graph_query (q : statement) (w : world) :
  match q with MergeDocument _ trust => in_unit trust | _ => True end ->
  unit_graph (db (graph_db w)) -> unit_graph (db (graph_db (snd (query q w)))).
Proof.
  intros Hq Hu. unfold query. destruct (driver_up (graph_db w)); [|exact Hu].
  pose proof (unit_graph_run q (clock (graph_db w)) (db (graph_db w)) Hq Hu) as Hr.
  destruct (run q (clock (graph_db w)) (db (graph_db w))). exact Hr.
Qed.

Lemma unit_graph_save_to_graph (triples : list (list (string * string)))
    (source : string) (w : world) :
  unit_graph (db (graph_db w)) ->
  unit_graph (db (graph_db (snd (_save_to_graph triples source w)))).
Proof.
  revert w. induction triples as [|triple rest IH]; intros w Hu; [exact Hu|].
  destruct (save_to_graph_cons triple rest source w) as [w1 [E Hw1]].
  rewrite E. apply IH.
  destruct Hw1 as [->|(subj & pred & obj & _ & _ & _ & _ & ->)]; [exact Hu|].
  simpl. now apply unit_graph_upsert_triple.
Qed.

Lemma unit_graph_perform (o : operation) (w : world) :
  trust_in_unit o -> unit_graph (db (graph_db w)) ->
  unit_graph (db (graph_db (perform w o))).
Proof.
  intros Ho Hu. destruct o as [filename trust|triples source|rows|up now]; simpl.
  - unfold _create_document_node. unfold_M.
    pose proof (unit_graph_query (MergeDocument filename trust) w Ho Hu) as Hq.
    destruct (query (MergeDocument filename trust) w) as [[rs|e] w']; exact Hq.
  - now apply unit_graph_save_to_graph.
  - unfold commit_triples. destruct rows as [|r0 rest]; [exact Hu|].
    unfold_M.
    pose proof (unit_graph_query (CommitRows (r0 :: rest)) w I Hu) as Hq.
    destruct (query (CommitRows (r0 :: rest)) w) as [[rs|e] w']; [|exact Hq].
    destruct rs; exact Hq.
  - exact Hu.
Qed.

(** C6: starting from the empty graph, after any sequence of document
    creations with trust in [0,1], graph saves, review commits and
    changes of connectivity, every stored edge has a weight, and that
    weight lies in [0,1]. *)
Theorem edge_weights_stay_in_unit (ops : list operation) (w : world) :
  db (graph_db w) = empty_graph ->
  Forall trust_in_unit ops ->
  Forall (fun r => exists x, weight r = Some x /\ in_unit x)
         (rels (db (graph_db (fold_left perform ops w)))).
Proof.
  intros He Hops.
  assert (Hu : unit_graph (db (graph_db w))).
  { rewrite He. split; constructor. }
  clear He. revert w Hu. induction Hops as [|o rest Ho Hrest IH]; intros w Hu; simpl.
  - apply Hu.
  - apply IH. now apply unit_graph_perform.
Qed.

(** ** Upsert of one triple *)

Lemma match_nodes_add_node (lbl : label) (nm : string) (n : node) (g : graph) :
  match_nodes lbl nm (add_node n g)
  = match_nodes lbl nm g
    ++ (if label_eqb (node_label n) lbl && (name n =? nm)%string
        then [length (nodes g)] else []).
Proof.
  unfold match_nodes, add_node. simpl. rewrite indexed_app, filter_app, map_app.
  f_equal. simpl. destruct (label_eqb (node_label n) lbl && (name n =? nm)%string);
    reflexivity.
Qed.

Lemma is_named_add_node (lbl : label) (nm : string) (n : node) (g : graph) (i : nat) :
  (i < length (nodes g))%nat ->
  is_named lbl nm (add_node n g) i = is_named lbl nm g i.
Proof.
  intros H. unfold is_named, add_node. simpl. now rewrite nth_error_app1.
Qed.

Lemma edge_ids_add_node (subj ty obj : string) (n : node) (g : graph) :
  endpoints_exist g ->
  edge_ids subj ty obj (add_node n g) = edge_ids subj ty obj g.
Proof.
  intros Hwf. unfold edge_ids. f_equal. simpl rels.
  apply filter_indexed_ext. intros i r Hr. simpl.
  unfold endpoints_exist in Hwf. rewrite Forall_forall in Hwf.
  destruct (Hwf r (nth_error_In _ _ Hr)) as [H1 H2].
  now rewrite !is_named_add_node.
Qed.

Lemma endpoints_exist_add_node (n : node) (g : graph) :
  endpoints_exist g -> endpoints_exist (add_node n g).
Proof.
  unfold endpoints_exist. simpl. intros H. eapply Forall_impl; [|exact H].
  intros r [H1 H2]. rewrite length_app. simpl. lia.
Qed.

Lemma label_eqb_refl (l : label) : label_eqb l l = true.
Proof. destruct l; reflexivity. Qed.

(** What [MERGE] of a Concept does when at most one Concept bears the
    name: it binds exactly one node, the only one bearing that name
    afterwards, and leaves the rest of the graph as it was. *)
Lemma merge_concept_single (nm : string) (g : graph) :
  endpoints_exist g ->
  (length (match_nodes Concept nm g) <= 1)%nat ->
  exists s g1,
    merge_node Concept nm g = (g1, [s])
    /\ match_nodes Concept nm g1 = [s]
    /\ endpoints_exist g1
    /\ rels g1 = rels g
    /\ (forall a t b, edge_ids a t b g1 = edge_ids a t b g)
    /\ (forall nm', nm' <> nm -> match_nodes Concept nm' g1 = match_nodes Concept nm' g)
    /\ (forall nm', match_nodes Document nm' g1 = match_nodes Document nm' g)
    /\ (forall d, (d < length (nodes g))%nat ->
                  nth_error (nodes g1) d = nth_error (nodes g) d).
Proof.
  intros Hwf Hlen. unfold merge_node.
  destruct (match_nodes Concept nm g) as [|s [|s' rest]] eqn:E.
  - exists (length (nodes g)), (add_node (mkNode Concept nm None None) g).
    split; [reflexivity|]. split.
    { rewrite match_nodes_add_node, E. simpl. now rewrite String.eqb_refl. }
    split; [now apply endpoints_exist_add_node|].
    split; [reflexivity|].
    split; [intros; now apply edge_ids_add_node|].
    split.
    { intros nm' Hne. rewrite match_nodes_add_node. simpl.
      destruct (String.eqb_spec nm nm') as [->|_]; [congruence|]. apply app_nil_r. }
    split.
    { intros nm'. rewrite match_nodes_add_node. simpl. apply app_nil_r. }
    intros d Hd. simpl. now rewrite nth_error_app1.
  - exists s, g. repeat split; auto.
  - simpl in Hlen. lia.
Qed.

Lemma match_nodes_single_is_named (lbl : label) (nm : string) (g : graph) (s i : nat) :
  match_nodes lbl nm g = [s] ->
  is_named lbl nm g i = (i =? s)%nat.
Proof.
  intros H. destruct (is_named lbl nm g i) eqn:E.
  - apply In_match_nodes in E. rewrite H in E. destruct E as [->|[]].
    now rewrite Nat.eqb_refl.
  - destruct (Nat.eqb_spec i s) as [->|_]; [|reflexivity].
    assert (Hin : In s (match_nodes lbl nm g)) by (rewrite H; now left).
    apply In_match_nodes in Hin. congruence.
Qed.

Lemma match_relations_edge_ids (subj ty obj : string) (g : graph) (s o : nat) :
  match_nodes Concept subj g = [s] ->
  match_nodes Concept obj g = [o] ->
  match_relations s o ty g = edge_ids subj ty obj g.
Proof.
  intros Hs Ho. unfold match_relations, edge_ids. f_equal.
  apply filter_indexed_ext. intros i r _. simpl.
  rewrite (match_nodes_single_is_named Concept subj g s _ Hs).
  rewrite (match_nodes_single_is_named Concept obj g o _ Ho).
  reflexivity.
Qed.

Lemma edge_ids_set_relation (subj ty obj : string) (g : graph) (i : nat)
    (f : relation -> relation) :
  (forall r, start_node (f r) = start_node r /\ end_node (f r) = end_node r
             /\ rtype (f r) = rtype r) ->
  edge_ids subj ty obj (set_relation i f g) = edge_ids subj ty obj g.
Proof.
  intros Hf. unfold edge_ids, set_relation, indexed. simpl rels.
  apply (filter_combine_update_nth
           (fun r => is_named Concept subj g (start_node r)
                     && is_named Concept obj g (end_node r)
                     && (rtype r =? ty)%string) f (rels g) i 0).
  intros r. destruct (Hf r) as (-> & -> & ->). reflexivity.
Qed.

(** The two cases of the relationship [MERGE] once the end points are
    bound to the only Concepts bearing their names. *)
Lemma merge_relation_key (subj ty obj : string) (g : graph) (d s o : nat) :
  match_nodes Concept subj g = [s] ->
  match_nodes Concept obj g = [o] ->
  let g' := fst (merge_relation ty (d, s, o) g) in
  (edge_ids subj ty obj g = [] ->
   exists i r,
     edge_ids subj ty obj g' = [i] /\ nth_error (rels g') i = Some r
     /\ weight r = doc_trust d g /\ sources r = Some [node_name d g]
     /\ status r = None)
  /\ (forall i r,
         edge_ids subj ty obj g = [i] -> nth_error (rels g) i = Some r ->
         exists r',
           edge_ids subj ty obj g' = [i] /\ nth_error (rels g') i = Some r'
           /\ weight r' = null_avg (weight r) (doc_trust d g)
           /\ sources r' = null_append (sources r) (node_name d g)
           /\ status r' = status r).
Proof.
  intros Hs Ho g'. subst g'. unfold merge_relation.
  rewrite (match_relations_edge_ids subj ty obj g s o Hs Ho).
  split.
  - intros E. rewrite E. simpl.
    exists (length (rels g)). eexists. split; [|split].
    + unfold edge_ids. simpl rels. rewrite indexed_app, filter_app, map_app.
      fold (edge_ids subj ty obj g) in *. simpl. unfold add_relation.
      assert (Hsn : is_named Concept subj
                      (mkGraph (nodes g) (rels g ++ [mkRelation s o ty (doc_trust d g)
                                                        (Some [node_name d g]) None None])) s
                    = true).
      { change (is_named Concept subj g s = true).
        apply In_match_nodes. rewrite Hs. now left. }
      assert (Hon : is_named Concept obj
                      (mkGraph (nodes g) (rels g ++ [mkRelation s o ty (doc_trust d g)
                                                        (Some [node_name d g]) None None])) o
                    = true).
      { change (is_named Concept obj g o = true).
        apply In_match_nodes. rewrite Ho. now left. }
      rewrite Hsn, Hon, String.eqb_refl. simpl.
      change (edge_ids subj ty obj g ++ [length (rels g)] = [length (rels g)]).
      now rewrite E.
    + simpl. rewrite nth_error_app2 by lia. rewrite Nat.sub_diag. reflexivity.
    + simpl. auto.
  - intros i r E Hr. rewrite E. simpl.
    exists (on_match_set d g r). split; [|split].
    + rewrite edge_ids_set_relation; [exact E|]. intros x. simpl. auto.
    + simpl. rewrite nth_error_update_nth, Nat.eqb_refl, Hr. reflexivity.
    + simpl. auto.
Qed.

Lemma is_named_nth (lbl : label) (nm : string) (g : graph) (i : nat) :
  is_named lbl nm g i = true ->
  exists n, nth_error (nodes g) i = Some n /\ node_label n = lbl /\ name n = nm.
Proof.
  unfold is_named. destruct (nth_error (nodes g) i) as [n|]; [|discriminate].
  intros H. apply andb_true_iff in H. destruct H as [Hl Hn].
  exists n. split; [reflexivity|]. split.
  - destruct (node_label n), lbl; try reflexivity; discriminate.
  - now apply String.eqb_eq.
Qed.

(** With one Document bearing the source name and at most one Concept
    bearing each end point's name, the upsert statement comes down to one
    relationship [MERGE] between uniquely bound end points. *)
Lemma upsert_triple_single (source subj ty obj : string) (g : graph) (d : nat) :
  endpoints_exist g ->
  match_nodes Document source g = [d] ->
  (length (match_nodes Concept subj g) <= 1)%nat ->
  (length (match_nodes Concept obj g) <= 1)%nat ->
  exists s o g2,
    upsert_triple source subj ty obj g = fst (merge_relation ty (d, s, o) g2)
    /\ match_nodes Concept subj g2 = [s]
    /\ match_nodes Concept obj g2 = [o]
    /\ rels g2 = rels g
    /\ edge_ids subj ty obj g2 = edge_ids subj ty obj g
    /\ doc_trust d g2 = doc_trust d g
    /\ node_name d g2 = source.
Proof.
  intros Hwf Hdoc Hs Ho.
  assert (Hd : is_named Document source g d = true).
  { apply In_match_nodes. rewrite Hdoc. now left. }
  destruct (is_named_nth _ _ _ _ Hd) as (n & Hn & _ & Hname).
  assert (Hdlt : (d < length (nodes g))%nat).
  { apply nth_error_Some. congruence. }
  destruct (merge_concept_single subj g Hwf Hs)
    as (s & g1 & Em1 & Hs1 & Hwf1 & Hr1 & He1 & Hother1 & _ & Hnth1).
  assert (Ho1 : (length (match_nodes Concept obj g1) <= 1)%nat).
  { destruct (string_dec obj subj) as [->|Hne].
    - rewrite Hs1. simpl. lia.
    - now rewrite Hother1. }
  destruct (merge_concept_single obj g1 Hwf1 Ho1)
    as (o & g2 & Em2 & Ho2 & Hwf2 & Hr2 & He2 & Hother2 & _ & Hnth2).
  exists s, o, g2.
  assert (Hdlt1 : (d < length (nodes g1))%nat).
  { apply nth_error_Some. rewrite (Hnth1 d Hdlt). congruence. }
  assert (Hnode : nth_error (nodes g2) d = Some n).
  { rewrite (Hnth2 d Hdlt1), (Hnth1 d Hdlt). exact Hn. }
  split.
  { unfold upsert_triple. rewrite Hdoc. cbn [for_each_row]. rewrite Em1.
    cbn [for_each_row map app fst snd]. rewrite Em2.
    cbn [for_each_row map app fst snd].
    destruct (merge_relation ty (d, s, o) g2). reflexivity. }
  split.
  { destruct (string_dec subj obj) as [->|Hne].
    - unfold merge_node in Em2. rewrite Hs1 in Em2. inversion Em2; subst. exact Hs1.
    - rewrite Hother2 by exact Hne. exact Hs1. }
  split; [exact Ho2|].
  split; [congruence|].
  split; [now rewrite He2, He1|].
  split.
  - unfold doc_trust. now rewrite Hnode, Hn.
  - unfold node_name. now rewrite Hnode.
Qed.

(** ** The upsert in general

    Nothing is assumed here on how many Concepts bear a name or how many
    relationships a triple key: a review may rename a Concept to a name
    already in use. *)

Lemma map_fst_combine_seq {A} (l : list A) (a : nat) :
  map fst (combine (seq a (length l)) l) = seq a (length l).
Proof.
  revert a. induction l as [|x r IH]; intros a; simpl; [reflexivity|].
  now rewrite IH.
Qed.

Lemma NoDup_map_fst_filter {A B} (P : A * B -> bool) (l : list (A * B)) :
  NoDup (map fst l) -> NoDup (map fst (filter P l)).
Proof.
  induction l as [|x r IH]; simpl; intros H; [constructor|].
  inversion H as [|? ? Hn Hr]; subst.
  destruct (P x); simpl; [|auto].
  constructor; [|auto]. intros Hin. apply Hn.
  apply in_map_iff in Hin. destruct Hin as [y [E Hy]].
  apply filter_In in Hy. apply in_map_iff. exists y. tauto.
Qed.

Lemma NoDup_filter_indexed {A} (P : nat * A -> bool) (l : list A) :
  NoDup (map fst (filter P (indexed l))).
Proof.
  apply NoDup_map_fst_filter. unfold indexed. rewrite map_fst_combine_seq.
  apply seq_NoDup.
Qed.

Lemma In_match_relations (s o : nat) (ty : string) (g : graph) (i : nat) :
  In i (match_relations s o ty g)
  <-> exists r, nth_error (rels g) i = Some r
                /\ start_node r = s /\ end_node r = o /\ rtype r = ty.
Proof.
  unfold match_relations. rewrite in_map_iff. split.
  - intros [[j r] [E H]]. simpl in E. subst j.
    apply filter_In in H. destruct H as [H1 H2]. apply In_indexed in H1.
    simpl in H2. apply andb_true_iff in H2. destruct H2 as [H2 H3].
    apply andb_true_iff in H2. destruct H2 as [H2 H4].
    exists r. split; [exact H1|].
    split; [now apply Nat.eqb_eq|]. split; [now apply Nat.eqb_eq | now apply String.eqb_eq].
  - intros (r & H1 & H2 & H3 & H4). exists (i, r). split; [reflexivity|].
    apply filter_In. split; [now apply In_indexed|]. simpl.
    subst. now rewrite !Nat.eqb_refl, String.eqb_refl.
Qed.

Lemma In_edge_ids (subj ty obj : string) (g : graph) (i : nat) :
  In i (edge_ids subj ty obj g)
  <-> exists r, nth_error (rels g) i = Some r
                /\ is_named Concept subj g (start_node r) = true
                /\ is_named Concept obj g (end_node r) = true
                /\ rtype r = ty.
Proof.
  unfold edge_ids. rewrite in_map_iff. split.
  - intros [[j r] [E H]]. simpl in E. subst j.
    apply filter_In in H. destruct H as [H1 H2]. apply In_indexed in H1.
    simpl in H2. apply andb_true_iff in H2. destruct H2 as [H2 H3].
    apply andb_true_iff in H2. destruct H2 as [H2 H4].
    exists r. split; [exact H1|].
    split; [exact H2|]. split; [exact H4 | now apply String.eqb_eq].
  - intros (r & H1 & H2 & H3 & H4). exists (i, r). split; [reflexivity|].
    apply filter_In. split; [now apply In_indexed|]. simpl.
    rewrite H2, H3. subst. now rewrite String.eqb_refl.
Qed.

Lemma on_match_set_same_nodes (d : nat) (g g' : graph) (r : relation) :
  nodes g' = nodes g -> on_match_set d g' r = on_match_set d g r.
Proof.
  intros H. unfold on_match_set, doc_trust, node_name. now rewrite H.
Qed.

Lemma existsb_eqb_In (j : nat) (l : list nat) :
  existsb (Nat.eqb j) l = true <-> In j l.
Proof.
  rewrite existsb_exists. split.
  - intros [x [H E]]. apply Nat.eqb_eq in E. now subst.
  - intros H. exists j. split; [exact H | apply Nat.eqb_refl].
Qed.

(** The [ON MATCH] part run over the matched relationships: each of them
    is updated once, the others stay. *)
Lemma on_match_fold (d : nat) (ids : list nat) (g : graph) :
  NoDup ids ->
  let g' := fold_left (fun g' r => set_relation r (on_match_set d g') g') ids g in
  nodes g' = nodes g
  /\ forall j, nth_error (rels g') j
               = if existsb (Nat.eqb j) ids
                 then option_map (on_match_set d g) (nth_error (rels g) j)
                 else nth_error (rels g) j.
Proof.
  revert g. induction ids as [|i rest IH]; intros g Hnd; simpl.
  - split; reflexivity.
  - inversion Hnd as [|? ? Hni Hrest]; subst.
    destruct (IH (set_relation i (on_match_set d g) g) Hrest) as [Hn Hj].
    split; [exact Hn|]. intros j. rewrite Hj. simpl rels.
    rewrite nth_error_update_nth.
    destruct (Nat.eqb_spec j i) as [->|Hne]; simpl.
    + assert (E : existsb (Nat.eqb i) rest = false).
      { destruct (existsb (Nat.eqb i) rest) eqn:E; [|reflexivity].
        apply existsb_eqb_In in E. contradiction. }
      rewrite E. reflexivity.
    + destruct (existsb (Nat.eqb j) rest); [|reflexivity].
      destruct (nth_error (rels g) j); reflexivity.
Qed.

Lemma merge_progress_start (ty : string) (d : nat) (g : graph) :
  merge_progress ty d g [] g.
Proof.
  split; [reflexivity|]. split; [|split].
  - intros i r Hr. split; [intros [_ []] | auto].
  - intros i r Hi Hr. exfalso.
    assert (nth_error (rels g) i <> None) by congruence.
    apply nth_error_Some in H. lia.
  - intros s o [].
Qed.

Lemma pair_in_dec (p : nat * nat) (l : list (nat * nat)) : {In p l} + {~ In p l}.
Proof.
  apply in_dec. intros [a b] [a' b'].
  destruct (Nat.eq_dec a a'); destruct (Nat.eq_dec b b'); subst;
    (left; reflexivity) || (right; congruence).
Qed.

(** A relationship from [s] to [o] with type [ty], met before the row
    [(s, o)] is handled, is one the statement found in the store and has
    not touched yet. *)
Lemma merge_progress_fresh (ty : string) (d : nat) (g0 : graph)
    (done : list (nat * nat)) (g : graph) (s o : nat) :
  merge_progress ty d g0 done g -> ~ In (s, o) done ->
  forall i x,
  nth_error (rels g) i = Some x ->
  start_node x = s -> end_node x = o ->
  nth_error (rels g0) i = Some x.
Proof.
  intros (Hn & Horig & Hnew & Hex) Hfresh i x Hx Hs Ho.
  destruct (le_lt_dec (length (rels g0)) i) as [Hge|Hlt].
  - destruct (Hnew i x Hge Hx) as (s' & o' & Hin & ->).
    unfold created_edge in Hs, Ho. simpl in Hs, Ho. subst. contradiction.
  - apply nth_error_Some in Hlt.
    destruct (nth_error (rels g0) i) as [r|] eqn:Er; [|congruence].
    destruct (Horig i r Er) as [Ht Hu].
    destruct (string_dec (rtype r) ty) as [Ety|Nty];
      [destruct (pair_in_dec (start_node r, end_node r) done) as [Hin|Hnin]|].
    + rewrite (Ht (conj Ety Hin)) in Hx. inversion Hx; subst x. simpl in Hs, Ho.
      subst s o. contradiction.
    + rewrite Hu in Hx by tauto. exact Hx.
    + rewrite Hu in Hx by tauto. exact Hx.
Qed.

Lemma merge_progress_step (ty : string) (d : nat) (g0 : graph)
    (done : list (nat * nat)) (g : graph) (s o : nat) :
  merge_progress ty d g0 done g -> ~ In (s, o) done ->
  merge_progress ty d g0 (done ++ [(s, o)]) (fst (merge_relation ty (d, s, o) g)).
Proof.
  intros HJ Hfresh.
  pose proof (merge_progress_fresh ty d g0 done g s o HJ Hfresh) as Hfr.
  destruct HJ as (Hn & Horig & Hnew & Hex).
  assert (Hlen : forall i r, nth_error (rels g0) i = Some r ->
                             exists x, nth_error (rels g) i = Some x
                                       /\ start_node x = start_node r
                                       /\ end_node x = end_node r /\ rtype x = rtype r).
  { intros i r Hr. destruct (Horig i r Hr) as [Ht Hu].
    destruct (string_dec (rtype r) ty) as [Ety|Nty];
      [destruct (pair_in_dec (start_node r, end_node r) done) as [Hin|Hnin]|].
    - eexists. split; [apply Ht; auto|]. simpl. auto.
    - exists r. split; [apply Hu; tauto | auto].
    - exists r. split; [apply Hu; tauto | auto]. }
  unfold merge_relation.
  destruct (match_relations s o ty g) as [|j js] eqn:Em.
  - (* ON CREATE *)
    simpl fst.
    assert (Hc : mkRelation s o ty (doc_trust d g) (Some [node_name d g]) None None
                 = created_edge ty d g0 s o).
    { unfold created_edge, doc_trust, node_name. now rewrite Hn. }
    rewrite Hc.
    split; [exact Hn|]. split; [|split].
    + intros i r Hr. destruct (Horig i r Hr) as [Ht Hu].
      destruct (Hlen i r Hr) as (x & Hx & _).
      assert (Hi : (i < length (rels g))%nat) by (apply nth_error_Some; congruence).
      simpl rels. rewrite nth_error_app1 by exact Hi. split.
      * intros [Ety Hin]. apply in_app_or in Hin. destruct Hin as [Hin|[Hin|[]]].
        -- apply Ht. auto.
        -- exfalso. inversion Hin as [[Hs Ho]].
           assert (Hg : nth_error (rels g) i = Some r).
           { apply Hu. intros [_ Hin']. rewrite <- Hs, <- Ho in Hin'. contradiction. }
           assert (Hm : In i (match_relations s o ty g)).
           { apply In_match_relations. exists r. auto. }
           rewrite Em in Hm. exact Hm.
      * intros Hnot. apply Hu. intros [Ety Hin]. apply Hnot.
        split; [exact Ety|]. apply in_or_app. now left.
    + intros i r Hi Hr. simpl rels in Hr.
      destruct (le_lt_dec (length (rels g)) i) as [Hge|Hlt].
      * rewrite nth_error_app2 in Hr by exact Hge.
        destruct (i - length (rels g))%nat as [|k] eqn:Ek; simpl in Hr.
        -- inversion Hr; subst r. exists s, o. split; [|reflexivity].
           apply in_or_app. right. now left.
        -- destruct k; discriminate.
      * rewrite nth_error_app1 in Hr by exact Hlt.
        destruct (Hnew i r Hi Hr) as (s' & o' & Hin & E).
        exists s', o'. split; [apply in_or_app; now left | exact E].
    + intros s' o' Hin. apply in_app_or in Hin. destruct Hin as [Hin|[Hin|[]]].
      * destruct (Hex s' o' Hin) as (i & x & Hx & H).
        exists i, x. split; [|exact H]. simpl rels.
        rewrite nth_error_app1; [exact Hx|]. apply nth_error_Some. congruence.
      * inversion Hin; subst s' o'. exists (length (rels g)). eexists. split.
        -- simpl rels. rewrite nth_error_app2 by lia. rewrite Nat.sub_diag. reflexivity.
        -- simpl. auto.
  - (* ON MATCH *)
    rewrite <- Em. simpl fst.
    destruct (on_match_fold d (match_relations s o ty g) g
                (NoDup_filter_indexed _ _)) as [Hn' Hj].
    set (g' := fold_left (fun g' r => set_relation r (on_match_set d g') g')
                         (match_relations s o ty g) g) in *.
    assert (Hin_ids : forall i, existsb (Nat.eqb i) (match_relations s o ty g) = true
                                <-> exists x, nth_error (rels g) i = Some x
                                              /\ start_node x = s /\ end_node x = o
                                              /\ rtype x = ty).
    { intros i. rewrite existsb_eqb_In. apply In_match_relations. }
    assert (Hout : forall i, ~ (exists x, nth_error (rels g) i = Some x
                                          /\ start_node x = s /\ end_node x = o
                                          /\ rtype x = ty) ->
                             nth_error (rels g') i = nth_error (rels g) i).
    { intros i Hno. rewrite Hj.
      destruct (existsb (Nat.eqb i) (match_relations s o ty g)) eqn:E; [|reflexivity].
      apply Hin_ids in E. contradiction. }
    assert (Hinn : forall i x, nth_error (rels g) i = Some x ->
                               start_node x = s -> end_node x = o -> rtype x = ty ->
                               nth_error (rels g') i = Some (on_match_set d g0 x)).
    { intros i x Hx Hs Ho Hty. rewrite Hj.
      assert (E : existsb (Nat.eqb i) (match_relations s o ty g) = true).
      { apply Hin_ids. exists x. auto. }
      rewrite E, Hx. simpl. f_equal. now apply on_match_set_same_nodes. }
    split; [congruence|]. split; [|split].
    + intros i r Hr. destruct (Horig i r Hr) as [Ht Hu]. split.
      * intros [Ety Hin]. apply in_app_or in Hin. destruct Hin as [Hin|[Hin|[]]].
        -- rewrite Hout; [apply Ht; auto|].
           intros (x & Hx & Hs & Ho & _). rewrite (Ht (conj Ety Hin)) in Hx.
           inversion Hx; subst x. simpl in Hs, Ho. subst. contradiction.
        -- inversion Hin as [[Hs Ho]]. apply Hinn; auto.
           apply Hu. intros [_ Hin']. rewrite <- Hs, <- Ho in Hin'. contradiction.
      * intros Hnot.
        assert (Hg : nth_error (rels g) i = Some r).
        { apply Hu. intros [Ety Hin]. apply Hnot. split; [exact Ety|].
          apply in_or_app. now left. }
        rewrite Hout; [exact Hg|].
        intros (x & Hx & Hs & Ho & Hty). rewrite Hg in Hx. inversion Hx; subst x.
        apply Hnot. split; [exact Hty|]. apply in_or_app. right. left. congruence.
    + intros i r Hi Hr.
      assert (Hg : nth_error (rels g') i = nth_error (rels g) i).
      { apply Hout. intros (x & Hx & Hs & Ho & _).
        pose proof (Hfr i x Hx Hs Ho) as H0.
        assert (nth_error (rels g0) i <> None) by congruence.
        apply nth_error_Some in H. lia. }
      rewrite Hg in Hr. destruct (Hnew i r Hi Hr) as (s' & o' & Hin & E).
      exists s', o'. split; [apply in_or_app; now left | exact E].
    + intros s' o' Hin.
      assert (Hkeep : forall i x, nth_error (rels g) i = Some x ->
                 exists x', nth_error (rels g') i = Some x'
                            /\ start_node x' = start_node x
                            /\ end_node x' = end_node x /\ rtype x' = rtype x).
      { intros i x Hx. rewrite Hj, Hx.
        destruct (existsb (Nat.eqb i) (match_relations s o ty g)); simpl.
        - eexists. split; [reflexivity|]. simpl. auto.
        - exists x. auto. }
      apply in_app_or in Hin. destruct Hin as [Hin|[Hin|[]]].
      * destruct (Hex s' o' Hin) as (i & x & Hx & H1 & H2 & H3).
        destruct (Hkeep i x Hx) as (x' & Hx' & E1 & E2 & E3).
        exists i, x'. split; [exact Hx'|]. split; [congruence|]. split; congruence.
      * inversion Hin; subst s' o'.
        assert (Hm : In j (match_relations s o ty g)) by (rewrite Em; now left).
        apply In_match_relations in Hm. destruct Hm as (x & Hx & H1 & H2 & H3).
        destruct (Hkeep j x Hx) as (x' & Hx' & E1 & E2 & E3).
        exists j, x'. split; [exact Hx'|]. split; [congruence|]. split; congruence.
Qed.

Lemma fst_for_each_row_cons {R S} (step : R -> graph -> graph * list S)
    (r : R) (rs : list R) (g : graph) :
  fst (for_each_row step (r :: rs) g) = fst (for_each_row step rs (fst (step r g))).
Proof.
  simpl. destruct (step r g) as [g1 out]. simpl.
  destruct (for_each_row step rs g1). reflexivity.
Qed.

Lemma merge_progress_rows (ty : string) (d : nat) (g0 : graph) (pairs : list (nat * nat)) :
  forall done g,
    NoDup (done ++ pairs) -> merge_progress ty d g0 done g ->
    merge_progress ty d g0 (done ++ pairs)
      (fst (for_each_row (merge_relation ty)
              (map (fun p => (d, fst p, snd p)) pairs) g)).
Proof.
  induction pairs as [|[s o] ps IH]; intros done g Hnd HJ.
  - simpl. now rewrite app_nil_r.
  - cbn [map]. rewrite fst_for_each_row_cons. cbn [fst snd].
    replace (done ++ (s, o) :: ps) with ((done ++ [(s, o)]) ++ ps)
      by (rewrite <- app_assoc; reflexivity).
    apply IH.
    + rewrite <- app_assoc. exact Hnd.
    + apply merge_progress_step; [exact HJ|].
      intros Hin. apply (NoDup_remove_2 _ _ _ Hnd). apply in_or_app. now left.
Qed.

Lemma NoDup_list_prod {A B} (l : list A) (l' : list B) :
  NoDup l -> NoDup l' -> NoDup (list_prod l l').
Proof.
  intros Hl Hl'. induction l as [|a r IH]; simpl; [constructor|].
  inversion Hl as [|? ? Hn Hr]; subst. apply NoDup_app.
  - clear -Hl'. induction l' as [|b r' IH']; simpl; [constructor|].
    inversion Hl' as [|? ? Hn' Hr']; subst. constructor; [|auto].
    intros Hin. apply in_map_iff in Hin. destruct Hin as [y [E Hy]].
    inversion E; subst. contradiction.
  - auto.
  - intros [x y] H1 H2. apply in_map_iff in H1. destruct H1 as [z [E _]].
    inversion E; subst. apply in_prod_iff in H2. tauto.
Qed.

Lemma rows_as_prod (d : nat) (ss os : list nat) :
  flat_map (fun r : nat * nat => map (fun o => (fst r, snd r, o)) os)
           (map (fun s => (d, s)) ss)
  = map (fun p => (d, fst p, snd p)) (list_prod ss os).
Proof.
  induction ss as [|s r IH]; simpl; [reflexivity|].
  rewrite map_app, map_map, IH. reflexivity.
Qed.

(** What [MERGE] of a Concept does in general: it binds every Concept
    bearing the name, after creating one if there was none; a second
    [MERGE] of the same name finds the same nodes. *)
Lemma merge_concept_bound (nm : string) (g : graph) :
  endpoints_exist g ->
  exists ss g1,
    merge_node Concept nm g = (g1, ss)
    /\ merge_node Concept nm g1 = (g1, ss)
    /\ ss <> []
    /\ ss = match_nodes Concept nm g1
    /\ endpoints_exist g1
    /\ rels g1 = rels g
    /\ (forall a t b, edge_ids a t b g1 = edge_ids a t b g)
    /\ (forall nm', nm' <> nm -> match_nodes Concept nm' g1 = match_nodes Concept nm' g)
    /\ (forall nm', match_nodes Document nm' g1 = match_nodes Document nm' g)
    /\ (forall d, (d < length (nodes g))%nat ->
                  nth_error (nodes g1) d = nth_error (nodes g) d).
Proof.
  intros Hwf. unfold merge_node at 1.
  destruct (match_nodes Concept nm g) as [|s rest] eqn:E.
  - assert (Em : match_nodes Concept nm (add_node (mkNode Concept nm None None) g)
                 = [length (nodes g)]).
    { rewrite match_nodes_add_node, E. simpl. now rewrite String.eqb_refl. }
    exists [length (nodes g)], (add_node (mkNode Concept nm None None) g).
    split; [reflexivity|].
    split; [unfold merge_node; now rewrite Em|].
    split; [discriminate|].
    split; [now rewrite Em|].
    split; [now apply endpoints_exist_add_node|].
    split; [reflexivity|].
    split; [intros; now apply edge_ids_add_node|].
    split.
    { intros nm' Hne. rewrite match_nodes_add_node. simpl.
      destruct (String.eqb_spec nm nm') as [->|_]; [congruence|]. apply app_nil_r. }
    split.
    { intros nm'. rewrite match_nodes_add_node. simpl. apply app_nil_r. }
    intros d Hd. simpl. now rewrite nth_error_app1.
  - exists (s :: rest), g.
    split; [reflexivity|].
    split; [unfold merge_node; now rewrite E|].
    split; [discriminate|].
    repeat split; auto.
Qed.

Lemma merge_object_rows (obj : string) (g1 g2 : graph) (os : list nat)
    (rows : list (nat * nat)) :
  merge_node Concept obj g1 = (g2, os) ->
  merge_node Concept obj g2 = (g2, os) ->
  rows <> [] ->
  for_each_row (fun (r : nat * nat) g =>
                  let (g', os) := merge_node Concept obj g in
                  (g', map (fun o => (fst r, snd r, o)) os)) rows g1
  = (g2, flat_map (fun r : nat * nat => map (fun o => (fst r, snd r, o)) os) rows).
Proof.
  intros H1 H2 Hne.
  assert (Hsame : forall rs,
             for_each_row (fun (r : nat * nat) g =>
                             let (g', os) := merge_node Concept obj g in
                             (g', map (fun o => (fst r, snd r, o)) os)) rs g2
             = (g2, flat_map (fun r : nat * nat => map (fun o => (fst r, snd r, o)) os) rs)).
  { induction rs as [|r rs IH]; [reflexivity|].
    cbn [for_each_row flat_map]. rewrite H2, IH. reflexivity. }
  destruct rows as [|r rs]; [congruence|].
  cbn [for_each_row flat_map]. rewrite H1, Hsame. reflexivity.
Qed.

Lemma match_nodes_same_nodes (lbl : label) (nm : string) (g g' : graph) :
  nodes g' = nodes g -> match_nodes lbl nm g' = match_nodes lbl nm g.
Proof. unfold match_nodes. now intros ->. Qed.

Lemma is_named_same_nodes (lbl : label) (nm : string) (g g' : graph) (i : nat) :
  nodes g' = nodes g -> is_named lbl nm g' i = is_named lbl nm g i.
Proof. unfold is_named. now intros ->. Qed.

(** With one Document bearing the source name, the upsert statement runs
    the relationship [MERGE] once for every pair of a Concept named
    [subj] and a Concept named [obj]. *)
Lemma upsert_triple_rows (source subj ty obj : string) (g : graph) (d : nat) :
  endpoints_exist g ->
  match_nodes Document source g = [d] ->
  exists g2 ss os,
    upsert_triple source subj ty obj g
    = fst (for_each_row (merge_relation ty)
             (map (fun p => (d, fst p, snd p)) (list_prod ss os)) g2)
    /\ ss = match_nodes Concept subj g2
    /\ os = match_nodes Concept obj g2
    /\ ss <> [] /\ os <> []
    /\ endpoints_exist g2
    /\ rels g2 = rels g
    /\ (forall a t b, edge_ids a t b g2 = edge_ids a t b g)
    /\ match_nodes Document source g2 = [d]
    /\ doc_trust d g2 = doc_trust d g
    /\ node_name d g2 = source.
Proof.
  intros Hwf Hdoc.
  assert (Hd : is_named Document source g d = true).
  { apply In_match_nodes. rewrite Hdoc. now left. }
  destruct (is_named_nth _ _ _ _ Hd) as (n & Hn & _ & Hname).
  assert (Hdlt : (d < length (nodes g))%nat).
  { apply nth_error_Some. congruence. }
  destruct (merge_concept_bound subj g Hwf)
    as (ss & g1 & Em1 & _ & Hne1 & Hss & Hwf1 & Hr1 & He1 & Hother1 & Hdoc1 & Hnth1).
  destruct (merge_concept_bound obj g1 Hwf1)
    as (os & g2 & Em2 & Em2' & Hne2 & Hos & Hwf2 & Hr2 & He2 & Hother2 & Hdoc2 & Hnth2).
  exists g2, ss, os.
  assert (Hdlt1 : (d < length (nodes g1))%nat).
  { apply nth_error_Some. rewrite (Hnth1 d Hdlt). congruence. }
  assert (Hnode : nth_error (nodes g2) d = Some n).
  { rewrite (Hnth2 d Hdlt1), (Hnth1 d Hdlt). exact Hn. }
  split.
  { unfold upsert_triple. rewrite Hdoc. cbn [for_each_row]. rewrite Em1.
    rewrite app_nil_r.
    rewrite (merge_object_rows obj g1 g2 os _ Em2 Em2').
    - rewrite rows_as_prod. reflexivity.
    - destruct ss; [congruence | discriminate]. }
  split.
  { destruct (string_dec subj obj) as [->|Hne].
    - unfold merge_node in Em2. rewrite <- Hss in Em2.
      destruct ss; [congruence|]. inversion Em2; subst. exact Hss.
    - rewrite Hother2 by exact Hne. exact Hss. }
  split; [exact Hos|].
  split; [exact Hne1|]. split; [exact Hne2|].
  split; [exact Hwf2|].
  split; [congruence|].
  split; [intros; now rewrite He2, He1|].
  split; [now rewrite Hdoc2, Hdoc1|].
  split.
  - unfold doc_trust. now rewrite Hnode, Hn.
  - unfold node_name. now rewrite Hnode.
Qed.

(** What the upsert statement does to the store when one Document bears
    the source name: every relationship under the triple key is averaged
    and extended once, every other relationship stays, and each pair of
    end points without a relationship under the key receives one. *)
Lemma upsert_triple_effect (source subj ty obj : string) (g : graph) (d : nat) (t2 : Q) :
  endpoints_exist g ->
  match_nodes Document source g = [d] ->
  doc_trust d g = Some t2 ->
  let g' := upsert_triple source subj ty obj g in
  (forall i r, In i (edge_ids subj ty obj g) -> nth_error (rels g) i = Some r ->
      In i (edge_ids subj ty obj g')
      /\ nth_error (rels g') i
         = Some (mkRelation (start_node r) (end_node r) (rtype r)
                   (null_avg (weight r) (Some t2)) (null_append (sources r) source)
                   (status r) (validated_at r)))
  /\ (forall i, In i (edge_ids subj ty obj g') -> ~ In i (edge_ids subj ty obj g) ->
        (length (rels g) <= i)%nat
        /\ exists s o, nth_error (rels g') i
                       = Some (mkRelation s o ty (Some t2) (Some [source]) None None))
  /\ (edge_ids subj ty obj g = [] -> edge_ids subj ty obj g' <> [])
  /\ (forall i r, nth_error (rels g) i = Some r -> ~ In i (edge_ids subj ty obj g) ->
        nth_error (rels g') i = Some r)
  /\ endpoints_exist g'
  /\ match_nodes Document source g' = [d]
  /\ doc_trust d g' = Some t2.
Proof.
  intros Hwf Hdoc Ht g'.
  destruct (upsert_triple_rows source subj ty obj g d Hwf Hdoc)
    as (g2 & ss & os & Eu & Hss & Hos & Hne1 & Hne2 & Hwf2 & Hr2 & He2 & Hdoc2 & Hdt & Hnm).
  assert (Hnd : NoDup ([] ++ list_prod ss os)).
  { simpl. apply NoDup_list_prod; subst ss os; apply NoDup_filter_indexed. }
  pose proof (merge_progress_rows ty d g2 (list_prod ss os) [] g2 Hnd
                (merge_progress_start ty d g2)) as HJ.
  simpl app in HJ. rewrite <- Eu in HJ. fold g' in HJ.
  destruct HJ as (Hn & Horig & Hnew & Hex).
  assert (Hmem : forall s o, In (s, o) (list_prod ss os)
                             <-> is_named Concept subj g2 s = true
                                 /\ is_named Concept obj g2 o = true).
  { intros s o. rewrite in_prod_iff. subst ss os. now rewrite !In_match_nodes. }
  assert (Hkey : forall i r, nth_error (rels g2) i = Some r ->
                   (In i (edge_ids subj ty obj g)
                    <-> rtype r = ty /\ In (start_node r, end_node r) (list_prod ss os))).
  { intros i r Hr. rewrite <- He2, In_edge_ids, Hmem. split.
    - intros (x & Hx & H1 & H2 & H3). rewrite Hr in Hx. inversion Hx; subst x. tauto.
    - intros (H1 & H2 & H3). exists r. tauto. }
  assert (Hkey' : forall i x, nth_error (rels g') i = Some x ->
                    (In i (edge_ids subj ty obj g')
                     <-> rtype x = ty /\ In (start_node x, end_node x) (list_prod ss os))).
  { intros i x Hx. rewrite In_edge_ids, Hmem.
    rewrite <- (is_named_same_nodes Concept subj g2 g' _ Hn).
    rewrite <- (is_named_same_nodes Concept obj g2 g' _ Hn). split.
    - intros (y & Hy & H1 & H2 & H3). rewrite Hx in Hy. inversion Hy; subst y. tauto.
    - intros (H1 & H2 & H3). exists x. tauto. }
  assert (Hset : forall r, on_match_set d g2 r
                           = mkRelation (start_node r) (end_node r) (rtype r)
                               (null_avg (weight r) (Some t2))
                               (null_append (sources r) source)
                               (status r) (validated_at r)).
  { intros r. unfold on_match_set. now rewrite Hdt, Ht, Hnm. }
  assert (Hcr : forall s o, created_edge ty d g2 s o
                            = mkRelation s o ty (Some t2) (Some [source]) None None).
  { intros s o. unfold created_edge. now rewrite Hdt, Ht, Hnm. }
  rewrite Hr2 in *.
  split; [|split; [|split; [|split; [|split; [|split]]]]].
  - intros i r Hin Hr. destruct (Horig i r Hr) as [Htouch _].
    apply (Hkey i r Hr) in Hin. pose proof (Htouch Hin) as Ex. split.
    + apply (Hkey' i _ Ex). simpl. exact Hin.
    + rewrite Ex, Hset. reflexivity.
  - intros i Hin' Hnin.
    destruct (In_edge_ids subj ty obj g' i) as [Hx _].
    destruct (Hx Hin') as (x & Ex & _).
    destruct (le_lt_dec (length (rels g)) i) as [Hge|Hlt].
    + split; [exact Hge|]. destruct (Hnew i x Hge Ex) as (s & o & _ & ->).
      exists s, o. now rewrite <- Hcr.
    + exfalso. apply nth_error_Some in Hlt.
      destruct (nth_error (rels g) i) as [r|] eqn:Er; [|congruence].
      apply Hnin. apply (Hkey i r Er).
      apply (Hkey' i x Ex) in Hin'.
      destruct (Horig i r Er) as [Htouch Huntouched].
      destruct (string_dec (rtype r) ty) as [Ety|Nty];
        [destruct (pair_in_dec (start_node r, end_node r) (list_prod ss os))
          as [Hp|Hnp]|].
      * auto.
      * rewrite Huntouched in Ex by tauto. inversion Ex; subst x. exact Hin'.
      * rewrite Huntouched in Ex by tauto. inversion Ex; subst x. exact Hin'.
  - intros Eempty.
    destruct ss as [|s ss']; [congruence|]. destruct os as [|o os']; [congruence|].
    assert (Hp : In (s, o) (list_prod (s :: ss') (o :: os'))).
    { apply in_prod_iff. split; now left. }
    destruct (Hex s o Hp) as (i & x & Ex & H1 & H2 & H3).
    assert (Hin : In i (edge_ids subj ty obj g')).
    { apply (Hkey' i x Ex). split; [exact H3|]. now rewrite H1, H2. }
    intros E. rewrite E in Hin. exact Hin.
  - intros i r Hr Hnin. destruct (Horig i r Hr) as [_ Huntouched].
    apply Huntouched. intros Hk. apply Hnin. now apply (Hkey i r Hr).
  - unfold endpoints_exist. apply Forall_forall. intros x Hx.
    apply In_nth_error in Hx. destruct Hx as [i Ex]. rewrite Hn.
    unfold endpoints_exist in Hwf2. rewrite Forall_forall in Hwf2.
    destruct (le_lt_dec (length (rels g)) i) as [Hge|Hlt].
    + destruct (Hnew i x Hge Ex) as (s & o & Hp & ->).
      apply Hmem in Hp. destruct Hp as [Hs Ho].
      destruct (is_named_nth _ _ _ _ Hs) as (n1 & En1 & _).
      destruct (is_named_nth _ _ _ _ Ho) as (n2 & En2 & _).
      unfold created_edge. simpl. split; apply nth_error_Some; congruence.
    + apply nth_error_Some in Hlt.
      destruct (nth_error (rels g) i) as [r|] eqn:Er; [|congruence].
      assert (Hr : In r (rels g2)) by (rewrite Hr2; eapply nth_error_In; eauto).
      specialize (Hwf2 r Hr).
      destruct (Horig i r Er) as [Htouch Huntouched].
      destruct (string_dec (rtype r) ty) as [Ety|Nty];
        [destruct (pair_in_dec (start_node r, end_node r) (list_prod ss os))
          as [Hp|Hnp]|].
      * rewrite (Htouch (conj Ety Hp)) in Ex. inversion Ex; subst x. exact Hwf2.
      * rewrite Huntouched in Ex by tauto. inversion Ex; subst x. exact Hwf2.
      * rewrite Huntouched in Ex by tauto. inversion Ex; subst x. exact Hwf2.
  - rewrite (match_nodes_same_nodes Document source g2 g' Hn). exact Hdoc2.
  - unfold doc_trust. rewrite Hn. fold (doc_trust d g2). now rewrite Hdt.
Qed.

(** C1: with one Document named after the source file in the store, of
    trust [t2], the upsert statement sent for the triple
    [(subj, ty, obj)] returns normally, and
    - every relationship under the key [(subj, ty, obj)], of stored weight
      [t1] and sources [l], stays under the key with weight
      [(t1 + t2) / 2] and sources [l ++ [source]], its status kept;
    - every relationship under the key afterwards that was not there
      before is new, with weight [t2], sources [[source]] and no status;
    - when no relationship was under the key, one is afterwards;
    - the relationships outside the key stay as they were;
    - when at most one Concept bears each end point's name, the key holds
      exactly one relationship afterwards, the one it held if it held one;
    - the premises hold again afterwards.
    [_save_to_graph] sends this statement with [ty] the normalised
    predicate for the first triple of its list and goes on with the rest
    of the list from the resulting state, so the above applies to each
    triple of a call in turn. The predicate is taken to be ASCII text
    there, on which [upper] is [str.upper]. *)
Theorem save_to_graph_weight_averaging
    (w : world) (source subj pred obj ty : string) (d : nat) (t2 : Q) :
  let g := db (graph_db w) in
  let triple := [("subject"%string, subj); ("predicate"%string, pred);
                 ("object"%string, obj)] in
  driver_up (graph_db w) = true ->
  endpoints_exist g ->
  match_nodes Document source g = [d] ->
  doc_trust d g = Some t2 ->
  exists w',
    let g' := db (graph_db w') in
    query (UpsertTriple source subj ty obj) w = (Ok NoRecords, w')
    /\ (is_ascii pred = true -> ty = normalize_predicate pred ->
        forall rest,
          _save_to_graph (triple :: rest) source w = _save_to_graph rest source w')
    /\ (forall i r t1 l,
           In i (edge_ids subj ty obj g) -> nth_error (rels g) i = Some r ->
           weight r = Some t1 -> sources r = Some l ->
           In i (edge_ids subj ty obj g')
           /\ exists r',
                nth_error (rels g') i = Some r'
                /\ weight r' = Some ((t1 + t2) / 2)
                /\ sources r' = Some (l ++ [source])
                /\ status r' = status r)
    /\ (forall i,
           In i (edge_ids subj ty obj g') -> ~ In i (edge_ids subj ty obj g) ->
           (length (rels g) <= i)%nat
           /\ exists r',
                nth_error (rels g') i = Some r'
                /\ weight r' = Some t2 /\ sources r' = Some [source]
                /\ status r' = None)
    /\ (edge_ids subj ty obj g = [] -> edge_ids subj ty obj g' <> [])
    /\ (forall i r,
           nth_error (rels g) i = Some r -> ~ In i (edge_ids subj ty obj g) ->
           nth_error (rels g') i = Some r)
    /\ ((length (match_nodes Concept subj g) <= 1)%nat ->
        (length (match_nodes Concept obj g) <= 1)%nat ->
        (edge_ids subj ty obj g = [] -> exists i, edge_ids subj ty obj g' = [i])
        /\ (forall i, edge_ids subj ty obj g = [i] -> edge_ids subj ty obj g' = [i]))
    /\ driver_up (graph_db w') = true
    /\ endpoints_exist g'
    /\ match_nodes Document source g' = [d]
    /\ doc_trust d g' = Some t2.
Proof.
  intros g triple Hup Hwf Hdoc Ht.
  exists (mkWorld (trace w)
            (mkConnector true (upsert_triple source subj ty obj g) (clock (graph_db w)))).
  cbv zeta. simpl db. simpl driver_up.
  destruct (upsert_triple_effect source subj ty obj g d t2 Hwf Hdoc Ht)
    as (Hrep & Hnew & Hfirst & Hother & Hwf' & Hdoc' & Ht').
  split.
  { unfold query. rewrite Hup. reflexivity. }
  split.
  { intros _ -> rest. subst triple. simpl. unfold getitem. simpl. unfold_M.
    unfold query. rewrite Hup. reflexivity. }
  split.
  { intros i r t1 l Hin Hr Hw Hl. destruct (Hrep i r Hin Hr) as [Hin' Hr'].
    split; [exact Hin'|]. eexists. split; [exact Hr'|]. simpl.
    rewrite Hw, Hl. auto. }
  split.
  { intros i Hin' Hnin. destruct (Hnew i Hin' Hnin) as [Hge (s & o & Hr')].
    split; [exact Hge|]. eexists. split; [exact Hr'|]. simpl. auto. }
  split; [exact Hfirst|].
  split; [exact Hother|].
  split.
  { intros Hs Ho.
    destruct (upsert_triple_single source subj ty obj g d Hwf Hdoc Hs Ho)
      as (s & o & g2 & Eu & Hs2 & Ho2 & Hr2 & He2 & _).
    rewrite Eu.
    destruct (merge_relation_key subj ty obj g2 d s o Hs2 Ho2) as [Hcreate Hmatch].
    rewrite He2 in *. split.
    - intros E. destruct (Hcreate E) as (i & r & H1 & _). exists i. exact H1.
    - intros i E.
      assert (Hin : In i (edge_ids subj ty obj g)) by (rewrite E; now left).
      apply In_edge_ids in Hin. destruct Hin as (r & Hr & _).
      rewrite <- Hr2 in Hr.
      destruct (Hmatch i r E Hr) as (r' & H1 & _). exact H1. }
  auto.
Qed.

(** ** Worked scenarios *)

(** Two documents with trust 0.8 and 0.6 assert (A, causes, B): one edge
    A -CAUSES-> B results, of weight 0.7, with both sources in arrival
    order and no status set. *)
Example two_documents_scenario :
  exists x,
    rels (db (graph_db w_two))
    = [mkRelation 1 2 "CAUSES" (Some x) (Some ["doc1.pdf"%string; "doc2.pdf"%string])
         None None]
    /\ x == 0.7.
Proof. eexists. split; [vm_compute; reflexivity | reflexivity]. Qed.

(** The same document saving the same triple twice is listed twice. *)
Example same_document_twice :
  map sources
      (rels (db (graph_db (fold_left perform
                             [SaveToGraph [sample_triple; sample_triple] "doc1.pdf"] w_doc))))
  = [Some ["doc1.pdf"%string; "doc1.pdf"%string]].
Proof. vm_compute. reflexivity. Qed.

Example find_doi_examples :
  find_doi "See doi: 10.1234/abc.def. for details" = Some "10.1234/abc.def"%string
  /\ find_doi "version 10.12/x and 10.1234567890/y" = None.
Proof. split; reflexivity. Qed.

Example normalize_predicate_examples :
  normalize_predicate "is a" = "IS_A"%string
  /\ normalize_predicate "Located In" = "LOCATED_IN"%string.
Proof. split; reflexivity. Qed.

(** After a review has renamed C to A, two relationships bear the key
    (A, CAUSES, B); a further observation of the triple extends both. *)
Example renamed_concept_scenario :
  edge_ids "A" "CAUSES" "B" (db (graph_db w_renamed)) = [0; 1]%nat
  /\ match_nodes Concept "A" (db (graph_db w_renamed)) = [1; 3]%nat
  /\ map sources
         (rels (db (graph_db (perform w_renamed (SaveToGraph [sample_triple] "doc2.pdf")))))
     = [Some ["doc1.pdf"%string; "doc2.pdf"%string];
        Some ["doc1.pdf"%string; "doc2.pdf"%string]].
Proof. vm_compute. auto. Qed.

Lemma save_to_graph_weight_averaging_witness :
  (exists w',
     _save_to_graph [sample_triple] "doc1.pdf" w_doc = (Ok tt, w')
     /\ (exists i, edge_ids "A" "CAUSES" "B" (db (graph_db w')) = [i])
     /\ forall i, In i (edge_ids "A" "CAUSES" "B" (db (graph_db w'))) ->
          exists r, nth_error (rels (db (graph_db w'))) i = Some r
                    /\ weight r = Some 0.8 /\ sources r = Some ["doc1.pdf"%string])
  /\ (exists w',
        _save_to_graph [sample_triple; second_triple] "doc2.pdf" w_renamed
        = _save_to_graph [second_triple] "doc2.pdf" w'
        /\ (exists r, nth_error (rels (db (graph_db w'))) 0 = Some r
                      /\ weight r = Some ((0.8 + 0.6) / 2)
                      /\ sources r = Some ["doc1.pdf"%string; "doc2.pdf"%string])
        /\ (exists r, nth_error (rels (db (graph_db w'))) 1 = Some r
                      /\ weight r = Some ((0.8 + 0.6) / 2)
                      /\ sources r = Some ["doc1.pdf"%string; "doc2.pdf"%string]
                      /\ status r = Some VALIDATED)).
Proof.
  split.
  - destruct (save_to_graph_weight_averaging w_doc "doc1.pdf" "A" "causes" "B" "CAUSES"
                0 0.8)
      as (w' & _ & Hsave & _ & Hnew & _ & _ & Huniq & _).
    + reflexivity.
    + constructor.
    + reflexivity.
    + reflexivity.
    + exists w'. split; [apply (Hsave eq_refl eq_refl [])|]. split.
      * apply Huniq; [simpl; lia | simpl; lia | reflexivity].
      * intros i Hin. destruct (Hnew i Hin) as [_ (r & Hr & Hw & Hl & _)].
        -- simpl. tauto.
        -- exists r. auto.
  - destruct (save_to_graph_weight_averaging w_renamed "doc2.pdf" "A" "causes" "B"
                "CAUSES" 4 0.6)
      as (w' & _ & Hsave & Hrep & _).
    + reflexivity.
    + vm_compute. repeat constructor.
    + reflexivity.
    + reflexivity.
    + exists w'. split; [apply (Hsave eq_refl eq_refl [second_triple])|]. split.
      * destruct (Hrep 0%nat (mkRelation 1 2 "CAUSES" (Some 0.8)
                                (Some ["doc1.pdf"%string]) None None)
                       0.8 ["doc1.pdf"%string])
          as [_ (r & Hr & Hw & Hl & _)];
          [vm_compute; tauto | reflexivity | reflexivity | reflexivity |].
        exists r. auto.
      * destruct (Hrep 1%nat (mkRelation 3 2 "CAUSES" (Some 0.8)
                                (Some ["doc1.pdf"%string]) (Some VALIDATED) (Some O))
                       0.8 ["doc1.pdf"%string])
          as [_ (r & Hr & Hw & Hl & Hst)];
          [vm_compute; tauto | reflexivity | reflexivity | reflexivity |].
        exists r. auto.
Defined.

Lemma edge_weights_stay_in_unit_witness :
  Forall (fun r => exists x, weight r = Some x /\ in_unit x)
         (rels (db (graph_db (fold_left perform two_documents w0)))).
Proof.
  apply (edge_weights_stay_in_unit two_documents w0).
  - reflexivity.
  - repeat constructor; simpl; unfold Qle; simpl; lia.
Defined.

Lemma commit_triples_validates_witness :
  exists n w1,
    commit_triples [sample_commit] w_two = (Ok n, w1)
    /\ stamped 0 (db (graph_db w1)) 0.
Proof.
  destruct (commit_triples_validates [sample_commit] sample_commit w_two)
    as (n & w1 & E & Hst & _).
  - reflexivity.
  - simpl. left. reflexivity.
  - vm_compute. lia.
  - exists n, w1. split; [exact E | exact Hst].
Defined.

Lemma save_to_graph_without_document_witness :
  _save_to_graph [sample_triple] "ghost.pdf" w_doc = (Ok tt, w_doc).
Proof.
  apply (save_to_graph_without_document [sample_triple] "ghost.pdf" w_doc).
  reflexivity.
Defined.

(** * Further properties *)

(** ** Computations that leave the graph alone *)

Lemma keeps_graph_ret {A} (a : A) : keeps_graph (ret a).
Proof. intros w. reflexivity. Qed.

Lemma keeps_graph_raise {A} (e : exn) : keeps_graph (@raise A e).
Proof. intros w. reflexivity. Qed.

Lemma keeps_graph_lift {A} (r : result A) : keeps_graph (lift r).
Proof. intros w. reflexivity. Qed.

Lemma keeps_graph_emit (e : event) : keeps_graph (emit e).
Proof. intros w. reflexivity. Qed.

Lemma keeps_graph_bind {A B} (m : M A) (k : A -> M B) :
  keeps_graph m -> (forall a, keeps_graph (k a)) -> keeps_graph (bind m k).
Proof.
  intros Hm Hk w. unfold bind. specialize (Hm w).
  destruct (m w) as [[a|e] w1]; simpl in *.
  - rewrite <- Hm. apply Hk.
  - exact Hm.
Qed.

Lemma keeps_graph_try_except {A} (m h : M A) :
  keeps_graph m -> keeps_graph h -> keeps_graph (try_except m h).
Proof.
  intros Hm Hh w. unfold try_except. specialize (Hm w).
  destruct (m w) as [[a|e] w1]; simpl in *.
  - exact Hm.
  - rewrite <- Hm. apply Hh.
Qed.

Ltac keeps_graph_tac :=
  repeat first
    [ apply keeps_graph_ret
    | apply keeps_graph_raise
    | apply keeps_graph_lift
    | apply keeps_graph_emit
    | apply keeps_graph_try_except
    | apply keeps_graph_bind; [|intros]
    | match goal with
      | |- keeps_graph (if ?b then _ else _) => destruct b
      | |- keeps_graph (match ?x with _ => _ end) => destruct x
      end ].

Section FurtherTrustProperties.

Variable semantic_scholar : string -> option Z.
Variable openalex : string -> option pyval.
Variable float_of_string : string -> option Q.
Variable float_repr : Q -> string.

Local Abbreviation calculate :=
  (calculate_trust_score semantic_scholar float_of_string float_repr).
Local Abbreviation classify := (_classify_document_type float_of_string float_repr).

Lemma keeps_graph_classify (text : string) (classifier : option model) (n : nat) :
  keeps_graph (classify text classifier n).
Proof. unfold _classify_document_type. keeps_graph_tac. Qed.

Lemma keeps_graph_calculate (text : string) (doi : option string)
    (classifier : option model) :
  keeps_graph (calculate text doi classifier).
Proof.
  unfold calculate_trust_score, fetch_citation_count.
  pose proof (keeps_graph_classify text classifier (Z.to_nat 12000)).
  keeps_graph_tac; assumption.
Qed.

Lemma keeps_graph_get_trust_score (title dt : string) :
  keeps_graph (get_trust_score openalex title dt).
Proof. unfold get_trust_score, _query_openalex. keeps_graph_tac. Qed.

Lemma keeps_graph_document_trust (text : string) (doi : option string) (stem : string)
    (m : model) :
  keeps_graph (document_trust semantic_scholar openalex float_of_string float_repr
                 text doi stem m).
Proof.
  unfold document_trust.
  pose proof (keeps_graph_calculate text doi (Some m)).
  apply keeps_graph_bind; [assumption|]. intros [t meta].
  apply keeps_graph_bind; [apply keeps_graph_lift|]. intros dt.
  apply keeps_graph_bind; [apply keeps_graph_get_trust_score|]. intros b.
  apply keeps_graph_ret.
Qed.

(** The classification never raises: whatever goes wrong inside is
    answered by the fallback label. *)
Lemma classify_returns (text : string) (classifier : option model) (n : nat) (w : world) :
  exists r w', classify text classifier n w = (Ok r, w').
Proof.
  unfold _classify_document_type. destruct classifier as [invoke|].
  - unfold try_except.
    match goal with |- context [match ?m w with _ => _ end] => destruct (m w) as [[a|e] w1] end;
      eexists; eexists; reflexivity.
  - eexists; eexists; reflexivity.
Qed.

Lemma calculate_returns (text : string) (doi : option string)
    (classifier : option model) (w : world) :
  exists t details w', calculate text doi classifier w = (Ok (t, details), w').
Proof.
  assert (Hs : forall w, exists t details w',
               calculate text None classifier w = (Ok (t, details), w')).
  { intros w1. unfold calculate_trust_score. unfold bind.
    destruct (classify_returns text classifier (Z.to_nat 12000) w1) as [[[dt c] r] [w' E]].
    rewrite E. eexists; eexists; eexists; reflexivity. }
  destruct doi as [d|]; [|apply Hs].
  destruct (truthy_str d) eqn:Hd.
  - destruct (semantic_scholar d) as [c|] eqn:Hc.
    + unfold calculate_trust_score, fetch_citation_count. rewrite Hd.
      unfold_M. simpl. rewrite Hc.
      destruct (50 <? c)%Z; [|destruct (0 <? c)%Z]; eexists; eexists; eexists; reflexivity.
    + rewrite (calculate_trust_score_lookup_failed _ _ _ text d classifier w Hd Hc).
      apply Hs.
  - destruct (Hs w) as (t & details & w' & E). exists t, details, w'.
    unfold calculate_trust_score in *. rewrite Hd. exact E.
Qed.

(** X1: the text path never raises; it answers a trust between 0.5 and
    1, and leaves the graph alone. *)
Theorem calculate_trust_score_total (text : string) (doi : option string)
    (classifier : option model) (w : world) :
  exists t details w',
    calculate text doi classifier w = (Ok (t, details), w')
    /\ 0.5 <= t /\ t <= 1
    /\ graph_db w' = graph_db w.
Proof.
  destruct (calculate_returns text doi classifier w) as (t & details & w' & E).
  exists t, details, w'. split; [exact E|].
  destruct (calculate_trust_score_bounds _ _ _ _ _ _ _ _ _ _ E) as [H1 H2].
  split; [exact H1|]. split; [exact H2|].
  pose proof (keeps_graph_calculate text doi classifier w) as Hk.
  rewrite E in Hk. exact Hk.
Qed.

(** X2: the classification degrades instead of raising. Without a
    classifier it answers OTHER and calls nothing; with one it makes
    exactly one call and returns; and when the answer is not a JSON
    object (or the call fails) it answers OTHER with confidence 0. *)
Theorem classify_document_type_degrades
    (text : string) (n : nat) (invoke : model) (w : world) :
  let prompt := DOC_TYPE_PROMPT (take n text) in
  let w1 := mkWorld (trace w ++ [ClassifierCall prompt]) (graph_db w) in
  classify text None n w = (Ok ("OTHER"%string, 0.0, "classifier missing"%string), w)
  /\ (exists r, classify text (Some invoke) n w = (Ok r, w1))
  /\ ((forall d, invoke prompt <> Some (PDict d)) ->
      classify text (Some invoke) n w
      = (Ok ("OTHER"%string, 0.0, "classification failed"%string), w1)).
Proof.
  intros prompt w1. split; [reflexivity|]. split.
  - unfold _classify_document_type. fold prompt. unfold_M. simpl.
    destruct (invoke prompt) as [data|]; [|eexists; reflexivity].
    destruct data; simpl; try (eexists; reflexivity).
    repeat match goal with
           | |- context [if ?b then _ else _] => destruct b; simpl
           | |- context [match py_float ?f ?c with _ => _ end] =>
               destruct (py_float f c); simpl
           end; eexists; reflexivity.
  - intros Hnd. unfold _classify_document_type. fold prompt. unfold_M. simpl.
    destruct (invoke prompt) as [data|] eqn:E; [|reflexivity].
    destruct data; simpl; try reflexivity.
    exfalso. eapply Hnd. reflexivity.
Qed.

(** X4: a retracted OpenAlex record makes the title path answer 0.1,
    whatever the citation count, after exactly one lookup. *)
Theorem get_trust_score_retracted_is_floor
    (title dt : string) (d : list (string * pyval)) (w : world) :
  str_in (lower dt) ["note"%string; "lab_note"%string; "labnote"%string] = false ->
  openalex title = Some (PDict d) ->
  truthy (get_default "is_retracted" (PBool false) d) = true ->
  get_trust_score openalex title dt w
  = (Ok 0.1, mkWorld (trace w ++ [OpenAlexLookup title]) (graph_db w)).
Proof.
  intros Hdt Ho Hr. unfold get_trust_score, _query_openalex. rewrite Hdt.
  unfold_M. simpl. rewrite Ho.
  assert (Hd : truthy (PDict d) = true).
  { destruct d; [discriminate Hr | reflexivity]. }
  rewrite Hd. simpl. rewrite Hr. reflexivity.
Qed.

(** X5: for a work that is not retracted and has an integer citation
    count, the title path answers 0.95 above 100 citations, 0.85 from 11
    to 100, and 0.75 for 10 or fewer. *)
Theorem get_trust_score_title_buckets
    (title dt : string) (d : list (string * pyval)) (c : Z) (w : world) :
  str_in (lower dt) ["note"%string; "lab_note"%string; "labnote"%string] = false ->
  openalex title = Some (PDict d) ->
  d <> [] ->
  truthy (get_default "is_retracted" (PBool false) d) = false ->
  get_default "cited_by_count" (PInt 0) d = PInt c ->
  exists t,
    get_trust_score openalex title dt w
    = (Ok t, mkWorld (trace w ++ [OpenAlexLookup title]) (graph_db w))
    /\ ((100 < c)%Z -> t = 0.95)
    /\ ((10 < c <= 100)%Z -> t = 0.85)
    /\ ((c <= 10)%Z -> t = 0.75).
Proof.
  intros Hdt Ho Hd Hr Hc. unfold get_trust_score, _query_openalex. rewrite Hdt.
  unfold_M. simpl. rewrite Ho.
  assert (Ht : truthy (PDict d) = true) by (destruct d; [congruence | reflexivity]).
  rewrite Ht. simpl. rewrite Hr, Hc. simpl.
  destruct (100 <? c)%Z eqn:E100; [|destruct (10 <? c)%Z eqn:E10];
    eexists; (split; [reflexivity|]); repeat split; intros; try reflexivity; lia.
Qed.

(** X6: a record that is not retracted and whose citation count is
    [null] makes the title path raise [TypeError] after the lookup; the
    comparison with 100 is not protected. *)
Theorem get_trust_score_null_count_raises
    (title dt : string) (d : list (string * pyval)) (w : world) :
  str_in (lower dt) ["note"%string; "lab_note"%string; "labnote"%string] = false ->
  openalex title = Some (PDict d) ->
  truthy (get_default "is_retracted" (PBool false) d) = false ->
  get_default "cited_by_count" (PInt 0) d = PNone ->
  get_trust_score openalex title dt w
  = (Raise TypeError, mkWorld (trace w ++ [OpenAlexLookup title]) (graph_db w)).
Proof.
  intros Hdt Ho Hr Hc. unfold get_trust_score, _query_openalex. rewrite Hdt.
  unfold_M. simpl. rewrite Ho.
  assert (Ht : truthy (PDict d) = true).
  { destruct d; [discriminate Hc | reflexivity]. }
  rewrite Ht. simpl. rewrite Hr, Hc. reflexivity.
Qed.

Lemma get_trust_score_range (title dt : string) (w w' : world) (t : Q) :
  get_trust_score openalex title dt w = (Ok t, w') -> 0.1 <= t /\ t <= 1.
Proof.
  unfold get_trust_score, _query_openalex. unfold_M. simpl.
  repeat match goal with
         | |- context [if ?b then _ else _] => destruct b; simpl
         | |- context [match openalex title with _ => _ end] =>
             destruct (openalex title); simpl
         | |- context [match attr_get ?a ?b ?c with _ => _ end] =>
             destruct (attr_get a b c); simpl
         | |- context [match py_gt ?a ?b with _ => _ end] =>
             destruct (py_gt a b); simpl
         end;
    intros H; inversion H; subst; split; unfold Qle; simpl; lia.
Qed.

Lemma py_max_le (a b c : Q) : a <= c -> b <= c -> py_max a b <= c.
Proof. intros Ha Hb. unfold py_max. destruct (Qle_bool b a); assumption. Qed.

Lemma document_trust_le_one
    (text : string) (doi : option string) (stem : string) (m : model)
    (w w' : world) (t : Q) :
  document_trust semantic_scholar openalex float_of_string float_repr
    text doi stem m w = (Ok t, w') ->
  t <= 1.
Proof.
  unfold document_trust. unfold bind at 1.
  destruct (calculate text doi (Some m) w) as [[[t1 meta]|e] w1] eqn:E1; [|discriminate].
  apply calculate_trust_score_bounds in E1. destruct E1 as [_ U1].
  unfold bind at 1.
  destruct (lift _ w1) as [[dt|e] w2]; [|discriminate].
  unfold bind at 1.
  destruct (get_trust_score openalex stem dt w2) as [[b|e] w3] eqn:E3; [|discriminate].
  apply get_trust_score_range in E3. destruct E3 as [_ U3].
  unfold ret. intros H. inversion H; subst. now apply py_max_le.
Qed.

(** X7: the trust the pipeline computes for a document, when the
    computation returns, lies between 0.5 and 1, and computing it leaves
    the graph alone. *)
Theorem document_trust_bounds
    (text : string) (doi : option string) (stem : string) (m : model)
    (w w' : world) (t : Q) :
  document_trust semantic_scholar openalex float_of_string float_repr
    text doi stem m w = (Ok t, w') ->
  0.5 <= t /\ t <= 1 /\ graph_db w' = graph_db w.
Proof.
  intros H.
  pose proof (keeps_graph_document_trust text doi stem m w) as Hk.
  rewrite H in Hk. simpl in Hk.
  revert H. unfold document_trust. unfold bind at 1.
  destruct (calculate text doi (Some m) w) as [[[t1 meta]|e] w1] eqn:E1; [|discriminate].
  apply calculate_trust_score_bounds in E1. destruct E1 as [L1 U1].
  unfold bind at 1.
  destruct (lift _ w1) as [[dt|e] w2]; [|discriminate].
  unfold bind at 1.
  destruct (get_trust_score openalex stem dt w2) as [[b|e] w3] eqn:E3; [|discriminate].
  apply get_trust_score_range in E3. destruct E3 as [_ U3].
  unfold ret. intros H. inversion H; subst.
  split; [|split; [|exact Hk]].
  - eapply Qle_trans; [exact L1 | apply py_max_ge_l].
  - now apply py_max_le.
Qed.

End FurtherTrustProperties.

Lemma classify_document_type_degrades_witness :
  _classify_document_type no_float plain_repr "text" (Some array_classifier) 100 w0
  = (Ok ("OTHER"%string, 0.0, "classification failed"%string),
     mkWorld (trace w0 ++ [ClassifierCall (DOC_TYPE_PROMPT (take 100 "text"))])
             (graph_db w0)).
Proof.
  destruct (classify_document_type_degrades no_float plain_repr "text" 100
              array_classifier w0) as (_ & _ & H).
  apply H. intros d. discriminate.
Defined.

Lemma get_trust_score_retracted_is_floor_witness :
  get_trust_score (fun _ => Some retracted_work) "paper" "Paper" w0
  = (Ok 0.1, mkWorld (trace w0 ++ [OpenAlexLookup "paper"]) (graph_db w0)).
Proof.
  apply (get_trust_score_retracted_is_floor (fun _ => Some retracted_work) "paper" "Paper"
           [("cited_by_count"%string, PInt 500); ("is_retracted"%string, PBool true)] w0);
    reflexivity.
Defined.

Lemma get_trust_score_title_buckets_witness :
  exists t,
    get_trust_score (fun _ => Some cited_work) "paper" "Paper" w0
    = (Ok t, mkWorld (trace w0 ++ [OpenAlexLookup "paper"]) (graph_db w0))
    /\ t = 0.95.
Proof.
  destruct (get_trust_score_title_buckets (fun _ => Some cited_work) "paper" "Paper"
              [("cited_by_count"%string, PInt 250); ("is_retracted"%string, PBool false)]
              250 w0) as (t & E & H & _).
  - reflexivity.
  - reflexivity.
  - discriminate.
  - reflexivity.
  - reflexivity.
  - exists t. split; [exact E | apply H; lia].
Defined.

Lemma get_trust_score_null_count_raises_witness :
  get_trust_score (fun _ => Some uncounted_work) "paper" "Paper" w0
  = (Raise TypeError, mkWorld (trace w0 ++ [OpenAlexLookup "paper"]) (graph_db w0)).
Proof.
  apply (get_trust_score_null_count_raises (fun _ => Some uncounted_work) "paper" "Paper"
           [("cited_by_count"%string, PNone)] w0); reflexivity.
Defined.

Lemma document_trust_bounds_witness :
  0.5 <= 0.5 /\ 0.5 <= 1
  /\ graph_db (snd (document_trust (fun _ => None) (fun _ => Some retracted_work)
                      no_float plain_repr "some text" None "paper" other_classifier w0))
     = graph_db w0.
Proof.
  apply (document_trust_bounds (fun _ => None) (fun _ => Some retracted_work)
           no_float plain_repr "some text" None "paper" other_classifier w0).
  vm_compute. reflexivity.
Defined.

(** ** Letter case *)

Lemma upper_char_upper_char (c : ascii) : upper_char (upper_char c) = upper_char c.
Proof. destruct c as [[] [] [] [] [] [] [] []]; reflexivity. Qed.

Lemma upper_char_lower_char (c : ascii) : upper_char (lower_char c) = upper_char c.
Proof. destruct c as [[] [] [] [] [] [] [] []]; reflexivity. Qed.

Lemma map_string_map_string (f g : ascii -> ascii) (s : string) :
  map_string f (map_string g s) = map_string (fun c => f (g c)) s.
Proof. induction s as [|c r IH]; simpl; [reflexivity | now rewrite IH]. Qed.

Lemma map_string_ext (f g : ascii -> ascii) (s : string) :
  (forall c, f c = g c) -> map_string f s = map_string g s.
Proof.
  intros H. induction s as [|c r IH]; simpl; [reflexivity | now rewrite H, IH].
Qed.

Lemma upper_upper (s : string) : upper (upper s) = upper s.
Proof.
  unfold upper. rewrite map_string_map_string.
  apply map_string_ext. apply upper_char_upper_char.
Qed.

Lemma upper_lower (s : string) : upper (lower s) = upper s.
Proof.
  unfold upper, lower. rewrite map_string_map_string.
  apply map_string_ext. apply upper_char_lower_char.
Qed.

(** X3: on an ASCII label the trust of a document type does not depend
    on the letter case; on every label it lies between 0.5 and 1. *)
Theorem trust_from_doc_type_case_insensitive (doc_type : string) :
  (is_ascii doc_type = true ->
   _trust_from_doc_type (lower doc_type) = _trust_from_doc_type doc_type
   /\ _trust_from_doc_type (upper doc_type) = _trust_from_doc_type doc_type)
  /\ 0.5 <= _trust_from_doc_type doc_type <= 1.
Proof.
  split; [|apply _trust_from_doc_type_bounds].
  intros _. unfold _trust_from_doc_type. rewrite upper_lower, upper_upper.
  split; reflexivity.
Qed.

Lemma trust_from_doc_type_case_insensitive_witness :
  _trust_from_doc_type "textbook" = _trust_from_doc_type "Textbook"
  /\ _trust_from_doc_type "TEXTBOOK" = _trust_from_doc_type "Textbook"
  /\ _trust_from_doc_type "Textbook" == 0.9.
Proof.
  destruct (trust_from_doc_type_case_insensitive "Textbook") as [Hcase _].
  destruct (Hcase eq_refl) as [Hl Hu].
  split; [exact Hl|]. split; [exact Hu | reflexivity].
Defined.

(** ** Identifier search *)

Lemma re_search_doi_eq (s : string) :
  re_search_doi s
  = match match_doi_here s with
    | Some m => Some m
    | None => match s with
              | EmptyString => None
              | String _ r => re_search_doi r
              end
    end.
Proof. destruct s; reflexivity. Qed.

Lemma re_search_doi_suffix (text m : string) :
  re_search_doi text = Some m ->
  exists pre s, text = (pre ++ s)%string /\ match_doi_here s = Some m.
Proof.
  induction text as [|c r IH]; intros H; rewrite re_search_doi_eq in H.
  - destruct (match_doi_here "") eqn:E; [|discriminate H].
    inversion H; subst. exists ""%string, ""%string. auto.
  - destruct (match_doi_here (String c r)) as [m'|] eqn:E.
    + inversion H; subst. exists ""%string, (String c r). auto.
    + destruct (IH H) as (pre & s & -> & Hs).
      exists (String c pre), s. auto.
Qed.

Lemma string_all_take_while (f : ascii -> bool) (s : string) :
  string_all f (take_while f s) = true.
Proof.
  induction s as [|c r IH]; simpl; [reflexivity|].
  destruct (f c) eqn:E; simpl; [now rewrite E | reflexivity].
Qed.

Lemma match_doi_here_shape (s m : string) :
  match_doi_here s = Some m ->
  exists ds body,
    m = ("10." ++ ds ++ "/" ++ body)%string
    /\ (4 <= String.length ds <= 9)%nat
    /\ string_all is_digit ds = true
    /\ string_all doi_body_char body = true
    /\ body <> ""%string.
Proof.
  unfold match_doi_here.
  destruct s as [|c1 [|c2 [|c3 r]]]; try discriminate;
    try (destruct c1 as [[] [] [] [] [] [] [] []]; discriminate).
  - destruct c1 as [[] [] [] [] [] [] [] []]; try discriminate.
    destruct c2 as [[] [] [] [] [] [] [] []]; discriminate.
  - destruct c1 as [[] [] [] [] [] [] [] []]; try discriminate.
    destruct c2 as [[] [] [] [] [] [] [] []]; try discriminate.
    destruct c3 as [[] [] [] [] [] [] [] []]; try discriminate.
    cbv zeta.
    destruct ((4 <=? String.length (take_while is_digit r))%nat
              && (String.length (take_while is_digit r) <=? 9)%nat) eqn:El;
      [|discriminate].
    destruct (drop_while is_digit r) as [|c4 r2]; [discriminate|].
    destruct c4 as [[] [] [] [] [] [] [] []]; try discriminate.
    destruct (take_while doi_body_char r2 =? "")%string eqn:Eb; [discriminate|].
    intros H. inversion H; subst.
    exists (take_while is_digit r), (take_while doi_body_char r2).
    apply andb_true_iff in El. destruct El as [E1 E2].
    apply Nat.leb_le in E1. apply Nat.leb_le in E2.
    repeat split; auto using string_all_take_while.
    now apply string_eqb_empty.
Qed.

Lemma rstrip_chars_app_keep (f : ascii -> bool) (a b : string) (c : ascii) :
  f c = false ->
  rstrip_chars f (a ++ String c b) = (a ++ String c (rstrip_chars f b))%string.
Proof.
  intros Hc. induction a as [|x a' IH]; simpl.
  - destruct (rstrip_chars f b); [now rewrite Hc | reflexivity].
  - rewrite IH. destruct a'; reflexivity.
Qed.

Lemma rstrip_chars_last (f : ascii -> bool) (s x : string) (c : ascii) :
  rstrip_chars f s = (x ++ String c "")%string -> f c = false.
Proof.
  revert x. induction s as [|a r IH]; intros x H; simpl in H.
  - destruct x; discriminate H.
  - destruct (rstrip_chars f r) as [|b r'] eqn:E.
    + destruct (f a) eqn:Ea.
      * destruct x; discriminate H.
      * destruct x as [|y x']; simpl in H.
        -- inversion H; subst. exact Ea.
        -- inversion H. destruct x'; discriminate.
    + destruct x as [|y x']; simpl in H.
      * inversion H.
      * inversion H; subst. eapply IH. eassumption.
Qed.

Lemma string_all_rstrip_chars (f g : ascii -> bool) (s : string) :
  string_all g s = true -> string_all g (rstrip_chars f s) = true.
Proof.
  induction s as [|a r IH]; simpl; [auto|]. intros H.
  apply andb_true_iff in H. destruct H as [Ha Hr]. specialize (IH Hr).
  destruct (rstrip_chars f r).
  - destruct (f a); simpl; [reflexivity | now rewrite Ha].
  - simpl in *. now rewrite Ha, IH.
Qed.

(** X8: an identifier found by [find_doi] is "10." followed by 4 to 9
    digits, a slash and a rest free of whitespace, quotes, [>] and [)]
    that does not end with one of [.,;)]; in particular it is never
    empty, so the text path always looks it up. *)
Theorem find_doi_shape (text d : string) :
  find_doi text = Some d ->
  exists ds rest,
    d = ("10." ++ ds ++ "/" ++ rest)%string
    /\ (4 <= String.length ds <= 9)%nat
    /\ string_all is_digit ds = true
    /\ string_all doi_body_char rest = true
    /\ (forall x c, rest = (x ++ String c "")%string -> doi_trailing c = false)
    /\ truthy_str d = true.
Proof.
  assert (Heq : find_doi text = option_map (rstrip_chars doi_trailing) (re_search_doi text)).
  { unfold find_doi. destruct (re_search_doi text); reflexivity. }
  rewrite Heq. destruct (re_search_doi text) as [m|] eqn:E; [|discriminate].
  simpl. intros H. inversion H; subst. clear H.
  destruct (re_search_doi_suffix text m E) as (pre & s & _ & Hm).
  destruct (match_doi_here_shape s m Hm) as (ds & body & -> & Hlen & Hds & Hbody & _).
  assert (Hd : rstrip_chars doi_trailing ("10." ++ ds ++ "/" ++ body)
               = ("10." ++ ds ++ "/" ++ rstrip_chars doi_trailing body)%string).
  { change ("10." ++ ds ++ "/" ++ body)%string
      with (("10." ++ ds) ++ String "/" body)%string.
    rewrite rstrip_chars_app_keep by reflexivity. reflexivity. }
  rewrite Hd.
  exists ds, (rstrip_chars doi_trailing body).
  split; [reflexivity|].
  split; [exact Hlen|]. split; [exact Hds|].
  split; [now apply string_all_rstrip_chars|].
  split; [intros x c Hx; eapply rstrip_chars_last; exact Hx|].
  reflexivity.
Qed.

Lemma find_doi_shape_witness :
  exists ds rest,
    "10.1234/abc.def"%string = ("10." ++ ds ++ "/" ++ rest)%string
    /\ (4 <= String.length ds <= 9)%nat.
Proof.
  destruct (find_doi_shape "See doi: 10.1234/abc.def. for details" "10.1234/abc.def"
              eq_refl) as (ds & rest & H1 & H2 & _).
  exists ds, rest. auto.
Defined.

(** ** The save step never fails and never removes anything *)

Lemma grows_refl (g : graph) : grows g g.
Proof.
  split; [|lia]. exists []. rewrite app_nil_r. split; [reflexivity | constructor].
Qed.

Lemma grows_trans (g1 g2 g3 : graph) : grows g1 g2 -> grows g2 g3 -> grows g1 g3.
Proof.
  intros [(e1 & H1 & F1) L1] [(e2 & H2 & F2) L2]. split; [|lia].
  exists (e1 ++ e2). rewrite H2, H1, app_assoc. split; [reflexivity|].
  apply Forall_app. auto.
Qed.

Lemma grows_merge_concept (nm : string) (g : graph) :
  grows g (fst (merge_node Concept nm g)).
Proof.
  unfold merge_node. destruct (match_nodes Concept nm g); simpl.
  - split; [|simpl; lia]. eexists. split; [reflexivity|].
    constructor; [|constructor]. simpl. auto.
  - apply grows_refl.
Qed.

Lemma length_rels_fold_set_relation (f : graph -> relation -> relation)
    (ids : list nat) (g : graph) :
  length (rels (fold_left (fun g' r => set_relation r (f g') g') ids g))
  = length (rels g).
Proof.
  revert g. induction ids as [|i rest IH]; intros g; simpl; [reflexivity|].
  rewrite IH. simpl. apply length_update_nth.
Qed.

Lemma grows_merge_relation (ty : string) (row : nat * nat * nat) (g : graph) :
  grows g (fst (merge_relation ty row g)).
Proof.
  split.
  - exists []. rewrite app_nil_r, nodes_merge_relation. split; [reflexivity | constructor].
  - destruct row as [[d s] o]. unfold merge_relation.
    destruct (match_relations s o ty g) as [|j js].
    + simpl. rewrite length_app. simpl. lia.
    + remember (j :: js) as ids eqn:Hids. clear Hids. cbn [fst].
      rewrite (length_rels_fold_set_relation (fun g' => on_match_set d g')). lia.
Qed.

Lemma grows_upsert_triple (source subj pred obj : string) (g : graph) :
  grows g (upsert_triple source subj pred obj g).
Proof.
  unfold upsert_triple.
  match goal with
  | |- context [for_each_row ?st ?rows g] =>
      pose proof (for_each_row_preserves st (grows g)) as H1;
      specialize (H1 (fun r g0 Hg0 =>
                        ltac:(simpl; pose proof (grows_merge_concept subj g0) as Hm;
                              destruct (merge_node Concept subj g0);
                              exact (grows_trans _ _ _ Hg0 Hm))) rows g (grows_refl g));
      destruct (for_each_row st rows g) as [g1 rows1]
  end.
  simpl in H1.
  match goal with
  | |- context [for_each_row ?st ?rows g1] =>
      pose proof (for_each_row_preserves st (grows g)) as H2;
      specialize (H2 (fun r g0 Hg0 =>
                        ltac:(simpl; pose proof (grows_merge_concept obj g0) as Hm;
                              destruct (merge_node Concept obj g0);
                              exact (grows_trans _ _ _ Hg0 Hm))) rows g1 H1);
      destruct (for_each_row st rows g1) as [g2 rows2]
  end.
  simpl in H2.
  apply (for_each_row_preserves (merge_relation pred) (grows g)); [|exact H2].
  intros r g0 Hg0. eapply grows_trans; [exact Hg0 | apply grows_merge_relation].
Qed.

(** X9: called as its only caller does, on triples whose values are
    texts, the save step never raises, whatever keys the triples hold and
    whatever the state of the driver; it leaves the call trace, the
    driver and the clock alone; every node stays where it was, unchanged,
    the only new nodes being Concepts; and no relationship is removed. *)
Theorem save_to_graph_total
    (triples : list (list (string * string))) (source : string) (w : world) :
  exists w',
    _save_to_graph triples source w = (Ok tt, w')
    /\ trace w' = trace w
    /\ driver_up (graph_db w') = driver_up (graph_db w)
    /\ clock (graph_db w') = clock (graph_db w)
    /\ grows (db (graph_db w)) (db (graph_db w')).
Proof.
  revert w. induction triples as [|triple rest IH]; intros w.
  - exists w. repeat split; try reflexivity; try lia; apply grows_refl.
  - destruct (save_to_graph_cons triple rest source w) as [w1 [E Hw1]].
    destruct (IH w1) as (w' & E' & Ht & Hu & Hc & Hg).
    exists w'. rewrite E. split; [exact E'|].
    destruct Hw1 as [->|(subj & pred & obj & _ & _ & _ & Hup & ->)];
      [split; [exact Ht|]; split; [exact Hu|]; split; [exact Hc | exact Hg]|].
    simpl in *. rewrite Hup.
    split; [exact Ht|]. split; [exact Hu|]. split; [exact Hc|].
    eapply grows_trans; [apply grows_upsert_triple | exact Hg].
Qed.

(** X10: with the driver down every write of the save step fails and is
    swallowed: the step returns normally and the world is as it was. *)
Theorem save_to_graph_driver_down
    (triples : list (list (string * string))) (source : string) (w : world) :
  driver_up (graph_db w) = false ->
  _save_to_graph triples source w = (Ok tt, w).
Proof.
  intros Hdown. induction triples as [|triple rest IH]; [reflexivity|].
  destruct (save_to_graph_cons triple rest source w) as [w1 [E Hw1]].
  rewrite E. destruct Hw1 as [->|(subj & pred & obj & _ & _ & _ & Hup & _)].
  - exact IH.
  - congruence.
Qed.

(** X11: triples lacking one of the keys subject, predicate, object are
    skipped: a list made of such triples writes nothing. *)
Theorem save_to_graph_incomplete
    (triples : list (list (string * string))) (source : string) (w : world) :
  Forall incomplete triples ->
  _save_to_graph triples source w = (Ok tt, w).
Proof.
  intros H. induction H as [|triple rest Hi Hrest IH]; [reflexivity|].
  destruct (save_to_graph_cons triple rest source w) as [w1 [E Hw1]].
  rewrite E. destruct Hw1 as [->|(subj & pred & obj & Hs & Hp & Ho & _ & _)].
  - exact IH.
  - exfalso. unfold incomplete in Hi.
    assert (Hk : forall k v, table_get k triple = Some v -> has_key k triple = true).
    { clear. intros k v. unfold has_key. induction triple as [|[k' v'] r IHr]; simpl.
      - discriminate.
      - destruct (k' =? k)%string; simpl; auto. }
    rewrite (Hk _ _ Hs), (Hk _ _ Hp), (Hk _ _ Ho) in Hi. discriminate Hi.
Qed.

Lemma save_to_graph_driver_down_witness :
  _save_to_graph [sample_triple] "doc1.pdf" w_down = (Ok tt, w_down).
Proof.
  apply (save_to_graph_driver_down [sample_triple] "doc1.pdf" w_down). reflexivity.
Defined.

Lemma save_to_graph_incomplete_witness :
  _save_to_graph [incomplete_triple] "doc1.pdf" w_doc = (Ok tt, w_doc).
Proof.
  apply (save_to_graph_incomplete [incomplete_triple] "doc1.pdf" w_doc).
  constructor; [reflexivity | constructor].
Defined.

(** ** The shape of every reachable graph *)

Lemma filter_combine_update_nth_at {A} (P : A -> bool) (f : A -> A) (l : list A)
    (i a : nat) :
  (forall x, nth_error l i = Some x -> P (f x) = P x) ->
  map fst (filter (fun p => P (snd p)) (combine (seq a (length (update_nth i f l)))
                                                (update_nth i f l)))
  = map fst (filter (fun p => P (snd p)) (combine (seq a (length l)) l)).
Proof.
  revert i a. induction l as [|x r IH]; intros i a Hf; destruct i; simpl.
  - reflexivity.
  - reflexivity.
  - rewrite (Hf x eq_refl). destruct (P x); reflexivity.
  - destruct (P x); simpl; rewrite IH; auto.
Qed.

Lemma match_nodes_set_node (lbl : label) (nm : string) (i : nat) (f : node -> node)
    (g : graph) :
  (forall x, nth_error (nodes g) i = Some x ->
             label_eqb (node_label (f x)) lbl && (name (f x) =? nm)%string
             = label_eqb (node_label x) lbl && (name x =? nm)%string) ->
  match_nodes lbl nm (set_node i f g) = match_nodes lbl nm g.
Proof.
  intros Hf. unfold match_nodes, set_node, indexed. simpl nodes.
  apply (filter_combine_update_nth_at
           (fun n => label_eqb (node_label n) lbl && (name n =? nm)%string)
           f (nodes g) i 0 Hf).
Qed.

Lemma is_concept_add_node (n : node) (g : graph) (i : nat) :
  is_concept g i -> is_concept (add_node n g) i.
Proof.
  intros [x [Hx Hl]]. exists x. split; [|exact Hl]. simpl.
  rewrite nth_error_app1; [exact Hx|]. apply nth_error_Some. congruence.
Qed.

Lemma is_concept_set_node (j : nat) (f : node -> node) (g : graph) (i : nat) :
  (forall x, node_label (f x) = node_label x) ->
  is_concept g i -> is_concept (set_node j f g) i.
Proof.
  intros Hf [x [Hx Hl]]. unfold is_concept. simpl. rewrite nth_error_update_nth, Hx.
  destruct (i =? j)%nat; simpl; eexists; split; try reflexivity; try assumption.
  now rewrite Hf.
Qed.

Lemma is_concept_same_nodes (g g' : graph) (i : nat) :
  nodes g' = nodes g -> is_concept g i -> is_concept g' i.
Proof. unfold is_concept. intros ->. auto. Qed.

Lemma is_concept_merge_node (lbl : label) (nm : string) (g : graph) (i : nat) :
  is_concept g i -> is_concept (fst (merge_node lbl nm g)) i.
Proof.
  intros H. unfold merge_node. destruct (match_nodes lbl nm g); simpl; auto.
  now apply is_concept_add_node.
Qed.

Lemma concept_edges_lift (g g' : graph) :
  rels g' = rels g ->
  (forall i, is_concept g i -> is_concept g' i) ->
  concept_edges g -> concept_edges g'.
Proof.
  unfold concept_edges. intros -> H Hc. eapply Forall_impl; [|exact Hc].
  intros r [H1 H2]. auto.
Qed.

Lemma documents_unique_same (g g' : graph) :
  (forall nm, match_nodes Document nm g' = match_nodes Document nm g) ->
  documents_unique g -> documents_unique g'.
Proof. intros H Hu nm. rewrite H. apply Hu. Qed.

Lemma match_documents_add_concept (nm nm' : string) (g : graph) :
  match_nodes Document nm' (add_node (mkNode Concept nm None None) g)
  = match_nodes Document nm' g.
Proof. rewrite match_nodes_add_node. simpl. apply app_nil_r. Qed.

Lemma model_invariant_merge_concept (nm : string) (g : graph) :
  model_invariant g -> model_invariant (fst (merge_node Concept nm g)).
Proof.
  intros [Hc Hu]. unfold merge_node. destruct (match_nodes Concept nm g); simpl.
  - split.
    + apply (concept_edges_lift g); [reflexivity | | exact Hc].
      intros i. apply is_concept_add_node.
    + eapply documents_unique_same; [|exact Hu].
      intros nm'. apply match_documents_add_concept.
  - split; assumption.
Qed.

Lemma merge_concept_outputs (nm : string) (g : graph) :
  Forall (is_concept (fst (merge_node Concept nm g))) (snd (merge_node Concept nm g)).
Proof.
  unfold merge_node. destruct (match_nodes Concept nm g) as [|j js] eqn:E; simpl.
  - constructor; [|constructor]. eexists. split.
    + simpl. rewrite nth_error_app2 by lia. rewrite Nat.sub_diag. reflexivity.
    + reflexivity.
  - apply Forall_forall. intros i Hi. rewrite <- E in Hi.
    apply In_match_nodes in Hi. destruct (is_named_nth _ _ _ _ Hi) as (n & Hn & Hl & _).
    exists n. auto.
Qed.

Lemma model_invariant_merge_relation (ty : string) (d s o : nat) (g : graph) :
  model_invariant g -> is_concept g s -> is_concept g o ->
  model_invariant (fst (merge_relation ty (d, s, o) g)).
Proof.
  intros [Hc Hu] Hs Ho. split.
  - unfold merge_relation. destruct (match_relations s o ty g) as [|j js].
    + simpl. unfold concept_edges. simpl. apply Forall_app. split.
      * exact Hc.
      * constructor; [|constructor]. simpl. split; assumption.
    + remember (j :: js) as ids eqn:Hids. clear Hids. cbn [fst].
      apply (fold_left_preserves concept_edges); [|exact Hc].
      intros g' a Hg'. unfold concept_edges in *. simpl.
      apply Forall_update_nth; [|exact Hg'].
      intros r Hr. exact Hr.
  - eapply documents_unique_same; [|exact Hu].
    intros nm. unfold match_nodes. now rewrite nodes_merge_relation.
Qed.

Lemma model_invariant_upsert_triple (source subj pred obj : string) (g : graph) :
  model_invariant g -> model_invariant (upsert_triple source subj pred obj g).
Proof.
  intros Hi. unfold upsert_triple.
  match goal with
  | |- context [for_each_row ?st ?rows g] =>
      pose proof (for_each_row_inv st model_invariant (fun _ _ => True)
                    (fun (p : nat * nat) g' => is_concept g' (snd p))) as H1;
      destruct (for_each_row st rows g) as [g1 rows1] eqn:E1
  end.
  simpl in H1. destruct (H1) with (rows := match_nodes Document source g) (g := g)
    as [Hi1 Hrows1]; auto.
  { intros d g0 Hg0 _.
    pose proof (model_invariant_merge_concept subj g0 Hg0) as Hm.
    pose proof (merge_concept_outputs subj g0) as Hout.
    destruct (merge_node Concept subj g0) as [g' ss]. simpl in *.
    split; [exact Hm|]. apply Forall_forall. intros p Hp.
    apply in_map_iff in Hp. destruct Hp as [x [<- Hx]]. simpl.
    rewrite Forall_forall in Hout. auto. }
  { intros d p g0 Hg0 _ Hp.
    pose proof (is_concept_merge_node Concept subj g0 (snd p) Hp) as Hm'.
    destruct (merge_node Concept subj g0). exact Hm'. }
  { apply Forall_forall. auto. }
  rewrite E1 in Hi1, Hrows1. simpl in Hi1, Hrows1. clear H1.
  match goal with
  | |- context [for_each_row ?st ?rows g1] =>
      pose proof (for_each_row_inv st model_invariant
                    (fun (p : nat * nat) g' => is_concept g' (snd p))
                    (fun (p : nat * nat * nat) g' =>
                       is_concept g' (snd (fst p)) /\ is_concept g' (snd p))) as H2;
      destruct (for_each_row st rows g1) as [g2 rows2] eqn:E2
  end.
  simpl in H2. destruct (H2) with (rows := rows1) (g := g1) as [Hi2 Hrows2]; auto.
  { intros p g0 Hg0 Hp.
    pose proof (model_invariant_merge_concept obj g0 Hg0) as Hm.
    pose proof (merge_concept_outputs obj g0) as Hout.
    pose proof (is_concept_merge_node Concept obj g0 (snd p) Hp) as Hs.
    destruct (merge_node Concept obj g0) as [g' os]. simpl in *.
    split; [exact Hm|]. apply Forall_forall. intros q Hq.
    apply in_map_iff in Hq. destruct Hq as [x [<- Hx]]. simpl.
    rewrite Forall_forall in Hout. auto. }
  { intros p p' g0 Hg0 _ Hp'.
    pose proof (is_concept_merge_node Concept obj g0 (snd p') Hp') as Hm'.
    destruct (merge_node Concept obj g0). exact Hm'. }
  { intros p q g0 Hg0 _ [Hq1 Hq2].
    pose proof (is_concept_merge_node Concept obj g0 _ Hq1) as Hm1.
    pose proof (is_concept_merge_node Concept obj g0 _ Hq2) as Hm2.
    destruct (merge_node Concept obj g0). split; assumption. }
  rewrite E2 in Hi2, Hrows2. simpl in Hi2, Hrows2. clear H2.
  apply (for_each_row_inv (merge_relation pred) model_invariant
           (fun (p : nat * nat * nat) g' =>
              is_concept g' (snd (fst p)) /\ is_concept g' (snd p))
           (fun (_ : nat) _ => True)); auto.
  - intros [[d s] o] g0 Hg0 [Hs Ho]. simpl in Hs, Ho. split.
    + now apply model_invariant_merge_relation.
    + apply Forall_forall. auto.
  - intros p p' g0 _ _ [Hp1 Hp2].
    split; (eapply is_concept_same_nodes; [apply nodes_merge_relation | assumption]).
Qed.

Lemma model_invariant_merge_document (nm : string) (trust : Q) (now : nat) (g : graph) :
  model_invariant g -> model_invariant (merge_document nm trust now g).
Proof.
  intros [Hc Hu]. unfold merge_document, merge_node.
  destruct (match_nodes Document nm g) as [|j js] eqn:E.
  - simpl. split.
    + apply (concept_edges_lift g); [reflexivity | | exact Hc]. intros i Hi.
      apply is_concept_set_node; [reflexivity|]. now apply is_concept_add_node.
    + intros nm'. rewrite match_nodes_set_node by (intros; reflexivity).
      rewrite match_nodes_add_node. simpl.
      destruct (String.eqb_spec nm nm') as [<-|_].
      * rewrite E. simpl. lia.
      * rewrite app_nil_r. apply Hu.
  - remember (j :: js) as ids eqn:Hids. clear Hids E.
    apply (fold_left_preserves model_invariant); [|split; assumption].
    intros g' a [Hc' Hu']. split.
    + apply (concept_edges_lift g'); [reflexivity | | exact Hc']. intros i.
      apply is_concept_set_node. reflexivity.
    + eapply documents_unique_same; [|exact Hu'].
      intros nm'. apply match_nodes_set_node. intros; reflexivity.
Qed.

Lemma match_documents_rename_concept (nm nm' : string) (i : nat) (g : graph) :
  is_concept g i ->
  match_nodes Document nm'
    (set_node i (fun n => mkNode (node_label n) nm (trust_score n) (ingested_at n)) g)
  = match_nodes Document nm' g.
Proof.
  intros [n [Hn Hl]]. apply match_nodes_set_node.
  intros x Hx. rewrite Hn in Hx. inversion Hx; subst. simpl. rewrite Hl. reflexivity.
Qed.

Lemma model_invariant_commit_set (row : commit_row) (now : nat) (r : relation) (g : graph) :
  model_invariant g -> In r (rels g) ->
  model_invariant (commit_set row now r g).
Proof.
  intros [Hc Hu] Hin.
  assert (Hr : is_concept g (start_node r) /\ is_concept g (end_node r)).
  { unfold concept_edges in Hc. rewrite Forall_forall in Hc. auto. }
  destruct Hr as [Hs He]. unfold commit_set. split.
  - unfold concept_edges. simpl.
    apply Forall_update_nth; [intros x Hx; exact Hx|].
    eapply Forall_impl; [|exact Hc]. intros x [H1 H2].
    split; (apply is_concept_set_node; [reflexivity|];
            eapply is_concept_same_nodes; [reflexivity|];
            apply is_concept_set_node; [reflexivity | assumption]).
  - intros nm'.
    rewrite match_documents_rename_concept.
    + change (length (match_nodes Document nm'
                        (set_node (start_node r)
                           (fun n => mkNode (node_label n) (subject row) (trust_score n)
                                            (ingested_at n)) g)) <= 1)%nat.
      rewrite match_documents_rename_concept by exact Hs. apply Hu.
    + eapply is_concept_same_nodes; [reflexivity|].
      apply is_concept_set_node; [reflexivity | exact He].
Qed.

Lemma model_invariant_commit_rows (rows : list commit_row) (now : nat) (g : graph) :
  model_invariant g -> model_invariant (fst (commit_rows rows now g)).
Proof.
  revert g. induction rows as [|row rest IH]; intros g Hi; simpl; [exact Hi|].
  destruct (nth_error (rels g) (rel_id row)) as [r|] eqn:E; [|now apply IH].
  specialize (IH _ (model_invariant_commit_set row now r g Hi (nth_error_In _ _ E))).
  destruct (commit_rows rest now (commit_set row now r g)). exact IH.
Qed.

Lemma model_invariant_save_to_graph (triples : list (list (string * string)))
    (source : string) (w : world) :
  model_invariant (db (graph_db w)) ->
  model_invariant (db (graph_db (snd (_save_to_graph triples source w)))).
Proof.
  revert w. induction triples as [|triple rest IH]; intros w Hi; [exact Hi|].
  destruct (save_to_graph_cons triple rest source w) as [w1 [E Hw1]].
  rewrite E. apply IH.
  destruct Hw1 as [->|(subj & pred & obj & _ & _ & _ & _ & ->)]; [exact Hi|].
  simpl. now apply model_invariant_upsert_triple.
Qed.

Lemma model_invariant_run (q : statement) (now : nat) (g : graph) :
  model_invariant g -> model_invariant (fst (run q now g)).
Proof.
  intros Hi. destruct q as [nm trust|source subj pred obj|rows|limit]; simpl.
  - now apply model_invariant_merge_document.
  - now apply model_invariant_upsert_triple.
  - pose proof (model_invariant_commit_rows rows now g Hi) as Hc.
    destruct (commit_rows rows now g). exact Hc.
  - exact Hi.
Qed.

Lemma model_invariant_query (q : statement) (w : world) :
  model_invariant (db (graph_db w)) ->
  model_invariant (db (graph_db (snd (query q w)))).
Proof.
  intros Hi. unfold query. destruct (driver_up (graph_db w)); [|exact Hi].
  pose proof (model_invariant_run q (clock (graph_db w)) (db (graph_db w)) Hi) as Hr.
  destruct (run q (clock (graph_db w)) (db (graph_db w))). exact Hr.
Qed.

Lemma model_invariant_perform (o : operation) (w : world) :
  model_invariant (db (graph_db w)) -> model_invariant (db (graph_db (perform w o))).
Proof.
  intros Hi. destruct o as [filename trust|triples source|rows|up now]; simpl.
  - unfold _create_document_node. unfold_M.
    pose proof (model_invariant_query (MergeDocument filename trust) w Hi) as Hq.
    destruct (query (MergeDocument filename trust) w) as [[rs|e] w']; exact Hq.
  - now apply model_invariant_save_to_graph.
  - unfold commit_triples. destruct rows as [|r0 rest]; [exact Hi|].
    unfold_M.
    pose proof (model_invariant_query (CommitRows (r0 :: rest)) w Hi) as Hq.
    destruct (query (CommitRows (r0 :: rest)) w) as [[rs|e] w']; [|exact Hq].
    destruct rs; exact Hq.
  - exact Hi.
Qed.

Lemma model_invariant_fold (ops : list operation) (w : world) :
  model_invariant (db (graph_db w)) ->
  model_invariant (db (graph_db (fold_left perform ops w))).
Proof.
  revert w. induction ops as [|o rest IH]; intros w Hi; simpl; [exact Hi|].
  apply IH. now apply model_invariant_perform.
Qed.

Lemma model_invariant_empty : model_invariant empty_graph.
Proof. split; [constructor | intros nm; simpl; lia]. Qed.

(** X12: starting from the empty graph, after any sequence of document
    creations, graph saves, review commits and changes of connectivity,
    every relationship links two Concept nodes that are in the store. *)
Theorem edges_link_concepts (ops : list operation) (w : world) :
  db (graph_db w) = empty_graph ->
  concept_edges (db (graph_db (fold_left perform ops w)))
  /\ endpoints_exist (db (graph_db (fold_left perform ops w))).
Proof.
  intros He.
  assert (Hi : model_invariant (db (graph_db w))).
  { rewrite He. apply model_invariant_empty. }
  destruct (model_invariant_fold ops w Hi) as [Hc _]. split; [exact Hc|].
  unfold endpoints_exist. eapply Forall_impl; [|exact Hc].
  intros r [[n1 [H1 _]] [n2 [H2 _]]].
  split; apply nth_error_Some; congruence.
Qed.

(** X13: starting from the empty graph, after any such sequence, no two
    Document nodes bear the same name: re-ingestion and review never
    duplicate a document. *)
Theorem document_names_stay_unique (ops : list operation) (w : world) (nm : string) :
  db (graph_db w) = empty_graph ->
  (length (match_nodes Document nm (db (graph_db (fold_left perform ops w)))) <= 1)%nat.
Proof.
  intros He.
  assert (Hi : model_invariant (db (graph_db w))).
  { rewrite He. apply model_invariant_empty. }
  destruct (model_invariant_fold ops w Hi) as [_ Hu]. apply Hu.
Qed.

Lemma edges_link_concepts_witness :
  concept_edges (db (graph_db (fold_left perform two_documents w0)))
  /\ endpoints_exist (db (graph_db (fold_left perform two_documents w0))).
Proof. apply (edges_link_concepts two_documents w0). reflexivity. Defined.

Lemma document_names_stay_unique_witness :
  (length (match_nodes Document "doc1.pdf"
             (db (graph_db (fold_left perform
                              (two_documents ++ [CreateDocument "doc1.pdf" 0.9]) w0)))) <= 1)%nat.
Proof.
  apply (document_names_stay_unique (two_documents ++ [CreateDocument "doc1.pdf" 0.9]) w0).
  reflexivity.
Defined.

(** ** Document creation *)

Lemma match_nodes_fold_set_node (lbl : label) (nm : string) (f : node -> node)
    (ids : list nat) (g : graph) :
  (forall x, node_label (f x) = node_label x /\ name (f x) = name x) ->
  match_nodes lbl nm (fold_left (fun g' d => set_node d f g') ids g) = match_nodes lbl nm g.
Proof.
  intros Hf.
  apply (fold_left_preserves (fun g' => match_nodes lbl nm g' = match_nodes lbl nm g));
    [|reflexivity].
  intros g' a Hg'. rewrite <- Hg'. apply match_nodes_set_node.
  intros x _. destruct (Hf x) as [-> ->]. reflexivity.
Qed.

Lemma doc_trust_set_node (trust : Q) (now : nat) (i d : nat) (g : graph) :
  let f := fun n => mkNode (node_label n) (name n) (Some trust) (Some now) in
  (d = i /\ (d < length (nodes g))%nat) \/ doc_trust d g = Some trust ->
  doc_trust d (set_node i f g) = Some trust.
Proof.
  intros f H. unfold doc_trust, set_node. simpl. rewrite nth_error_update_nth.
  destruct (Nat.eqb_spec d i) as [->|Hne].
  - destruct (nth_error (nodes g) i) as [n|] eqn:E; simpl; [reflexivity|].
    destruct H as [[_ Hlt]|H].
    + apply nth_error_None in E. lia.
    + unfold doc_trust in H. rewrite E in H. discriminate H.
  - destruct H as [[Heq _]|H]; [congruence|]. exact H.
Qed.

Lemma doc_trust_fold_set_node (trust : Q) (now : nat) (ids : list nat) (g : graph) (d : nat) :
  let f := fun n => mkNode (node_label n) (name n) (Some trust) (Some now) in
  (In d ids /\ (d < length (nodes g))%nat) \/ doc_trust d g = Some trust ->
  doc_trust d (fold_left (fun g' i => set_node i f g') ids g) = Some trust.
Proof.
  intros f. revert g. induction ids as [|i rest IH]; intros g H; simpl.
  - destruct H as [[[] _]|H]. exact H.
  - apply IH. destruct H as [[[->|Hin] Hlt]|H].
    + right. apply doc_trust_set_node. left. auto.
    + left. split; [exact Hin|]. simpl. now rewrite length_update_nth.
    + right. apply doc_trust_set_node. right. exact H.
Qed.

Lemma merge_document_post (nm : string) (trust : Q) (now : nat) (g : graph) :
  let g' := merge_document nm trust now g in
  match_nodes Document nm g'
  = match match_nodes Document nm g with
    | [] => [length (nodes g)]
    | ids => ids
    end
  /\ (forall d, In d (match_nodes Document nm g') -> doc_trust d g' = Some trust).
Proof.
  intros g'. subst g'. unfold merge_document, merge_node.
  destruct (match_nodes Document nm g) as [|j js] eqn:E.
  - assert (Hm : match_nodes Document nm
                   (fold_left (fun g' d =>
                                 set_node d (fun n => mkNode (node_label n) (name n)
                                                             (Some trust) (Some now)) g')
                              [length (nodes g)]
                              (add_node (mkNode Document nm None None) g))
                 = [length (nodes g)]).
    { rewrite match_nodes_fold_set_node by (intros; split; reflexivity).
      rewrite match_nodes_add_node, E. simpl. now rewrite String.eqb_refl. }
    split; [exact Hm|]. intros d Hd. rewrite Hm in Hd.
    apply doc_trust_fold_set_node. left. split; [exact Hd|].
    destruct Hd as [<-|[]]. simpl. rewrite length_app. simpl. lia.
  - assert (Hm : match_nodes Document nm
                   (fold_left (fun g' d =>
                                 set_node d (fun n => mkNode (node_label n) (name n)
                                                             (Some trust) (Some now)) g')
                              (j :: js) g)
                 = j :: js).
    { rewrite match_nodes_fold_set_node by (intros; split; reflexivity). exact E. }
    split; [exact Hm|]. intros d Hd. rewrite Hm in Hd.
    apply doc_trust_fold_set_node. left. split; [exact Hd|].
    rewrite <- E in Hd. apply In_match_nodes in Hd.
    destruct (is_named_nth _ _ _ _ Hd) as (n & Hn & _).
    apply nth_error_Some. congruence.
Qed.

(** X14: with the driver up, creating a document returns normally; a
    Document node with that name then exists, every Document node with
    that name carries the new trust score (the last write wins), no node
    is added when one already bore the name, and no relationship is
    touched. *)
Theorem create_document_node_post (filename : string) (trust : Q) (w : world) :
  driver_up (graph_db w) = true ->
  exists w',
    _create_document_node filename trust w = (Ok tt, w')
    /\ trace w' = trace w
    /\ match_nodes Document filename (db (graph_db w'))
       = match match_nodes Document filename (db (graph_db w)) with
         | [] => [length (nodes (db (graph_db w)))]
         | ids => ids
         end
    /\ (forall d, In d (match_nodes Document filename (db (graph_db w'))) ->
                  doc_trust d (db (graph_db w')) = Some trust)
    /\ rels (db (graph_db w')) = rels (db (graph_db w)).
Proof.
  intros Hup.
  exists (mkWorld (trace w)
            (mkConnector true
               (merge_document filename trust (clock (graph_db w)) (db (graph_db w)))
               (clock (graph_db w)))).
  split.
  { unfold _create_document_node, query. unfold_M. rewrite Hup. reflexivity. }
  split; [reflexivity|]. simpl.
  destruct (merge_document_post filename trust (clock (graph_db w)) (db (graph_db w)))
    as [H1 H2].
  split; [exact H1|]. split; [exact H2|]. apply rels_merge_document.
Qed.

Lemma create_document_node_post_witness :
  exists w',
    _create_document_node "doc1.pdf" 0.3 w_doc = (Ok tt, w')
    /\ match_nodes Document "doc1.pdf" (db (graph_db w')) = [O]
    /\ doc_trust 0 (db (graph_db w')) = Some 0.3.
Proof.
  destruct (create_document_node_post "doc1.pdf" 0.3 w_doc eq_refl)
    as (w' & E & _ & Hm & Ht & _).
  exists w'. split; [exact E|]. split; [exact Hm|].
  apply Ht. rewrite Hm. left. reflexivity.
Defined.

(** ** The orchestrator *)

Lemma preserves_keeps_graph {A} (I : graph -> Prop) (m : M A) :
  keeps_graph m -> preserves I m.
Proof. intros Hk w Hi. now rewrite Hk. Qed.

Lemma preserves_ret {A} (I : graph -> Prop) (a : A) : preserves I (ret a).
Proof. intros w Hi. exact Hi. Qed.

Lemma preserves_bind {A B} (I : graph -> Prop) (m : M A) (k : A -> M B) :
  preserves I m -> (forall a, preserves I (k a)) -> preserves I (bind m k).
Proof.
  intros Hm Hk w Hi. unfold bind. specialize (Hm w Hi).
  destruct (m w) as [[a|e] w1]; simpl in *.
  - now apply Hk.
  - exact Hm.
Qed.

Section OrchestratorProperties.

Variable semantic_scholar : string -> option Z.
Variable openalex : string -> option pyval.
Variable float_of_string : string -> option Q.
Variable float_repr : Q -> string.
Variable prompts : list (string * string).
Variable str_format : string -> string -> result string.
Variable vision_model : string -> image -> option string.
Variable extraction_model : model.

Local Abbreviation process :=
  (process_document semantic_scholar openalex float_of_string float_repr
     prompts str_format vision_model extraction_model).
Local Abbreviation trust_of :=
  (document_trust semantic_scholar openalex float_of_string float_repr).

Lemma keeps_graph_analyze_images (imgs : list image) :
  forall i ds, keeps_graph (analyze_images prompts vision_model imgs i ds).
Proof.
  induction imgs as [|img rest IH]; intros i ds; simpl.
  - apply keeps_graph_ret.
  - unfold prompts_get. keeps_graph_tac; apply IH.
Qed.

Lemma keeps_graph_analyze_page_images (pg : page) :
  keeps_graph (_analyze_page_images prompts vision_model pg).
Proof.
  unfold _analyze_page_images.
  apply keeps_graph_bind; [apply keeps_graph_analyze_images|].
  intros. apply keeps_graph_ret.
Qed.

Lemma keeps_graph_extract_knowledge (content : string) :
  keeps_graph (_extract_knowledge float_repr prompts str_format extraction_model content).
Proof.
  unfold _extract_knowledge, prompts_format, prompts_get. keeps_graph_tac.
Qed.

Lemma preserves_process_pages (I : graph -> Prop) (pages : list page) (source : string) :
  (forall triples, preserves I (_save_to_graph triples source)) ->
  preserves I (process_pages float_repr prompts str_format vision_model extraction_model
                 pages source).
Proof.
  intros Hsave. induction pages as [|pg rest IH]; simpl.
  - apply preserves_ret.
  - apply preserves_bind.
    { apply preserves_keeps_graph, keeps_graph_analyze_page_images. }
    intros descr. apply preserves_bind.
    { apply preserves_keeps_graph, keeps_graph_extract_knowledge. }
    intros knowledge. apply preserves_bind; [|intros; exact IH].
    destruct knowledge; [apply preserves_ret | apply Hsave].
Qed.

(** X15: with the driver down, [process_document] raises once the trust
    is computed: the world it leaves is the one left by the trust
    computation, so no Document node is written and no page is looked
    at. *)
Theorem process_document_driver_down (doc : document) (w : world) :
  driver_up (graph_db w) = false ->
  exists e,
    process doc w
    = (Raise e,
       snd (trust_of (text_sample_of doc) (find_doi (text_sample_of doc))
              (doc_stem doc) extraction_model w)).
Proof.
  intros Hdown. unfold process_document, _get_text_sample.
  fold (text_sample_of doc). unfold bind at 1. unfold ret at 1.
  unfold bind at 1.
  pose proof (keeps_graph_document_trust semantic_scholar openalex float_of_string
                float_repr (text_sample_of doc) (find_doi (text_sample_of doc))
                (doc_stem doc) extraction_model w) as Hk.
  destruct (trust_of (text_sample_of doc) (find_doi (text_sample_of doc))
              (doc_stem doc) extraction_model w) as [[t|e] w1]; simpl in *.
  - exists DriverError. unfold _create_document_node, query. unfold_M.
    rewrite Hk, Hdown. reflexivity.
  - exists e. reflexivity.
Qed.

(** X16: [process_document] keeps the graph well formed: if every
    Document trust and edge weight lies in [0,1], every relationship
    links Concept nodes and Document names are unique before the run,
    the same holds after it, whether it returns or raises. *)
Theorem process_document_keeps_graph_sound (doc : document) (w : world) :
  unit_graph (db (graph_db w)) ->
  model_invariant (db (graph_db w)) ->
  unit_graph (db (graph_db (snd (process doc w))))
  /\ model_invariant (db (graph_db (snd (process doc w)))).
Proof.
  intros Hu Hi. unfold process_document, _get_text_sample.
  fold (text_sample_of doc). unfold bind, ret.
  pose proof (keeps_graph_document_trust semantic_scholar openalex float_of_string
                float_repr (text_sample_of doc) (find_doi (text_sample_of doc))
                (doc_stem doc) extraction_model w) as Hk.
  destruct (trust_of (text_sample_of doc) (find_doi (text_sample_of doc))
              (doc_stem doc) extraction_model w) as [[t|e] w1] eqn:Et; simpl in Hk.
  - pose proof (document_trust_at_least_half _ _ _ _ _ _ _ _ _ _ _ Et) as Lt.
    pose proof (document_trust_le_one _ _ _ _ _ _ _ _ _ _ _ Et) as Ut.
    assert (Hunit : in_unit t).
    { split; [|exact Ut]. eapply Qle_trans; [|exact Lt]. unfold Qle; simpl; lia. }
    rewrite <- Hk in Hu, Hi.
    unfold _create_document_node. unfold_M.
    pose proof (unit_graph_query (MergeDocument (doc_name doc) t) w1 Hunit Hu) as Hq1.
    pose proof (model_invariant_query (MergeDocument (doc_name doc) t) w1 Hi) as Hq2.
    destruct (query (MergeDocument (doc_name doc) t) w1) as [[rs|e] w2]; simpl in *;
      [|split; [exact Hq1 | exact Hq2]].
    split.
    + apply (preserves_process_pages unit_graph); [|exact Hq1].
      intros triples w3. apply unit_graph_save_to_graph.
    + apply (preserves_process_pages model_invariant); [|exact Hq2].
      intros triples w3. apply model_invariant_save_to_graph.
  - simpl. rewrite Hk. split; assumption.
Qed.

End OrchestratorProperties.

Lemma process_document_driver_down_witness :
  exists e,
    process_document (fun _ => None) (fun _ => Some retracted_work) no_float plain_repr
      sample_prompts sample_format sample_vision other_classifier retracted_document w_down
    = (Raise e,
       snd (document_trust (fun _ => None) (fun _ => Some retracted_work) no_float
              plain_repr (text_sample_of retracted_document)
              (find_doi (text_sample_of retracted_document)) "paper" other_classifier
              w_down)).
Proof.
  apply (process_document_driver_down (fun _ => None) (fun _ => Some retracted_work)
           no_float plain_repr sample_prompts sample_format sample_vision
           other_classifier retracted_document w_down).
  reflexivity.
Defined.

Lemma process_document_keeps_graph_sound_witness :
  unit_graph (db (graph_db (snd (process_document (fun _ => None)
                                   (fun _ => Some retracted_work) no_float plain_repr
                                   sample_prompts sample_format sample_vision
                                   other_classifier retracted_document w0))))
  /\ model_invariant (db (graph_db (snd (process_document (fun _ => None)
                                          (fun _ => Some retracted_work) no_float
                                          plain_repr sample_prompts sample_format
                                          sample_vision other_classifier
                                          retracted_document w0)))).
Proof.
  apply (process_document_keeps_graph_sound (fun _ => None) (fun _ => Some retracted_work)
           no_float plain_repr sample_prompts sample_format sample_vision
           other_classifier retracted_document w0).
  - split; constructor.
  - apply model_invariant_empty.
Defined.

(** ** Extraction and page images: failures *)

Section FurtherExtractionProperties.

Variable float_repr : Q -> string.
Variable prompts : list (string * string).
Variable str_format : string -> string -> result string.
Variable vision_model : string -> image -> option string.
Variable extraction_model : model.

Local Abbreviation extract :=
  (_extract_knowledge float_repr prompts str_format extraction_model).

(** X17: past the short-circuit, a missing graph_extractor prompt makes
    the extraction raise [KeyError] and a failing format raises too, in
    both cases before the model is invoked; once the prompt is built, a
    failure of the model or of the JSON decoding yields the empty list
    after one invocation, and an answer that is neither an object
    holding a list under "triples" nor an array yields the empty list
    too. *)
Theorem extract_knowledge_failures (content : string) (w : world) :
  (50 <= String.length (strip content))%nat ->
  (table_get "graph_extractor" prompts = None -> extract content w = (Raise KeyError, w))
  /\ (forall template e,
         table_get "graph_extractor" prompts = Some template ->
         str_format template (take MAX_CONTENT_CHARS content) = Raise e ->
         extract content w = (Raise e, w))
  /\ (forall template prompt,
         table_get "graph_extractor" prompts = Some template ->
         str_format template (take MAX_CONTENT_CHARS content) = Ok prompt ->
         (extraction_model prompt = None
          \/ (exists v, extraction_model prompt = Some v /\ candidates v = [])) ->
         extract content w
         = (Ok [], mkWorld (trace w ++ [ExtractionCall prompt]) (graph_db w))).
Proof.
  intros Hlen.
  assert (Hs : (String.length (strip content) <? 50)%nat = false).
  { apply Nat.ltb_ge. exact Hlen. }
  unfold _extract_knowledge, prompts_format, prompts_get. rewrite Hs.
  split; [|split].
  - intros Hp. rewrite Hp. reflexivity.
  - intros template e Hp Hf. rewrite Hp. unfold_M. rewrite Hf. reflexivity.
  - intros template prompt Hp Hf Hm. rewrite Hp. unfold_M. rewrite Hf. simpl.
    destruct Hm as [Hm|[v [Hm Hc]]]; rewrite Hm; [reflexivity|].
    rewrite Hc. reflexivity.
Qed.

Lemma analyze_images_lines (instruction : string) (imgs : list image) :
  table_get "visual_analyst" prompts = Some instruction ->
  forall (i : nat) (ds : list string) (w : world),
    analyze_images prompts vision_model imgs i ds w
    = (Ok (ds ++ figure_lines vision_model instruction imgs i),
       mkWorld (trace w ++ map (VisionCall instruction) imgs) (graph_db w)).
Proof.
  intros Hp. induction imgs as [|img rest IH]; intros i ds w.
  - simpl. unfold ret. rewrite !app_nil_r. destruct w; reflexivity.
  - cbn [analyze_images figure_lines map]. unfold prompts_get. rewrite Hp.
    unfold_M. cbn [trace graph_db].
    destruct (vision_model instruction img) as [c|]; cbn [fst snd];
      rewrite IH; cbn [trace graph_db]; rewrite <- !app_assoc; reflexivity.
Qed.

(** X18: a page without images yields the empty text without any call,
    even when the visual_analyst prompt is missing; a page with images
    and no such prompt raises [KeyError] before any vision call. *)
Theorem analyze_page_images_edges (pg : page) (w : world) :
  (get_images pg = [] -> _analyze_page_images prompts vision_model pg w = (Ok ""%string, w))
  /\ (get_images pg <> [] ->
      table_get "visual_analyst" prompts = None ->
      _analyze_page_images prompts vision_model pg w = (Raise KeyError, w)).
Proof.
  unfold _analyze_page_images. split.
  - intros ->. reflexivity.
  - intros Hne Hp. destruct (get_images pg) as [|img rest]; [congruence|].
    simpl. unfold prompts_get. rewrite Hp. reflexivity.
Qed.

(** X19: with the prompt present, the text of a page's figures is the
    newline-joined list of one line per image whose vision call
    succeeded, each numbered by the position of its image among all the
    images of the page; when every vision call fails the text is empty,
    all the images having been tried. *)
Theorem analyze_page_images_text (instruction : string) (pg : page) (w : world) :
  table_get "visual_analyst" prompts = Some instruction ->
  _analyze_page_images prompts vision_model pg w
  = (Ok (join nl (figure_lines vision_model instruction (get_images pg) 0)),
     mkWorld (trace w ++ map (VisionCall instruction) (get_images pg)) (graph_db w))
  /\ ((forall img, In img (get_images pg) -> vision_model instruction img = None) ->
      figure_lines vision_model instruction (get_images pg) 0 = []).
Proof.
  intros Hp. split.
  - unfold _analyze_page_images. unfold bind.
    rewrite (analyze_images_lines instruction (get_images pg) Hp 0 [] w). reflexivity.
  - generalize 0%nat. induction (get_images pg) as [|img rest IH]; intros i Hall.
    + reflexivity.
    + simpl. rewrite (Hall img (or_introl eq_refl)). simpl.
      apply IH. intros img' Hin. apply Hall. now right.
Qed.

End FurtherExtractionProperties.

Lemma extract_knowledge_failures_witness :
  _extract_knowledge plain_repr sample_prompts sample_format silent_model long_content w0
  = (Ok [], mkWorld (trace w0
                       ++ [ExtractionCall ("Extract the triples of: {text}" ++ long_content)])
                    (graph_db w0)).
Proof.
  destruct (extract_knowledge_failures plain_repr sample_prompts sample_format
              silent_model long_content w0) as (_ & _ & H).
  - apply Nat.leb_le. reflexivity.
  - apply (H "Extract the triples of: {text}"%string).
    + reflexivity.
    + vm_compute. reflexivity.
    + left. reflexivity.
Defined.

Lemma analyze_page_images_text_witness :
  _analyze_page_images sample_prompts blind_vision tiny_page w0
  = (Ok (join nl (figure_lines blind_vision "Describe this figure." [tiny_image] 0)),
     mkWorld (trace w0 ++ map (VisionCall "Describe this figure.") [tiny_image])
             (graph_db w0)).
Proof.
  destruct (analyze_page_images_text sample_prompts blind_vision "Describe this figure."
              tiny_page w0 eq_refl) as [H _].
  exact H.
Defined.

(** ** Image extraction *)

Lemma extract_page_images (p : nat) (min_size : Z * Z) (imgs : list image) (a : nat) :
  map snd
      (flat_map (fun ip : nat * image =>
                   if (width (snd ip) <? fst min_size)%Z || (height (snd ip) <? snd min_size)%Z
                   then []
                   else [(p, S (fst ip), snd ip)])
                (combine (seq a (length imgs)) imgs))
  = filter (large_enough min_size) imgs.
Proof.
  revert a. induction imgs as [|img rest IH]; intros a; simpl; [reflexivity|].
  unfold large_enough at 1.
  destruct ((width img <? fst min_size)%Z || (height img <? snd min_size)%Z); simpl;
    now rewrite IH.
Qed.

Lemma extract_doc_images (min_w min_h : Z) (doc : list page) (a : nat) :
  map snd
      (flat_map (fun pp : nat * page =>
                   flat_map (fun ip : nat * image =>
                               if (width (snd ip) <? min_w)%Z || (height (snd ip) <? min_h)%Z
                               then []
                               else [(S (fst pp), S (fst ip), snd ip)])
                            (indexed (get_images (snd pp))))
                (combine (seq a (length doc)) doc))
  = flat_map (fun pg => filter (large_enough (min_w, min_h)) (get_images pg)) doc.
Proof.
  revert a. induction doc as [|pg rest IH]; intros a; simpl; [reflexivity|].
  rewrite map_app, IH. f_equal.
  apply (extract_page_images (S a) (min_w, min_h) (get_images pg) 0).
Qed.

(** X20: [extract_images_from_pdf] saves exactly the images that are at
    least as wide and as high as the minimum, in page order and then
    image order; each one is recorded under its page number and its
    position on the page, both counted from 1. *)
Theorem extract_images_from_pdf_exact (doc : list page) (min_w min_h : Z) :
  map snd (extract_images_from_pdf doc (min_w, min_h))
  = flat_map (fun pg => filter (large_enough (min_w, min_h)) (get_images pg)) doc
  /\ (forall p i img,
         In (p, i, img) (extract_images_from_pdf doc (min_w, min_h)) ->
         exists pg,
           nth_error doc (Nat.pred p) = Some pg
           /\ nth_error (get_images pg) (Nat.pred i) = Some img
           /\ (1 <= p)%nat /\ (1 <= i)%nat).
Proof.
  split.
  - unfold extract_images_from_pdf. apply (extract_doc_images min_w min_h doc 0).
  - intros p i img H. unfold extract_images_from_pdf in H.
    apply in_flat_map in H. destruct H as [[pi pg] [Hpg H]].
    apply in_flat_map in H. destruct H as [[ii im] [Him H]]. simpl in H.
    destruct ((width im <? min_w)%Z || (height im <? min_h)%Z); [destruct H|].
    destruct H as [H|[]]. inversion H; subst.
    apply In_indexed in Hpg. apply In_indexed in Him.
    exists pg. simpl. auto with arith.
Qed.

Example extract_images_threshold_inclusive :
  map snd (extract_images_from_pdf [mkPage "" [tiny_image; big_image]] default_min_size)
  = [big_image].
Proof. reflexivity. Qed.

Lemma analyze_page_images_edges_witness :
  _analyze_page_images [] blind_vision (mkPage "text only" []) w0 = (Ok ""%string, w0).
Proof.
  destruct (analyze_page_images_edges [] blind_vision (mkPage "text only" []) w0)
    as [H _].
  apply H. reflexivity.
Defined.

(** ** The review page *)

Lemma In_firstn {A} (n : nat) (l : list A) (x : A) : In x (firstn n l) -> In x l.
Proof.
  revert l. induction n as [|n IH]; intros l H; destruct l as [|y r]; simpl in H;
    try contradiction.
  destruct H as [H|H]; [now left | right; now apply IH].
Qed.

Lemma In_provisional_rows (limit : nat) (g : graph) (rec : triple_record) :
  In rec (provisional_rows limit g) ->
  exists r,
    nth_error (rels g) (rec_rel_id rec) = Some r
    /\ coalesce_status r = PROVISIONAL
    /\ rec_status rec = PROVISIONAL
    /\ rec_predicate rec = rtype r
    /\ rec_weight rec = weight r
    /\ rec_sources rec = sources r
    /\ rec_subject rec = node_name (start_node r) g
    /\ rec_object rec = node_name (end_node r) g.
Proof.
  unfold provisional_rows. intros H.
  apply In_firstn in H. rewrite <- in_rev in H. apply in_map_iff in H.
  destruct H as [[i r] [<- H]]. apply filter_In in H. destruct H as [Hin Hst].
  apply In_indexed in Hin. simpl in *. apply String.eqb_eq in Hst.
  exists r. repeat split; auto.
Qed.

(** X21: with the driver up, listing the provisional triples returns
    normally and changes nothing; it returns at most [limit] records,
    each describing an existing edge whose status is absent or
    PROVISIONAL, with that edge's type, weight, sources and end point
    names. With the driver down it raises [DriverError]. *)
Theorem fetch_provisional_triples_sound (limit : nat) (w : world) :
  (driver_up (graph_db w) = true ->
   exists l,
     fetch_provisional_triples limit w = (Ok l, w)
     /\ (length l <= limit)%nat
     /\ forall rec, In rec l ->
          exists r,
            nth_error (rels (db (graph_db w))) (rec_rel_id rec) = Some r
            /\ coalesce_status r = PROVISIONAL
            /\ rec_status rec = PROVISIONAL
            /\ rec_predicate rec = rtype r
            /\ rec_weight rec = weight r
            /\ rec_sources rec = sources r
            /\ rec_subject rec = node_name (start_node r) (db (graph_db w))
            /\ rec_object rec = node_name (end_node r) (db (graph_db w)))
  /\ (driver_up (graph_db w) = false ->
      fetch_provisional_triples limit w = (Raise DriverError, w)).
Proof.
  split; intros Hup.
  - exists (provisional_rows limit (db (graph_db w))). split; [|split].
    + unfold fetch_provisional_triples, query. unfold_M. rewrite Hup. simpl.
      rewrite <- Hup. destruct w as [tr [up g c]]. reflexivity.
    + unfold provisional_rows. apply firstn_le_length.
    + intros rec. apply In_provisional_rows.
  - unfold fetch_provisional_triples, query. unfold_M. rewrite Hup. reflexivity.
Qed.

(** X22: once rows naming an existing edge have been committed, that
    edge is no longer listed among the provisional triples. *)
Theorem committed_edge_not_listed
    (rows : list commit_row) (row : commit_row) (limit : nat) (w : world) :
  driver_up (graph_db w) = true ->
  In row rows ->
  (rel_id row < length (rels (db (graph_db w))))%nat ->
  exists n w1 l,
    commit_triples rows w = (Ok n, w1)
    /\ fetch_provisional_triples limit w1 = (Ok l, w1)
    /\ ~ In (rel_id row) (map rec_rel_id l).
Proof.
  intros Hup Hin Hlt.
  destruct (commit_triples_run rows row w Hup Hin) as [n E].
  pose proof (commit_rows_stamps rows row (clock (graph_db w)) (db (graph_db w)) Hin Hlt)
    as (r & Hr & Hst & _).
  eexists n, _, _. split; [exact E|]. split.
  - unfold fetch_provisional_triples, query. unfold_M. simpl. reflexivity.
  - intros Hl. apply in_map_iff in Hl. destruct Hl as [rec [Hid Hrec]].
    apply In_provisional_rows in Hrec. destruct Hrec as (r' & Hr' & Hp & _).
    simpl in Hr'. rewrite Hid, Hr in Hr'. inversion Hr'; subst r'.
    unfold coalesce_status in Hp. rewrite Hst in Hp. discriminate Hp.
Qed.

Lemma map_update_nth {A B} (h : A -> B) (i : nat) (f : A -> A) (l : list A) :
  (forall x, h (f x) = h x) -> map h (update_nth i f l) = map h l.
Proof.
  intros Hf. revert i. induction l as [|x r IH]; intros [|i]; simpl; auto.
  - now rewrite Hf.
  - now rewrite IH.
Qed.

Lemma commit_set_keeps (row : commit_row) (now : nat) (r : relation) (g : graph) :
  let g' := commit_set row now r g in
  map weight (rels g') = map weight (rels g)
  /\ map sources (rels g') = map sources (rels g)
  /\ map start_node (rels g') = map start_node (rels g)
  /\ map end_node (rels g') = map end_node (rels g)
  /\ map node_label (nodes g') = map node_label (nodes g)
  /\ map trust_score (nodes g') = map trust_score (nodes g).
Proof.
  unfold commit_set. simpl.
  repeat split; repeat (rewrite map_update_nth by (intros; reflexivity)); reflexivity.
Qed.

Lemma commit_rows_keeps (rows : list commit_row) (now : nat) (g : graph) :
  let g' := fst (commit_rows rows now g) in
  map weight (rels g') = map weight (rels g)
  /\ map sources (rels g') = map sources (rels g)
  /\ map start_node (rels g') = map start_node (rels g)
  /\ map end_node (rels g') = map end_node (rels g)
  /\ map node_label (nodes g') = map node_label (nodes g)
  /\ map trust_score (nodes g') = map trust_score (nodes g).
Proof.
  revert g. induction rows as [|row rest IH]; intros g; simpl.
  - repeat split; reflexivity.
  - destruct (nth_error (rels g) (rel_id row)) as [r|]; [|apply IH].
    specialize (IH (commit_set row now r g)).
    destruct (commit_rows rest now (commit_set row now r g)) as [g1 n]. simpl in *.
    destruct (commit_set_keeps row now r g) as (K1 & K2 & K3 & K4 & K5 & K6).
    destruct IH as (H1 & H2 & H3 & H4 & H5 & H6).
    rewrite H1, H2, H3, H4, H5, H6. repeat split; assumption.
Qed.

Lemma commit_rows_count (rows : list commit_row) (now : nat) (g : graph) :
  snd (commit_rows rows now g)
  = length (filter (fun row => (rel_id row <? length (rels g))%nat) rows).
Proof.
  revert g. induction rows as [|row rest IH]; intros g; simpl; [reflexivity|].
  destruct (nth_error (rels g) (rel_id row)) as [r|] eqn:E.
  - assert (Hlt : (rel_id row <? length (rels g))%nat = true).
    { apply Nat.ltb_lt. apply nth_error_Some. congruence. }
    rewrite Hlt. specialize (IH (commit_set row now r g)).
    rewrite length_rels_commit_set in IH.
    destruct (commit_rows rest now (commit_set row now r g)). simpl in *. now rewrite IH.
  - assert (Hge : (rel_id row <? length (rels g))%nat = false).
    { apply Nat.ltb_ge. now apply nth_error_None. }
    rewrite Hge. apply IH.
Qed.

(** X23: with the driver up, a commit returns the number of rows that
    name an existing edge (a row naming an unknown identity is ignored),
    and it changes neither the weight, the sources nor the end points of
    any edge, nor the label or trust score of any node; in particular it
    creates and removes nothing. *)
Theorem commit_triples_count_and_frame (rows : list commit_row) (w : world) :
  driver_up (graph_db w) = true ->
  exists w',
    commit_triples rows w
    = (Ok (length (filter (fun row => (rel_id row <? length (rels (db (graph_db w))))%nat)
                          rows)), w')
    /\ trace w' = trace w
    /\ map weight (rels (db (graph_db w'))) = map weight (rels (db (graph_db w)))
    /\ map sources (rels (db (graph_db w'))) = map sources (rels (db (graph_db w)))
    /\ map start_node (rels (db (graph_db w'))) = map start_node (rels (db (graph_db w)))
    /\ map end_node (rels (db (graph_db w'))) = map end_node (rels (db (graph_db w)))
    /\ map node_label (nodes (db (graph_db w'))) = map node_label (nodes (db (graph_db w)))
    /\ map trust_score (nodes (db (graph_db w')))
       = map trust_score (nodes (db (graph_db w))).
Proof.
  intros Hup. unfold commit_triples. destruct rows as [|r0 rest].
  - exists w. repeat split; reflexivity.
  - unfold query. unfold_M. rewrite Hup. unfold run.
    pose proof (commit_rows_count (r0 :: rest) (clock (graph_db w)) (db (graph_db w)))
      as Hc.
    pose proof (commit_rows_keeps (r0 :: rest) (clock (graph_db w)) (db (graph_db w)))
      as Hk.
    destruct (commit_rows (r0 :: rest) (clock (graph_db w)) (db (graph_db w))) as [g' n].
    simpl in Hc, Hk. subst n.
    eexists. split; [reflexivity|]. split; [reflexivity|]. exact Hk.
Qed.

Lemma fetch_provisional_triples_sound_witness :
  exists l,
    fetch_provisional_triples PAGE_LIMIT w_two = (Ok l, w_two)
    /\ (length l <= PAGE_LIMIT)%nat.
Proof.
  destruct (fetch_provisional_triples_sound PAGE_LIMIT w_two) as [H _].
  destruct (H eq_refl) as (l & E & Hlen & _).
  exists l. split; assumption.
Defined.

Lemma committed_edge_not_listed_witness :
  exists n w1 l,
    commit_triples [sample_commit] w_two = (Ok n, w1)
    /\ fetch_provisional_triples PAGE_LIMIT w1 = (Ok l, w1)
    /\ ~ In O (map rec_rel_id l).
Proof.
  apply (committed_edge_not_listed [sample_commit] sample_commit PAGE_LIMIT w_two).
  - reflexivity.
  - simpl. left. reflexivity.
  - vm_compute. lia.
Defined.

Lemma commit_triples_count_and_frame_witness :
  exists w',
    commit_triples [sample_commit; mkCommitRow 7 "X" "y" "Z"] w_two = (Ok 1%nat, w')
    /\ map weight (rels (db (graph_db w'))) = map weight (rels (db (graph_db w_two))).
Proof.
  destruct (commit_triples_count_and_frame [sample_commit; mkCommitRow 7 "X" "y" "Z"]
              w_two eq_refl) as (w' & E & _ & Hw & _).
  exists w'. split; [exact E | exact Hw].
Defined.

(** ** Edge types *)

Lemma canonical_normalized_char (c : ascii) :
  canonical_char (if Ascii.eqb (upper_char c) " " then "_"%char else upper_char c) = true.
Proof. destruct c as [[] [] [] [] [] [] [] []]; reflexivity. Qed.

Lemma normalized_char_fixed (c : ascii) :
  canonical_char c = true ->
  (if Ascii.eqb (upper_char c) " " then "_"%char else upper_char c) = c.
Proof. destruct c as [[] [] [] [] [] [] [] []]; intros H; try reflexivity; discriminate H. Qed.

Lemma normalize_predicate_chars (p : string) :
  normalize_predicate p
  = map_string (fun c => if Ascii.eqb (upper_char c) " " then "_"%char else upper_char c) p.
Proof.
  unfold normalize_predicate, replace_char, upper. apply map_string_map_string.
Qed.

Lemma string_all_map_string (f : ascii -> bool) (h : ascii -> ascii) (s : string) :
  (forall c, f (h c) = true) -> string_all f (map_string h s) = true.
Proof.
  intros H. induction s as [|c r IH]; simpl; [reflexivity | now rewrite H, IH].
Qed.

Lemma map_string_fixed (f : ascii -> bool) (h : ascii -> ascii) (s : string) :
  (forall c, f c = true -> h c = c) -> string_all f s = true -> map_string h s = s.
Proof.
  intros H. induction s as [|c r IH]; simpl; [reflexivity|]. intros Hs.
  apply andb_true_iff in Hs. destruct Hs as [Hc Hr]. now rewrite (H c Hc), (IH Hr).
Qed.

Lemma canonical_no_space (s : string) :
  string_all canonical_char s = true -> contains_char " " s = false.
Proof.
  induction s as [|c r IH]; simpl; [reflexivity|]. intros H.
  apply andb_true_iff in H. destruct H as [Hc Hr]. rewrite (IH Hr).
  unfold canonical_char in Hc. apply andb_true_iff in Hc. destruct Hc as [Hc _].
  apply negb_true_iff in Hc. now rewrite Hc.
Qed.

Lemma normalize_predicate_all_canonical (p : string) :
  string_all canonical_char (normalize_predicate p) = true.
Proof.
  rewrite normalize_predicate_chars. apply string_all_map_string.
  apply canonical_normalized_char.
Qed.

(** X24: the edge type computed by the save step holds no space and no
    lower-case letter, and computing it again changes nothing: it is a
    canonical form of the predicate. *)
Theorem normalize_predicate_canonical (p : string) :
  string_all canonical_char (normalize_predicate p) = true
  /\ contains_char " " (normalize_predicate p) = false
  /\ normalize_predicate (normalize_predicate p) = normalize_predicate p.
Proof.
  pose proof (normalize_predicate_all_canonical p) as H.
  split; [exact H|]. split; [now apply canonical_no_space|].
  rewrite (normalize_predicate_chars (normalize_predicate p)).
  apply (map_string_fixed canonical_char); [apply normalized_char_fixed | exact H].
Qed.

Lemma contains_space_upper (s : string) :
  contains_char " " (upper s) = contains_char " " s.
Proof.
  unfold upper. induction s as [|c r IH]; simpl; [reflexivity|]. rewrite IH. f_equal.
  destruct c as [[] [] [] [] [] [] [] []]; reflexivity.
Qed.

(** X25: the review commit upper-cases the predicate but keeps its
    spaces, unlike the save step. So an edge committed with a predicate
    that holds a space has a type that no saved triple can produce: it
    is under no triple key the save step looks up, and will not be
    strengthened by a later observation. *)
Theorem committed_space_type_unreachable (row : commit_row) (now : nat) (g : graph) :
  contains_char " " (predicate row) = true ->
  (rel_id row < length (rels g))%nat ->
  let g' := fst (commit_rows [row] now g) in
  (exists r', nth_error (rels g') (rel_id row) = Some r'
              /\ rtype r' = upper (predicate row))
  /\ forall subj p obj, ~ In (rel_id row) (edge_ids subj (normalize_predicate p) obj g').
Proof.
  intros Hsp Hlt g'. subst g'. simpl.
  destruct (nth_error (rels g) (rel_id row)) as [r|] eqn:E.
  2:{ apply nth_error_None in E. lia. }
  simpl.
  assert (Hr : nth_error (rels (commit_set row now r g)) (rel_id row)
               = Some (mkRelation (start_node r) (end_node r) (upper (predicate row))
                                  (weight r) (sources r) (Some VALIDATED) (Some now))).
  { unfold commit_set. simpl. rewrite nth_error_update_nth, Nat.eqb_refl, E. reflexivity. }
  split.
  - eexists. split; [exact Hr | reflexivity].
  - intros subj p obj Hin. unfold edge_ids in Hin.
    apply in_map_iff in Hin. destruct Hin as [[i x] [Hi Hx]]. simpl in Hi. subst i.
    apply filter_In in Hx. destruct Hx as [Hx Hf]. apply In_indexed in Hx.
    rewrite Hr in Hx. inversion Hx; subst x. simpl in Hf.
    apply andb_true_iff in Hf. destruct Hf as [_ Hty]. apply String.eqb_eq in Hty.
    pose proof (canonical_no_space _ (normalize_predicate_all_canonical p)) as Hns.
    rewrite <- Hty, contains_space_upper, Hsp in Hns. discriminate Hns.
Qed.

Lemma committed_space_type_unreachable_witness :
  ~ In O (edge_ids "A" (normalize_predicate "is a") "B"
            (fst (commit_rows [spaced_commit] 0 (db (graph_db w_two))))).
Proof.
  destruct (committed_space_type_unreachable spaced_commit 0 (db (graph_db w_two)))
    as [_ H].
  - reflexivity.
  - vm_compute. lia.
  - apply H.
Defined.

(** ** The graph browser *)

Lemma str_in_In (s : string) (l : list string) : str_in s l = true <-> In s l.
Proof.
  unfold str_in. rewrite existsb_exists. split.
  - intros [x [Hx He]]. apply String.eqb_eq in He. now subst.
  - intros H. exists s. split; [exact H | apply String.eqb_refl].
Qed.

Lemma str_in_same (s : string) (l1 l2 : list string) :
  (forall x, In x l1 <-> In x l2) -> str_in s l1 = str_in s l2.
Proof.
  intros H. destruct (str_in s l1) eqn:E1, (str_in s l2) eqn:E2; try reflexivity.
  - apply str_in_In in E1. apply H in E1. apply str_in_In in E1. congruence.
  - apply str_in_In in E2. apply H in E2. apply str_in_In in E2. congruence.
Qed.

(** X26: the colour of a node depends neither on the letter case of its
    labels nor on their order or multiplicity, only on which labels
    occur once upper-cased. *)
Theorem color_for_labels_invariant (labels labels' : list string) :
  color_for_labels (map lower labels) = color_for_labels labels
  /\ ((forall x, In x (map upper labels) <-> In x (map upper labels')) ->
      color_for_labels labels = color_for_labels labels').
Proof.
  split.
  - unfold color_for_labels. rewrite map_map.
    rewrite (map_ext (fun x => upper (lower x)) upper upper_lower). reflexivity.
  - intros H. unfold color_for_labels.
    rewrite !(str_in_same _ _ _ H). reflexivity.
Qed.

Lemma has_node_In (key : string) (nodes : list vis_node) :
  has_node key nodes = true <-> In key (map vis_id nodes).
Proof.
  unfold has_node. rewrite existsb_exists, in_map_iff. split.
  - intros [n [Hn He]]. apply String.eqb_eq in He. eauto.
  - intros [n [He Hn]]. exists n. split; [exact Hn|]. subst. apply String.eqb_refl.
Qed.

Lemma add_vis_node_ok (name : option string) (labels : option (list string))
    (nodes nodes1 : list vis_node) :
  nodes_ok nodes ->
  add_vis_node name labels nodes = Ok nodes1 ->
  nodes_ok nodes1
  /\ (forall k, In k (map vis_id nodes) -> In k (map vis_id nodes1))
  /\ (truthy_opt name = true -> In (text_of name) (map vis_id nodes1)).
Proof.
  intros [Hnd Hf] H. unfold add_vis_node in H.
  destruct (truthy_opt name) eqn:Et; simpl in H.
  - destruct (has_node (text_of name) nodes) eqn:Eh; simpl in H.
    + inversion H; subst. split; [split; assumption|]. split; [auto|].
      intros _. now apply has_node_In.
    + destruct labels as [ls|]; [|discriminate H]. inversion H; subst.
      split; [split|split].
      * rewrite map_app. simpl. apply NoDup_app.
        -- exact Hnd.
        -- constructor; [intros []|constructor].
        -- intros k Hk [<-|[]]. apply has_node_In in Hk. congruence.
      * apply Forall_app. split; [exact Hf|]. constructor; [|constructor]. simpl.
        split; [|reflexivity]. destruct name as [s|]; [|discriminate Et].
        simpl in *. apply string_eqb_empty. now apply negb_true_iff.
      * intros k Hk. rewrite map_app. apply in_or_app. now left.
      * intros _. rewrite map_app. apply in_or_app. right. simpl. now left.
  - inversion H; subst. split; [split; assumption|]. split; [auto|]. discriminate.
Qed.

Lemma build_loop_ok (rows : list search_row) :
  forall nodes edges nodes' edges',
    nodes_ok nodes ->
    Forall (fun e => In (edge_source e) (map vis_id nodes)
                     /\ In (edge_target e) (map vis_id nodes)) edges ->
    build_loop rows nodes edges = Ok (nodes', edges') ->
    nodes_ok nodes'
    /\ Forall (fun e => In (edge_source e) (map vis_id nodes')
                        /\ In (edge_target e) (map vis_id nodes')) edges'
    /\ length edges' = (length edges + length (filter full_row rows))%nat.
Proof.
  induction rows as [|row rest IH]; intros nodes edges nodes' edges' Hn He H;
    cbn [build_loop] in H.
  - inversion H; subst. split; [exact Hn|]. split; [exact He|]. simpl. lia.
  - destruct (add_vis_node (row_source row) (row_source_labels row) nodes)
      as [nodes1|e] eqn:E1; [|discriminate H].
    destruct (add_vis_node (row_target row) (row_target_labels row) nodes1)
      as [nodes2|e] eqn:E2; [|discriminate H].
    destruct (add_vis_node_ok _ _ _ _ Hn E1) as (Hn1 & Hk1 & Hs1).
    destruct (add_vis_node_ok _ _ _ _ Hn1 E2) as (Hn2 & Hk2 & Hs2).
    assert (He2 : Forall (fun e => In (edge_source e) (map vis_id nodes2)
                                   /\ In (edge_target e) (map vis_id nodes2)) edges).
    { eapply Forall_impl; [|exact He]. intros e [H1 H2]. auto. }
    cbv zeta in H. fold (full_row row) in H. cbn [filter].
    destruct (full_row row) eqn:Ef.
    + apply IH in H; [|exact Hn2|].
      * destruct H as (Ha & Hb & Hc). split; [exact Ha|]. split; [exact Hb|].
        rewrite Hc. rewrite length_app. simpl. lia.
      * unfold full_row in Ef. apply andb_true_iff in Ef. destruct Ef as [Ef Tr].
        apply andb_true_iff in Ef. destruct Ef as [Ts Tt].
        apply Forall_app. split; [exact He2|]. constructor; [|constructor]. simpl.
        split; [apply Hk2, Hs1, Ts | apply Hs2, Tt].
    + apply IH in H; auto.
Qed.

(** X27: when [build_graph] returns, the node identifiers are distinct
    and non-empty, every node is labelled by its identifier, every edge
    runs between two nodes of the result, and there is one edge per row
    that has a source, a target and a relationship type. *)
Theorem build_graph_well_formed
    (rows : list search_row) (nodes : list vis_node) (edges : list vis_edge) :
  build_graph rows = Ok (nodes, edges) ->
  NoDup (map vis_id nodes)
  /\ Forall (fun n => vis_id n <> ""%string /\ vis_label n = vis_id n) nodes
  /\ Forall (fun e => In (edge_source e) (map vis_id nodes)
                      /\ In (edge_target e) (map vis_id nodes)) edges
  /\ length edges = length (filter full_row rows).
Proof.
  intros H. unfold build_graph in H.
  apply build_loop_ok in H.
  - destruct H as ([H1 H2] & H3 & H4). auto.
  - split; constructor.
  - constructor.
Qed.

Lemma build_graph_well_formed_witness :
  NoDup ["A"%string; "B"%string].
Proof.
  destruct (build_graph_well_formed sample_rows
              [mkVisNode "A" "A" "#ff7f0e"; mkVisNode "B" "B" "#7f7f7f"]
              [mkVisEdge "A" "B" "CAUSES"] eq_refl) as [H _].
  exact H.
Defined.

(** ** Page processing never fails on account of the models *)


Section PageProperties.

Variable float_repr : Q -> string.
Variable prompts : list (string * string).
Variable str_format : string -> string -> result string.
Variable vision_model : string -> image -> option string.
Variable extraction_model : model.



End PageProperties.

